(** * EasyDocs: the gallery image resolution and export pipeline

    A shallow embedding of the parts of [app/lib/hitomi.ts] and
    [app/components/hitomi-viewer.tsx] that resolve gallery image URLs
    and export galleries as images, with the properties the
    specification states about them.

    JavaScript numbers that are integers in the source (pixel sizes,
    counts, buckets, server indices) are modelled by [Z]; the scaled
    quantities of the composite stitcher, which the source computes
    with fractional factors, are modelled by [Q].  Strings are
    sequences of code units below 256 ([string] of [ascii]). *)

From Stdlib Require Import ZArith QArith Qround Qminmax Lia Lqa.
From Stdlib Require Import Ascii String DecimalString.
From Stdlib Require DecimalPos DecimalZ.
From stdpp Require Import base option list gmap.

Close Scope Q_scope.
Local Open Scope Z_scope.

(** ** Shared numeric helpers *)

(** [Math.ceil(a / b)] for an integer [a] and a positive integer [b]. *)
Definition ceil_div (a b : Z) : Z := - ((- a) / b).

(** The export limits of one output format ([ImageExportConfig]); the
    encoder quality, a fraction used only by the encoder, is left out. *)
Record ImageExportConfig := {
  mime : string;
  extension : string;
  maxDimension : Z;
  maxPixels : Z
}.

(** ** Tile planner ([resolveTilePlan]) *)
Module TilePlanner.

Record TilePlan := {
  cols : Z;
  rows : Z;
  tileWidth : Z;
  tileHeight : Z
}.

(** The four variables of [resolveTilePlan] after [tileWidth] and
    [tileHeight] were recomputed for the counts [c] and [r]. *)
Definition plan_at (width height c r : Z) : TilePlan :=
  {| cols := c; rows := r;
     tileWidth := ceil_div width c; tileHeight := ceil_div height r |}.

(** One pass through the body of the [while] loop. *)
Definition tile_step (width height : Z) (p : TilePlan) : TilePlan :=
  if tileWidth p >=? tileHeight p
  then plan_at width height (cols p + 1) (rows p)
  else plan_at width height (cols p) (rows p + 1).

(** The [while (tileWidth * tileHeight > maxPixels)] loop, bounded by
    [fuel] passes: [None] when the bound is reached with the condition
    still true. *)
Fixpoint tile_loop (fuel : nat) (width height maxPix : Z) (p : TilePlan)
  : option TilePlan :=
  if tileWidth p * tileHeight p >? maxPix then
    match fuel with
    | O => None
    | S fuel' => tile_loop fuel' width height maxPix (tile_step width height p)
    end
  else Some p.

Definition initial_plan (width height : Z) (limits : ImageExportConfig) : TilePlan :=
  plan_at width height
    (Z.max 1 (ceil_div width (maxDimension limits)))
    (Z.max 1 (ceil_div height (maxDimension limits))).

Definition resolveTilePlan_fuel (fuel : nat) (width height : Z)
    (limits : ImageExportConfig) : option TilePlan :=
  tile_loop fuel width height (maxPixels limits) (initial_plan width height limits).

(** A number of passes that is always enough (see [tile_loop_enough]). *)
Definition tile_fuel (width height : Z) : nat :=
  Z.to_nat (Z.abs width + Z.abs height + 2).

Definition resolveTilePlan (width height : Z) (limits : ImageExportConfig)
  : option TilePlan :=
  resolveTilePlan_fuel (tile_fuel width height) width height limits.

(** *** The split loop of [handleDownloadImages] *)

(** A source crop rectangle: the arguments [sx, sy, sw, sh] of [drawImage]. *)
Record Crop := { sx : Z; sy : Z; sw : Z; sh : Z }.

(** The plan the split loop uses for a loaded image. *)
Definition needsSplit (split : bool) (width height : Z)
    (formatConfig : ImageExportConfig) : bool :=
  split && ((width >? maxDimension formatConfig)
            || (height >? maxDimension formatConfig)
            || (width * height >? maxPixels formatConfig)).

Definition split_plan (split : bool) (width height : Z)
    (formatConfig : ImageExportConfig) : option TilePlan :=
  if needsSplit split width height formatConfig
  then resolveTilePlan width height formatConfig
  else Some {| cols := 1; rows := 1; tileWidth := width; tileHeight := height |}.

Definition crop_at (width height : Z) (plan : TilePlan) (row col : Z) : Crop :=
  {| sx := col * tileWidth plan;
     sy := row * tileHeight plan;
     sw := Z.min (tileWidth plan) (width - col * tileWidth plan);
     sh := Z.min (tileHeight plan) (height - row * tileHeight plan) |}.

(** [0, 1, ..., n-1], the values a [for (i = 0; i < n; i += 1)] loop visits. *)
Definition upto (n : Z) : list Z := Z.of_nat <$> seq 0 (Z.to_nat n).

(** The crops in the order the nested loops take them, with their
    [(row, col)] position. *)
Definition tile_crops (width height : Z) (plan : TilePlan) : list (Z * Z * Crop) :=
  row ← upto (rows plan);
  col ← upto (cols plan);
  [(row, col, crop_at width height plan row col)].

(** The source pixel [(x, y)] lies in the crop. *)
Definition in_crop (x y : Z) (c : Crop) : Prop :=
  sx c ≤ x < sx c + sw c ∧ sy c ≤ y < sy c + sh c.

End TilePlanner.

(** ** Strings as the source uses them *)
Module JsString.
Local Open Scope string_scope.
Local Open Scope Z_scope.

Definition code (c : ascii) : Z := Z.of_N (N_of_ascii c).

(** The class [\s] of regular expressions, also the white space that
    [parseInt] skips, among code units below 256. *)
Definition is_space (c : ascii) : bool :=
  ((9 <=? code c) && (code c <=? 13)) || (code c =? 32) || (code c =? 160).

(** The class [\d]. *)
Definition is_digit (c : ascii) : bool := (48 <=? code c) && (code c <=? 57).

Fixpoint drop_while (f : ascii → bool) (s : string) : string :=
  match s with
  | String c s' => if f c then drop_while f s' else s
  | EmptyString => s
  end.

Fixpoint take_while (f : ascii → bool) (s : string) : string :=
  match s with
  | String c s' => if f c then String c (take_while f s') else EmptyString
  | EmptyString => EmptyString
  end.

(** The rest of [s] after the literal [p], when [s] starts with it. *)
Fixpoint strip_prefix (p s : string) : option string :=
  match p, s with
  | EmptyString, _ => Some s
  | String a p', String b s' => if Ascii.eqb a b then strip_prefix p' s' else None
  | String _ _, EmptyString => None
  end.

(** [\s*], [\s+] and [(\d+)]: greedy runs.  In every pattern below the
    token after such a run is outside the run's class, so the longest
    run is the only one a backtracking matcher can accept. *)
Definition skip_ws (s : string) : string := drop_while is_space s.

Definition ws_plus (s : string) : option string :=
  match s with
  | String c s' => if is_space c then Some (skip_ws s') else None
  | EmptyString => None
  end.

Definition digits_plus (s : string) : option (string * string) :=
  match take_while is_digit s with
  | EmptyString => None
  | d => Some (d, drop_while is_digit s)
  end.

(** [Number(d)] for a run of decimal digits, at its exact value (the
    source rounds above 2^53). *)
Definition Number_digits (d : string) : Z :=
  fold_left (fun acc c => 10 * acc + (code c - 48)) (list_ascii_of_string d) 0.

(** [String(n)] for an integer. *)
Definition String_of_int (n : Z) : string := NilZero.string_of_int (Z.to_int n).

(** [s.toLowerCase()] on code units below 256. *)
Definition lower_char (c : ascii) : ascii :=
  if ((65 <=? code c) && (code c <=? 90))
     || ((192 <=? code c) && (code c <=? 222) && negb (code c =? 215))
  then ascii_of_N (Z.to_N (code c + 32)) else c.

Fixpoint toLowerCase (s : string) : string :=
  match s with
  | String c s' => String (lower_char c) (toLowerCase s')
  | EmptyString => EmptyString
  end.

(** [s.slice(start, stop)], negative indices counting from the end. *)
Definition slice_index (len i : Z) : Z :=
  if i <? 0 then Z.max (len + i) 0 else Z.min i len.

Definition slice (s : string) (start : Z) (stop : option Z) : string :=
  let len := Z.of_nat (String.length s) in
  let from := slice_index len start in
  let upto := match stop with Some e => slice_index len e | None => len end in
  substring (Z.to_nat from) (Z.to_nat (Z.max (upto - from) 0)) s.

(** [s.split(".").pop()]: what follows the last dot, or all of [s]. *)
Fixpoint split_dot_pop (cur s : string) : string :=
  match s with
  | String c s' =>
      if Ascii.eqb c "." then split_dot_pop EmptyString s'
      else split_dot_pop (cur ++ String c EmptyString) s'
  | EmptyString => cur
  end.

(** [regex.exec(s)] for a pattern given by its matcher at one position:
    the captures of the leftmost match. *)
Fixpoint exec {A} (m : string → option (A * string)) (s : string) : option A :=
  match m s with
  | Some (a, _) => Some a
  | None => match s with
            | String _ s' => exec m s'
            | EmptyString => None
            end
  end.

(** [s.matchAll(regex)] for a global pattern: the leftmost match, then
    the leftmost match after its end, and so on.  [skip] counts the code
    units of the last match still to be passed over. *)
Fixpoint matchAll {A} (m : string → option (A * string)) (skip : nat) (s : string)
  : list A :=
  match skip with
  | S k => match s with
           | String _ s' => matchAll m k s'
           | EmptyString => []
           end
  | O =>
      match m s with
      | Some (a, rest) =>
          a :: match s with
               | String _ s' =>
                   matchAll m (pred (String.length s - String.length rest)) s'
               | EmptyString => []
               end
      | None => match s with
                | String _ s' => matchAll m 0 s'
                | EmptyString => []
                end
      end
  end.

(** [Number.parseInt(s, 16)]; [None] is [NaN]. *)
Definition hex_digit (c : ascii) : option Z :=
  if (48 <=? code c) && (code c <=? 57) then Some (code c - 48)
  else if (97 <=? code c) && (code c <=? 102) then Some (code c - 87)
  else if (65 <=? code c) && (code c <=? 70) then Some (code c - 55)
  else None.

Fixpoint hex_prefix_value (acc : Z) (seen : bool) (s : string) : option Z :=
  match s with
  | String c s' =>
      match hex_digit c with
      | Some d => hex_prefix_value (16 * acc + d) true s'
      | None => if seen then Some acc else None
      end
  | EmptyString => if seen then Some acc else None
  end.

Definition parseInt16 (s : string) : option Z :=
  let s1 := skip_ws s in
  let '(sign, s2) :=
    match s1 with
    | String c r => if Ascii.eqb c "-" then (-1, r)
                    else if Ascii.eqb c "+" then (1, r) else (1, s1)
    | EmptyString => (1, s1)
    end in
  let s3 :=
    match s2 with
    | String c (String x r) =>
        if Ascii.eqb c "0" && (Ascii.eqb x "x" || Ascii.eqb x "X") then r else s2
    | _ => s2
    end in
  Z.mul sign <$> hex_prefix_value 0 false s3.

End JsString.

(** ** Server map and image URLs ([app/lib/hitomi.ts]) *)
Module Hitomi.
Import JsString.
Local Open Scope string_scope.
Local Open Scope Z_scope.

(** [HitomiFile]; [haswebp] and [hasavif] hold the truthiness of the
    source's [number | boolean] flags. *)
Record HitomiFile := {
  name : option string;
  hash : option string;
  haswebp : bool;
  hasavif : bool;
  width : option Z;
  height : option Z
}.

Record HitomiServerMap := {
  map : gmap Z Z;
  basePath : string;
  defaultServer : Z
}.

Definition HITOMI_IMAGE_DOMAIN : string := "gold-usergeneratedcontent.net".

(** *** [parseServerMap] *)

(** [o\s*=\s*(\d+)] *)
Definition assign_match (s : string) : option (string * string) :=
  s1 ← strip_prefix "o" s;
  s2 ← strip_prefix "=" (skip_ws s1);
  digits_plus (skip_ws s2).

(** [caseRegex = /case\s+(\d+):(?:\s*o\s*=\s*(\d+))?/g] at one position:
    the captures [match[1]], [match[2]] and the input after the match. *)
Definition caseRegex (s : string) : option ((string * option string) * string) :=
  s1 ← strip_prefix "case" s;
  s2 ← ws_plus s1;
  '(k, s3) ← digits_plus s2;
  s4 ← strip_prefix ":" s3;
  match assign_match (skip_ws s4) with
  | Some (v, rest) => Some ((k, Some v), rest)
  | None => Some ((k, None), s4)
  end.

(** [ifRegex = /if\s+\(g\s*===?\s*(\d+)\)[\s{]*o\s*=\s*(\d+)/g] *)
Definition ifRegex (s : string) : option ((string * string) * string) :=
  s1 ← strip_prefix "if" s;
  s2 ← ws_plus s1;
  s3 ← strip_prefix "(g" s2;
  s4 ← strip_prefix "==" (skip_ws s3);
  let s5 := default s4 (strip_prefix "=" s4) in
  '(k, s6) ← digits_plus (skip_ws s5);
  s7 ← strip_prefix ")" s6;
  '(v, rest) ← assign_match (drop_while (fun c => is_space c || Ascii.eqb c "{") s7);
  Some ((k, v), rest).

(** [/(?:var\s|default:)\s*o\s*=\s*(\d+)/] *)
Definition defaultRegex (s : string) : option (string * string) :=
  s1 ← match strip_prefix "var" s with
       | Some (String c r) => if is_space c then Some r else None
       | Some EmptyString => None
       | None => strip_prefix "default:" s
       end;
  assign_match (skip_ws s1).

Definition is_quote (c : ascii) : bool := (code c =? 34) || (code c =? 39).

(** The base path pattern: [b:], [\s*], a single or double quote, one or
    more characters that are no quote (captured), and a quote of either
    kind. *)
Definition baseRegex (s : string) : option (string * string) :=
  s1 ← strip_prefix "b:" s;
  match skip_ws s1 with
  | String q s2 =>
      if is_quote q then
        match take_while (fun c => negb (is_quote c)) s2,
              drop_while (fun c => negb (is_quote c)) s2 with
        | String c body, String _ rest => Some (String c body, rest)
        | _, _ => None
        end
      else None
  | EmptyString => None
  end.

(** [.replace(/^\/+|\/+$/g, ...)] with the empty string: the leading and
    the trailing run of slashes are removed. *)
Fixpoint strip_trailing_slashes (s : string) : string :=
  match s with
  | String c s' =>
      match strip_trailing_slashes s' with
      | EmptyString => if Ascii.eqb c "/" then EmptyString else String c EmptyString
      | r => String c r
      end
  | EmptyString => EmptyString
  end.

Definition strip_slashes (s : string) : string :=
  strip_trailing_slashes (drop_while (fun c => Ascii.eqb c "/") s).

(** The first loop: every case label is pushed on [keys]; a label that
    carries an assignment gives its value to all of [keys] and empties
    the list.  The [Number.isFinite] guards of the source always pass
    here: a run of digits is a finite number. *)
Definition case_step (st : gmap Z Z * list Z) (m : string * option string)
  : gmap Z Z * list Z :=
  let key := Number_digits m.1 in
  let keys := (st.2 ++ [key])%list in
  match m.2 with
  | Some v =>
      (foldl (fun acc storedKey => <[storedKey := Number_digits v]> acc) st.1 keys, [])
  | None => (st.1, keys)
  end.

Definition case_pass (ms : list (string * option string)) : gmap Z Z * list Z :=
  foldl case_step (∅, []) ms.

(** The second loop: [map[key] = value] for every [if] match. *)
Definition if_step (acc : gmap Z Z) (m : string * string) : gmap Z Z :=
  <[Number_digits m.1 := Number_digits m.2]> acc.

Definition parseServerMap (payload : string) : option HitomiServerMap :=
  let cases := case_pass (matchAll caseRegex 0 payload) in
  let map := foldl if_step cases.1 (matchAll ifRegex 0 payload) in
  let defaultMatch := exec defaultRegex payload in
  match exec baseRegex payload with
  | None => None
  | Some base =>
      Some {| map := map;
              basePath := strip_slashes base;
              defaultServer := from_option Number_digits 0 defaultMatch |}
  end.

(** *** [resolveHitomiImageUrl] *)

Definition resolveHitomiExtension (file : HitomiFile) : string :=
  if haswebp file then "webp"
  else if hasavif file then "avif"
  else match split_dot_pop "" (default "" (name file)) with
       | EmptyString => "jpg"
       | ext => toLowerCase ext
       end.

Definition getHitomiImageVariants (file : HitomiFile) : list string :=
  let variants1 := if haswebp file then ["webp"] else [] in
  let variants2 := (variants1 ++ if hasavif file then ["avif"] else [])%list in
  let originalExt := toLowerCase (split_dot_pop "" (default "" (name file))) in
  let variants3 :=
    match originalExt with
    | EmptyString => variants2
    | _ => if decide (originalExt ∈ variants2) then variants2
           else (variants2 ++ [originalExt])%list
    end in
  match variants3 with
  | [] => ["jpg"]
  | _ => variants3
  end.

Definition resolveHashNumber (hash : string) : option Z :=
  if (String.length hash <? 3)%nat then None
  else parseInt16 (slice hash (-1) None ++ slice hash (-3) (Some (-1))).

(** Server indices are integers here, so the guard
    [Number.isFinite(serverValue)] passes and [serverId] is
    [serverValue + 1]. *)
Definition resolveHitomiImageUrl (file : HitomiFile) (serverMap : HitomiServerMap)
    (overrideExt : option string) : option string :=
  match hash file with
  | None | Some EmptyString => None
  | Some hash =>
      hashNumber ← resolveHashNumber hash;
      let ext := toLowerCase (default (resolveHitomiExtension file) overrideExt) in
      let serverValue := default (defaultServer serverMap) (map serverMap !! hashNumber) in
      let serverId := serverValue + 1 in
      let hostPrefix := match ext with
                        | String c _ => String c EmptyString
                        | EmptyString => "i"
                        end in
      Some ("https://" ++ hostPrefix ++ String_of_int serverId ++ "."
            ++ HITOMI_IMAGE_DOMAIN ++ "/" ++ basePath serverMap ++ "/"
            ++ String_of_int hashNumber ++ "/" ++ hash ++ "." ++ ext)
  end.

End Hitomi.

(** ** The server map cache ([getHitomiServerMap]) *)
Module ServerMapCache.
Import Hitomi.

(** What [fetch(HITOMI_GG_URL)] gives: a rejection, or a response with
    its [ok] flag and what [response.text()] resolves to ([None] when
    reading the body rejects). *)
Inductive FetchOutcome :=
| FetchRejected
| FetchResponse (ok : bool) (text : option string).

(** The promise chain of [getHitomiServerMap]:
    [.then(response => response.ok ? response.text() : ...)] with the
    empty string for a response that is not ok,
    [.then(payload => payload ? parseServerMap(payload) : null)] and
    [.catch(() => null)]. *)
Definition resolve_chain (o : FetchOutcome) : option HitomiServerMap :=
  match o with
  | FetchRejected => None
  | FetchResponse ok text =>
      match (if ok then text else Some EmptyString) with
      | None => None
      | Some EmptyString => None
      | Some payload => parseServerMap payload
      end
  end.

Inductive PromiseState :=
| Pending
| Fulfilled (resolved : option HitomiServerMap).

(** The module state: the variable [serverMapPromise] (a reference to a
    promise, or null), the promises created so far, and the number of
    [fetch] calls issued. *)
Record State := {
  serverMapPromise : option nat;
  promises : list PromiseState;
  fetches : nat
}.

Definition initial : State :=
  {| serverMapPromise := None; promises := []; fetches := 0 |}.

(** A call up to [await serverMapPromise]: with no cached promise it
    issues the fetch and stores the new promise; it returns the promise
    the caller awaits. *)
Definition call_enter (s : State) : State * nat :=
  match serverMapPromise s with
  | Some p => (s, p)
  | None =>
      let p := length (promises s) in
      ({| serverMapPromise := Some p;
          promises := promises s ++ [Pending];
          fetches := S (fetches s) |}, p)
  end.

(** The fetch behind promise [p] ends with outcome [o]. *)
Definition settle (p : nat) (o : FetchOutcome) (s : State) : State :=
  match promises s !! p with
  | Some Pending =>
      {| serverMapPromise := serverMapPromise s;
         promises := <[p := Fulfilled (resolve_chain o)]> (promises s);
         fetches := fetches s |}
  | _ => s
  end.

(** The rest of a call, once the awaited promise [p] is fulfilled:
    [if (!resolved) serverMapPromise = null; return resolved].  [None]
    while [p] is pending: the caller is not resumed yet. *)
Definition call_resume (p : nat) (s : State)
  : option (State * option HitomiServerMap) :=
  match promises s !! p with
  | Some (Fulfilled (Some serverMap)) => Some (s, Some serverMap)
  | Some (Fulfilled None) =>
      Some ({| serverMapPromise := None;
               promises := promises s;
               fetches := fetches s |}, None)
  | _ => None
  end.

(** A call that runs alone: if it has to fetch, the fetch ends with [o]
    before anything else happens. *)
Definition getHitomiServerMap (o : FetchOutcome) (s : State)
  : option (State * option HitomiServerMap) :=
  let '(s1, p) := call_enter s in
  call_resume p (settle p o s1).

(** Calls one after the other, each with the outcome its fetch would
    have; the results in order. *)
Fixpoint calls (os : list FetchOutcome) (s : State)
  : option (State * list (option HitomiServerMap)) :=
  match os with
  | [] => Some (s, [])
  | o :: os' =>
      '(s1, r) ← getHitomiServerMap o s;
      '(s2, rs) ← calls os' s1;
      Some (s2, r :: rs)
  end.

End ServerMapCache.

(** ** Image export ([handleDownloadImages] of the gallery viewer) *)
Module ImageExport.
Import JsString TilePlanner.
Local Open Scope string_scope.
Local Open Scope Z_scope.

Inductive ImageExportFormat := png | jpg | webp | avif.
Inductive ImagePackaging := single | zip.

Definition IMAGE_EXPORT_CONFIG (format : ImageExportFormat) : ImageExportConfig :=
  match format with
  | png => {| mime := "image/png"; extension := "png";
              maxDimension := 16384; maxPixels := 268435456 |}
  | jpg => {| mime := "image/jpeg"; extension := "jpg";
              maxDimension := 16384; maxPixels := 268435456 |}
  | webp => {| mime := "image/webp"; extension := "webp";
               maxDimension := 16383; maxPixels := 268435456 |}
  | avif => {| mime := "image/avif"; extension := "avif";
               maxDimension := 16384; maxPixels := 268435456 |}
  end.

(** What [fetchImageBlob(entry.sources)] followed by [loadImageSource]
    gives for one image: no blob (every source failed), a blob that
    does not decode ([loadImageSource] throws), or a decoded image. *)
Inductive Retrieval :=
| NoBlob
| DecodeFails
| Loaded (width height : Z).

(** The browser and the network during one export. *)
Record Env := {
  (** the probe of [resolveFormatConfig] gets a blob for the format *)
  supports : ImageExportFormat → bool;
  (** retrieval of [images[index]]; every image is retrieved at most
      once in a session *)
  retrieve : nat → Retrieval;
  (** [getContext("2d")] gives a context for a canvas of this size *)
  has_context : Z → Z → bool;
  (** [canvasToBlob] gives a blob for a canvas of this size *)
  encodes : Z → Z → bool
}.

Record HitomiImageEntry := {
  sources : list string;
  alt : string;
  width : option Z;
  height : option Z
}.

Definition resolveFormatConfig (env : Env) (format : ImageExportFormat)
  : ImageExportConfig :=
  if supports env format then IMAGE_EXPORT_CONFIG format else IMAGE_EXPORT_CONFIG png.

(** How a stretch of the handler ends: it goes on, the handler returns,
    an exception leaves the [try] block, or a loop does not end within
    the passes allowed. *)
Inductive Flow (S : Type) :=
| Continue (s : S)
| Return (s : S)
| Throw (s : S)
| Diverge.
Arguments Continue {S} s.
Arguments Return {S} s.
Arguments Throw {S} s.
Arguments Diverge {S}.

(** A file handed to [triggerDownload]. *)
Inductive Saved :=
| SavedFile (fileName : string)
| SavedZip (zipName : string) (entries : list string).

(** The outputs of a session: the keys of [entries], in insertion
    order, and the downloads triggered so far. *)
Record Session := {
  entries : list string;
  downloads : list Saved
}.

Definition writeOutput (packaging : ImagePackaging) (fileName : string)
    (s : Session) : Session :=
  match packaging with
  | zip =>
      {| entries := if decide (fileName ∈ entries s) then entries s
                    else (entries s ++ [fileName])%list;
         downloads := downloads s |}
  | single =>
      {| entries := entries s;
         downloads := (downloads s ++ [SavedFile fileName])%list |}
  end.

Definition finalizeZip (packaging : ImagePackaging) (baseLabel : string)
    (formatConfig : ImageExportConfig) (suffix : string) (s : Session) : Session :=
  match packaging, entries s with
  | zip, _ :: _ =>
      let labelSuffix := match suffix with
                         | EmptyString => EmptyString
                         | _ => "-" ++ suffix
                         end in
      let zipName := baseLabel ++ labelSuffix ++ "-" ++ extension formatConfig ++ ".zip" in
      {| entries := entries s;
         downloads := (downloads s ++ [SavedZip zipName (entries s)])%list |}
  | _, _ => s
  end.

(** [String(value).padStart(indexWidth, ...)] with the pad character 0. *)
Fixpoint zeros (n : nat) : string :=
  match n with
  | O => EmptyString
  | S n' => String "0" (zeros n')
  end.

Definition padIndex (indexWidth : nat) (value : Z) : string :=
  let digits := String_of_int value in
  zeros (indexWidth - String.length digits) ++ digits.

(** *** The split loop *)

Definition export_tile (env : Env) (formatConfig : ImageExportConfig)
    (packaging : ImagePackaging) (baseLabel indexLabel : string) (plan : TilePlan)
    (s : Session) (t : Z * Z * Crop) : Session :=
  let '(row, col, crop) := t in
  if negb (has_context env (sw crop) (sh crop)) then s
  else if negb (encodes env (sw crop) (sh crop)) then s
  else
    let suffix :=
      if (cols plan >? 1) || (rows plan >? 1)
      then "-part-" ++ String_of_int (row + 1) ++ "-" ++ String_of_int (col + 1)
      else EmptyString in
    writeOutput packaging
      (baseLabel ++ "-" ++ indexLabel ++ suffix ++ "." ++ extension formatConfig) s.

(** The loop [for (index = 0; index < images.length; index += 1)] of the
    branch without [combine], from [index] on. *)
Fixpoint export_each (env : Env) (formatConfig : ImageExportConfig)
    (packaging : ImagePackaging) (split : bool) (baseLabel : string)
    (indexWidth : nat) (index : nat) (images : list HitomiImageEntry)
    (s : Session) : Flow Session :=
  match images with
  | [] => Continue s
  | entry :: rest =>
      match retrieve env index with
      | NoBlob =>
          export_each env formatConfig packaging split baseLabel indexWidth
            (S index) rest s
      | DecodeFails => Throw s
      | Loaded width height =>
          match split_plan split width height formatConfig with
          | None => Diverge
          | Some plan =>
              export_each env formatConfig packaging split baseLabel indexWidth
                (S index) rest
                (foldl (export_tile env formatConfig packaging baseLabel
                          (padIndex indexWidth (Z.of_nat index + 1)) plan)
                   s (tile_crops width height plan))
          end
      end
  end.

(** *** The composite stitcher (the [combine] branch) *)

Record Dimensions := { dim_width : Z; dim_height : Z }.

(** The first loop of the branch: the size of every image, whether it
    was decoded for it ([preload]), and [combinedWidth].  [None] when
    [loadImageSource] throws. *)
Fixpoint measure (env : Env) (index : nat) (images : list HitomiImageEntry)
    (combinedWidth : Z) : option (list (Dimensions * bool) * Z) :=
  match images with
  | [] => Some ([], combinedWidth)
  | entry :: rest =>
      let width := default 0 (width entry) in
      let height := default 0 (height entry) in
      if (width =? 0) || (height =? 0) then
        match retrieve env index with
        | NoBlob =>
            '(dims, cw) ← measure env (S index) rest combinedWidth;
            Some (({| dim_width := 0; dim_height := 0 |}, false) :: dims, cw)
        | DecodeFails => None
        | Loaded w h =>
            '(dims, cw) ← measure env (S index) rest (Z.max combinedWidth w);
            Some (({| dim_width := w; dim_height := h |}, true) :: dims, cw)
        end
      else
        '(dims, cw) ← measure env (S index) rest (Z.max combinedWidth width);
        Some (({| dim_width := width; dim_height := height |}, false) :: dims, cw)
  end.

(** The constants of one composite. *)
Record Layout := {
  widthScale : Q;
  scaledWidth : Z;
  chunkHeight : Z;
  totalHeight : Q;
  totalChunks : Z
}.

Definition layout (formatConfig : ImageExportConfig)
    (dimensions : list (Dimensions * bool)) (combinedWidth : Z) : Layout :=
  let safeWidth := Z.max 1 (if combinedWidth =? 0 then 1 else combinedWidth) in
  let widthScale :=
    if safeWidth >? maxDimension formatConfig
    then (inject_Z (maxDimension formatConfig) / inject_Z safeWidth)%Q
    else 1%Q in
  let scaledWidth :=
    Z.max 1 (Qfloor (inject_Z safeWidth * widthScale + (1 # 2))%Q) in
  let maxChunkHeight :=
    Z.min (maxDimension formatConfig) (maxPixels formatConfig / scaledWidth) in
  let chunkHeight := Z.max 1 maxChunkHeight in
  let totalHeight :=
    fold_left (fun sum entry => (sum + inject_Z (dim_height entry.1) * widthScale)%Q)
      dimensions 0%Q in
  {| widthScale := widthScale;
     scaledWidth := scaledWidth;
     chunkHeight := chunkHeight;
     totalHeight := totalHeight;
     totalChunks := Z.max 1 (Qceiling (totalHeight / inject_Z chunkHeight)%Q) |}.

(** One call of [ctx.drawImage]: the image, the chunk drawn onto, and
    the source and destination offsets and sizes along the y axis. *)
Record Draw := {
  draw_image_index : nat;
  draw_chunk : Z;
  source_y : Q;
  source_height : Q;
  dest_y : Q;
  dest_height : Q
}.

(** The variables of the drawing loop: [chunkIndex], [chunkYStart],
    [canvas.height], [yCursor]; the heights of the canvases given to
    [flushChunk], the draw calls, and the session outputs. *)
Record Chunks := {
  chunkIndex : Z;
  chunkYStart : Z;
  canvas : Z;
  yCursor : Q;
  flushed : list Z;
  draws : list Draw;
  session : Session
}.

Section Stitching.
Variables (env : Env) (formatConfig : ImageExportConfig)
  (packaging : ImagePackaging) (baseLabel : string) (L : Layout).

(** [openChunk(index)]: the height of the new canvas, [None] without a
    2D context. *)
Definition openChunk (index : Z) : option Z :=
  let remaining := Qmax 0 (totalHeight L - inject_Z (index * chunkHeight L))%Q in
  let height := Z.max 1 (Qceiling (Qmin (inject_Z (chunkHeight L)) remaining)) in
  if has_context env (scaledWidth L) height then Some height else None.

Definition flushChunk (st : Chunks) : Chunks :=
  let suffix :=
    if totalChunks L >? 1
    then "combined-part-" ++ String_of_int (chunkIndex st + 1)
    else "combined" in
  let fileName := baseLabel ++ "-" ++ suffix ++ "." ++ extension formatConfig in
  {| chunkIndex := chunkIndex st;
     chunkYStart := chunkYStart st;
     canvas := canvas st;
     yCursor := yCursor st;
     flushed := (flushed st ++ [canvas st])%list;
     draws := draws st;
     session := if encodes env (scaledWidth L) (canvas st)
                then writeOutput packaging fileName (session st)
                else session st |}.

(** The body of [if (yCursor + 0.5 >= chunkBottom)]: flush, then open
    the next chunk; the handler returns when that has no context. *)
Definition next_chunk (st : Chunks) : Flow Chunks :=
  let st1 := flushChunk st in
  let index := chunkIndex st + 1 in
  match openChunk index with
  | Some height =>
      Continue {| chunkIndex := index;
                  chunkYStart := index * chunkHeight L;
                  canvas := height;
                  yCursor := yCursor st1;
                  flushed := flushed st1;
                  draws := draws st1;
                  session := session st1 |}
  | None =>
      Return {| chunkIndex := index;
                chunkYStart := index * chunkHeight L;
                canvas := 0;
                yCursor := yCursor st1;
                flushed := flushed st1;
                draws := draws st1;
                session := session st1 |}
  end.

(** The loop [while (remainingHeight > 0)] for one image, bounded by
    [fuel] passes.  [chunkBottom] is computed before the chunk may
    change and is not computed again in the same pass. *)
Fixpoint draw_slices (fuel : nat) (index : nat)
    (remainingHeight sourceOffsetY : Q) (st : Chunks) : Flow Chunks :=
  if Qle_bool remainingHeight 0 then Continue st
  else
    match fuel with
    | O => Diverge
    | S fuel' =>
        let chunkBottom := chunkYStart st + canvas st in
        match (if Qle_bool (inject_Z chunkBottom) (yCursor st + (1 # 2))%Q
               then next_chunk st else Continue st) with
        | Continue st1 =>
            let available := (inject_Z chunkBottom - yCursor st1)%Q in
            let sliceHeight := Qmin remainingHeight available in
            let sourceSliceHeight := (sliceHeight / widthScale L)%Q in
            draw_slices fuel' index
              (remainingHeight - sliceHeight)%Q
              (sourceOffsetY + sourceSliceHeight)%Q
              {| chunkIndex := chunkIndex st1;
                 chunkYStart := chunkYStart st1;
                 canvas := canvas st1;
                 yCursor := (yCursor st1 + sliceHeight)%Q;
                 flushed := flushed st1;
                 draws := (draws st1 ++
                           [{| draw_image_index := index;
                               draw_chunk := chunkIndex st1;
                               source_y := sourceOffsetY;
                               source_height := sourceSliceHeight;
                               dest_y := (yCursor st1 - inject_Z (chunkYStart st1))%Q;
                               dest_height := sliceHeight |}])%list;
                 session := session st1 |}
        | other => other
        end
    end.

(** The loop over the images, from [index] on, with their measured
    sizes. *)
Fixpoint draw_each (fuel : nat) (index : nat)
    (dimensions : list (Dimensions * bool)) (st : Chunks) : Flow Chunks :=
  match dimensions with
  | [] => Continue st
  | (dims, preloaded) :: rest =>
      let drawWidth := (inject_Z (dim_width dims) * widthScale L)%Q in
      let drawHeight := (inject_Z (dim_height dims) * widthScale L)%Q in
      if (dim_width dims =? 0) || (dim_height dims =? 0) then
        draw_each fuel (S index) rest st
      else if Qle_bool drawWidth 0 || Qle_bool drawHeight 0 then
        draw_each fuel (S index) rest st
      else
        match (if preloaded then Loaded (dim_width dims) (dim_height dims)
               else retrieve env index) with
        | NoBlob => draw_each fuel (S index) rest st
        | DecodeFails => Throw st
        | Loaded _ _ =>
            match draw_slices fuel index drawHeight 0%Q st with
            | Continue st1 => draw_each fuel (S index) rest st1
            | other => other
            end
        end
  end.

End Stitching.

(** The whole [combine] branch.  It ends with [return] also when all
    went well. *)
Definition combine_images (env : Env) (formatConfig : ImageExportConfig)
    (packaging : ImagePackaging) (baseLabel : string) (fuel : nat)
    (images : list HitomiImageEntry) (s : Session) : Flow Chunks :=
  let idle := {| chunkIndex := 0; chunkYStart := 0; canvas := 0; yCursor := 0%Q;
                 flushed := []; draws := []; session := s |} in
  match measure env 0 images 0 with
  | None => Throw idle
  | Some (dimensions, combinedWidth) =>
      let L := layout formatConfig dimensions combinedWidth in
      if Qle_bool (totalHeight L) 0 then Return idle
      else
        match openChunk env L 0 with
        | None => Return idle
        | Some height =>
            let st := {| chunkIndex := 0; chunkYStart := 0; canvas := height;
                         yCursor := 0%Q; flushed := []; draws := []; session := s |} in
            match draw_each env formatConfig packaging baseLabel L fuel 0 dimensions st with
            | Continue st1 =>
                let st2 := flushChunk env formatConfig packaging baseLabel L st1 in
                Return {| chunkIndex := chunkIndex st2;
                          chunkYStart := chunkYStart st2;
                          canvas := canvas st2;
                          yCursor := yCursor st2;
                          flushed := flushed st2;
                          draws := draws st2;
                          session := finalizeZip packaging baseLabel formatConfig
                                       "combined" (session st2) |}
            | other => other
            end
        end
  end.

(** *** The handler *)

Inductive Toast :=
| ToastError (message : string)
| ToastInfo (message : string)
| ToastSuccess (message : string)
| ToastLoading (id : nat) (message : string)
| ToastDismiss (id : nat).

(** The viewer as far as downloads go: [downloadLockRef.current],
    [isDownloading], the toasts shown and the files saved so far. *)
Record Viewer := {
  downloadLock : bool;
  isDownloading : bool;
  toasts : list Toast;
  saved : list Saved
}.

Definition show (t : Toast) (v : Viewer) : Viewer :=
  {| downloadLock := downloadLock v;
     isDownloading := isDownloading v;
     toasts := (toasts v ++ [t])%list;
     saved := saved v |}.

Definition images_count (images : list HitomiImageEntry) : string :=
  String_of_int (Z.of_nat (length images)).

(** The handler up to its first [await]: the two guards, then the lock
    and the loading toast.  It gives the id of the loading toast when a
    session starts. *)
Definition begin_download (images : list HitomiImageEntry) (v : Viewer)
  : Viewer * option nat :=
  match images with
  | [] => (show (ToastError "No images to download") v, None)
  | _ :: _ =>
      if downloadLock v then (show (ToastInfo "Download already in progress") v, None)
      else
        let toastId := length (toasts v) in
        ({| downloadLock := true;
            isDownloading := true;
            toasts := (toasts v ++
                       [ToastLoading toastId
                          ("Preparing to download " ++ images_count images
                           ++ " images...")])%list;
            saved := saved v |}, Some toastId)
  end.

(** The [try] block. *)
Definition export_session (env : Env) (fuel : nat) (format : ImageExportFormat)
    (packaging : ImagePackaging) (split combine : bool) (baseLabel : string)
    (images : list HitomiImageEntry) : Flow Session :=
  let formatConfig := resolveFormatConfig env format in
  let indexWidth := String.length (images_count images) in
  let s := {| entries := []; downloads := [] |} in
  if combine then
    match combine_images env formatConfig packaging baseLabel fuel images s with
    | Continue st => Continue (session st)
    | Return st => Return (session st)
    | Throw st => Throw (session st)
    | Diverge => Diverge
    end
  else
    match export_each env formatConfig packaging split baseLabel indexWidth 0 images s with
    | Continue s1 => Continue (finalizeZip packaging baseLabel formatConfig "" s1)
    | other => other
    end.

(** What follows the [try] block once it has ended: the success toast
    after a normal end, nothing after a [return], the error toast of
    [catch], and in every case the [finally] block.  [None] for a
    session that does not end. *)
Definition end_download (images : list HitomiImageEntry) (toastId : nat)
    (flow : Flow Session) (v : Viewer) : option Viewer :=
  let finally (s : Session) (ts : list Toast) :=
    Some {| downloadLock := false;
            isDownloading := false;
            toasts := (toasts v ++ ts)%list;
            saved := (saved v ++ downloads s)%list |} in
  match flow with
  | Continue s =>
      finally s [ToastDismiss toastId;
                 ToastSuccess ("Successfully downloaded " ++ images_count images
                               ++ " images!")]
  | Return s => finally s []
  | Throw s =>
      finally s [ToastDismiss toastId;
                 ToastError "Download failed. Please try again."]
  | Diverge => None
  end.

(** A download request that runs to its end with nothing in between. *)
Definition handleDownloadImages (env : Env) (fuel : nat) (format : ImageExportFormat)
    (packaging : ImagePackaging) (split combine : bool) (baseLabel : string)
    (images : list HitomiImageEntry) (v : Viewer) : option Viewer :=
  match begin_download images v with
  | (v1, None) => Some v1
  | (v1, Some toastId) =>
      end_download images toastId
        (export_session env fuel format packaging split combine baseLabel images) v1
  end.

(** [handleSavePdf] takes the same lock: its guards, up to its first
    [await], and its [finally] block. *)
Definition begin_save_pdf (images : list HitomiImageEntry) (v : Viewer)
  : Viewer * bool :=
  match images with
  | [] => (show (ToastError "No images to print") v, false)
  | _ :: _ =>
      if downloadLock v then (show (ToastInfo "Download already in progress") v, false)
      else
        ({| downloadLock := true;
            isDownloading := true;
            toasts := (toasts v ++ [ToastInfo "Opening print dialog..."])%list;
            saved := saved v |}, true)
  end.

Definition end_save_pdf (v : Viewer) : Viewer :=
  {| downloadLock := false;
     isDownloading := false;
     toasts := toasts v;
     saved := saved v |}.

End ImageExport.

(** ** More string methods *)
Module Text.
Import JsString.
Local Open Scope string_scope.
Local Open Scope Z_scope.

(** [s.trim()]: the white space of [trim] is the class [\s]. *)
Fixpoint trim_end (s : string) : string :=
  match s with
  | String c s' =>
      match trim_end s' with
      | EmptyString => if is_space c then EmptyString else String c EmptyString
      | r => String c r
      end
  | EmptyString => EmptyString
  end.

Definition trim (s : string) : string := trim_end (skip_ws s).

(** [s.replace(/[...]+/g, replacement)] for a character class [f]: every
    maximal run of characters of the class becomes one [replacement].
    [in_run] tells that the character before was of the class. *)
Fixpoint replace_runs (f : ascii → bool) (replacement : string) (in_run : bool)
    (s : string) : string :=
  match s with
  | String c s' =>
      if f c then
        (if in_run then EmptyString else replacement)
        ++ replace_runs f replacement true s'
      else String c (replace_runs f replacement false s')
  | EmptyString => EmptyString
  end.

(** [s.startsWith(p)] *)
Definition startsWith (p s : string) : bool :=
  match strip_prefix p s with
  | Some _ => true
  | None => false
  end.

(** [s.endsWith(suffix)] *)
Fixpoint endsWith (suffix s : string) : bool :=
  String.eqb s suffix
  || match s with
     | String _ s' => endsWith suffix s'
     | EmptyString => false
     end.

(** [s.includes(c)] for a single character. *)
Fixpoint includes (c : ascii) (s : string) : bool :=
  match s with
  | String x s' => Ascii.eqb x c || includes c s'
  | EmptyString => false
  end.

(** [s.split(sep)] for a single character; [cur] is the part read so
    far. *)
Fixpoint split_on (sep : ascii) (cur s : string) : list string :=
  match s with
  | String c s' =>
      if Ascii.eqb c sep then cur :: split_on sep EmptyString s'
      else split_on sep (cur ++ String c EmptyString) s'
  | EmptyString => [cur]
  end.

(** [parseInt(s, 10)]; [None] is [NaN]. *)
Definition parseInt10 (s : string) : option Z :=
  let s1 := skip_ws s in
  let '(sign, s2) :=
    match s1 with
    | String c r => if Ascii.eqb c "-" then (-1, r)
                    else if Ascii.eqb c "+" then (1, r) else (1, s1)
    | EmptyString => (1, s1)
    end in
  match take_while is_digit s2 with
  | EmptyString => None
  | d => Some (sign * Number_digits d)
  end.

End Text.

(** ** Downloads and print documents ([app/lib/download.ts]) *)
Module Download.
Import JsString Text.
Local Open Scope string_scope.
Local Open Scope Z_scope.

(** The callback of [escapeHtml] for one matched character; characters
    outside the pattern stay as they are. *)
Definition escape_char (c : ascii) : string :=
  if Ascii.eqb c "&" then "&amp;"
  else if Ascii.eqb c "<" then "&lt;"
  else if Ascii.eqb c ">" then "&gt;"
  else if code c =? 34 then "&quot;"
  else if code c =? 39 then "&#39;"
  else String c EmptyString.

Fixpoint escapeHtml (value : string) : string :=
  match value with
  | String c s => escape_char c ++ escapeHtml s
  | EmptyString => EmptyString
  end.

Definition escapeForHtml : string → string := escapeHtml.

Definition ensureExtension (name extension : string) : string :=
  let trimmed := trim name in
  match trimmed with
  | EmptyString => "document." ++ extension
  | _ =>
      let lower := toLowerCase trimmed in
      if endsWith ("." ++ extension) lower then trimmed
      else if includes "." trimmed then trimmed
      else trimmed ++ "." ++ extension
  end.

End Download.

(** ** The image proxy route ([/api/hitomi-image]) *)
Module ImageProxy.
Import JsString Text.
Local Open Scope string_scope.
Local Open Scope Z_scope.

Definition ALLOWED_HOST : string := "gold-usergeneratedcontent.net".

Definition isPrivateIP (hostname : string) : bool :=
  if String.eqb hostname "localhost" || String.eqb hostname "127.0.0.1" then true
  else if startsWith "192.168." hostname then true
  else if startsWith "10." hostname then true
  else if startsWith "172." hostname
          && match parseInt10 (match default EmptyString (split_on "." "" hostname !! 1%nat) with
                               | EmptyString => "0"
                               | part => part
                               end) with
             | Some second => (16 <=? second) && (second <=? 31)
             | None => false
             end
       then true
  else if startsWith "169.254." hostname then true
  else if startsWith "::1" hostname || String.eqb hostname "::" then true
  else if startsWith "fc" hostname || startsWith "fd" hostname then true
  else false.

Definition isAllowedHost (hostname : string) : bool :=
  String.eqb hostname ALLOWED_HOST || endsWith ("." ++ ALLOWED_HOST) hostname.

(** [gid] is [None] for [null]. *)
Definition validateGalleryId (gid : option string) : option string :=
  match gid with
  | None | Some EmptyString => None
  | Some gid =>
      let cleaned := trim gid in
      match cleaned, drop_while is_digit cleaned with
      | String _ _, EmptyString =>
          if (20 <? String.length cleaned)%nat then None else Some cleaned
      | _, _ => None
      end
  end.

(** The [Referer] header the route sends for the [gid] parameter. *)
Definition referer (gid : option string) : string :=
  match validateGalleryId gid with
  | Some (String c s) => "https://hitomi.la/reader/" ++ String c s ++ ".html"
  | _ => "https://hitomi.la/"
  end.

End ImageProxy.

(** ** The gallery viewer around the export ([hitomi-viewer.tsx]) *)
Module GalleryViewer.
Import JsString Text Hitomi.
Local Open Scope string_scope.
Local Open Scope Z_scope.

(** *** File names *)

(** The class of the first pattern of [sanitizeFileName]: backslash,
    slash, colon, asterisk, question mark, double quote, angle brackets
    and the vertical bar. *)
Definition forbidden (c : ascii) : bool :=
  (code c =? 92) || (code c =? 47) || (code c =? 58) || (code c =? 42)
  || (code c =? 63) || (code c =? 34) || (code c =? 60) || (code c =? 62)
  || (code c =? 124).

Definition sanitizeFileName (value : string) : string :=
  trim (replace_runs is_space " " false (replace_runs forbidden "-" false value)).

(** [baseLabel] of [handleDownloadImages]; [documentLabel] is [None]
    when the property is not given. *)
Definition baseLabel (documentLabel : option string) (galleryId : string) : string :=
  let baseLabelRaw :=
    match documentLabel with
    | Some (String c label) => String c label
    | _ => "hitomi-" ++ galleryId
    end in
  match sanitizeFileName baseLabelRaw with
  | EmptyString => "hitomi-" ++ galleryId
  | label => label
  end.

(** *** Retrieving an image *)

(** What one [fetch(source)] gives: a rejection, or a response with its
    [ok] flag and what [response.blob()] resolves to ([None] when it
    rejects). *)
Inductive FetchResult (Blob : Type) :=
| Rejects
| Responds (ok : bool) (blob : option Blob).
Arguments Rejects {Blob}.
Arguments Responds {Blob} ok blob.

(** [fetchImageBlob(sources)], [fetch attempt source] being the result
    of the request number [attempt]: the requests made, in order, and
    the blob returned. *)
Fixpoint fetchImageBlob {Blob} (fetch : nat → string → FetchResult Blob)
    (attempt : nat) (sources : list string) : list string * option Blob :=
  match sources with
  | [] => ([], None)
  | source :: rest =>
      match fetch attempt source with
      | Responds true (Some blob) => ([source], Some blob)
      | _ =>
          let '(requests, blob) := fetchImageBlob fetch (S attempt) rest in
          (source :: requests, blob)
      end
  end.

(** *** The source the print document uses *)
Section PreferredSource.
Variable getSourceExtension : string → string.

(** [sources.find(...)] for one extension, followed by [if (match)]. *)
Definition find_extension (ext : string) (sources : list string) : option string :=
  match list_find (fun source => getSourceExtension source = ext) sources with
  | Some (_, String c s) => Some (String c s)
  | _ => None
  end.

Fixpoint first_preferred (preference : list string) (sources : list string)
  : option string :=
  match preference with
  | [] => None
  | ext :: rest =>
      match find_extension ext sources with
      | Some found => Some found
      | None => first_preferred rest sources
      end
  end.

Definition pickPreferredSource (sources : list string) : string :=
  match sources with
  | [] => EmptyString
  | _ =>
      match first_preferred ["jpg"; "jpeg"; "png"; "webp"; "avif"] sources with
      | Some found => found
      | None => default EmptyString (last sources)
      end
  end.

End PreferredSource.

(** *** The list of images *)

(** [encodeURIComponent] on code units below 256: the unreserved
    characters stay, the others become the bytes of their UTF-8 form,
    each as a percent sign and two upper-case hexadecimal digits. *)
Definition is_unreserved (c : ascii) : bool :=
  ((48 <=? code c) && (code c <=? 57))
  || ((65 <=? code c) && (code c <=? 90))
  || ((97 <=? code c) && (code c <=? 122))
  || (code c =? 45) || (code c =? 95) || (code c =? 46) || (code c =? 33)
  || (code c =? 126) || (code c =? 42) || (code c =? 39) || (code c =? 40)
  || (code c =? 41).

Definition hex_upper (n : Z) : ascii :=
  ascii_of_N (Z.to_N (if n <? 10 then 48 + n else 55 + n)).

Definition percent (byte : Z) : string :=
  String "%" (String (hex_upper (byte / 16)) (String (hex_upper (byte mod 16)) EmptyString)).

Definition encode_unit (c : ascii) : string :=
  if is_unreserved c then String c EmptyString
  else if code c <? 128 then percent (code c)
  else percent (192 + code c / 64) ++ percent (128 + code c mod 64).

Fixpoint encodeURIComponent (s : string) : string :=
  match s with
  | String c s' => encode_unit c ++ encodeURIComponent s'
  | EmptyString => EmptyString
  end.

(** [Array.from(new Set(l))]: the first occurrence of every element, in
    order; [seen] are the elements already in the set. *)
Fixpoint dedupe (seen : list string) (l : list string) : list string :=
  match l with
  | [] => []
  | x :: rest =>
      if decide (x ∈ seen) then dedupe seen rest else x :: dedupe (x :: seen) rest
  end.

Definition proxied (galleryId remoteUrl : string) : string :=
  "/api/hitomi-image?url=" ++ encodeURIComponent remoteUrl
  ++ "&gid=" ++ encodeURIComponent galleryId.

(** A declared size counts when it is a positive number. *)
Definition declared (size : option Z) : option Z :=
  match size with
  | Some n => if 0 <? n then Some n else None
  | None => None
  end.

(** The callback of [files.map] in the [images] memo; [None] is its
    [null]. *)
Definition image_entry (galleryId : string) (documentLabel : option string)
    (serverMap : HitomiServerMap) (index : nat) (file : HitomiFile)
  : option ImageExport.HitomiImageEntry :=
  let variants := getHitomiImageVariants file in
  let remote :=
    omap (fun variant =>
            match resolveHitomiImageUrl file serverMap (Some variant) with
            | Some (String c url) => Some (String c url)
            | _ => None
            end) variants in
  let sources := dedupe [] (proxied galleryId <$> remote) in
  match sources with
  | [] => None
  | _ =>
      Some {| ImageExport.sources := sources;
              ImageExport.alt :=
                match documentLabel with
                | Some (String c label) => String c label
                | _ => "Hitomi"
                end ++ " page " ++ String_of_int (Z.of_nat index + 1);
              ImageExport.width := declared (Hitomi.width file);
              ImageExport.height := declared (Hitomi.height file) |}
  end.

(** The [images] memo: [files] is [galleryInfo.files] ([None] without
    gallery info or without the field), [serverMap] the server map
    ([None] while it is not loaded). *)
Definition images (galleryId : string) (documentLabel : option string)
    (files : option (list HitomiFile)) (serverMap : option HitomiServerMap)
  : list ImageExport.HitomiImageEntry :=
  match serverMap with
  | None => []
  | Some serverMap =>
      omap id (imap (image_entry galleryId documentLabel serverMap)
                 (default [] files))
  end.

(** *** Groups of pages *)

(** The loop [for (i = 0; i < images.length; i += pagesPerView)] from
    [i] on, bounded by [fuel] passes. *)
Fixpoint group_loop {A} (fuel : nat) (i pagesPerView : nat) (images : list A)
  : option (list (list A)) :=
  if (i <? length images)%nat then
    match fuel with
    | O => None
    | S fuel' =>
        (fun groups => take pagesPerView (drop i images) :: groups)
        <$> group_loop fuel' (i + pagesPerView) pagesPerView images
    end
  else Some [].

(** The [imageGroups] memo; as many passes as there are images are
    allowed, enough for a positive [pagesPerView]. *)
Definition imageGroups {A} (images : list A) (pagesPerView : nat)
  : option (list (list A)) :=
  if (pagesPerView =? 1)%nat then Some ((fun image => [image]) <$> images)
  else group_loop (length images) 0 pagesPerView images.

(** [scrollToGroup(index)] with every group mounted: the new
    [activeGroupIndex], [None] when nothing is scrolled. *)
Definition scrollToGroup (groups : Z) (index : Z) : option Z :=
  if groups =? 0 then None
  else Some (Z.max 0 (Z.min index (groups - 1))).

(** [startPage]: the [page] property when it is a positive number. *)
Definition startPage (page : option Z) : option Z :=
  match page with
  | Some p => if 0 <? p then Some p else None
  | None => None
  end.

(** The effect that scrolls to the start page: the group it makes
    active. *)
Definition start_group (page : option Z) (imageCount groupCount pagesPerView : Z)
  : option Z :=
  match startPage page with
  | None => None
  | Some startPage =>
      if groupCount =? 0 then None
      else
        let maxPage := imageCount in
        let safePage := Z.min startPage (if maxPage =? 0 then startPage else maxPage) in
        let groupIndex := Z.max 0 ((safePage - 1) / pagesPerView) in
        scrollToGroup groupCount groupIndex
  end.

Definition goToNext (groups activeGroupIndex : Z) : option Z :=
  if groups =? 0 then None else scrollToGroup groups (activeGroupIndex + 1).

Definition goToPrevious (groups activeGroupIndex : Z) : option Z :=
  if groups =? 0 then None else scrollToGroup groups (activeGroupIndex - 1).

(** *** One page ([HitomiImage]) *)

Record ImageState := {
  failed : bool;
  activeIndex : nat;
  loaded : bool
}.

Definition initial_image : ImageState :=
  {| failed := false; activeIndex := 0; loaded := false |}.

Definition src (sources : list string) (st : ImageState) : string :=
  default EmptyString (sources !! activeIndex st).

(** The [img] element is rendered, not the notice. *)
Definition renders_image (sources : list string) (st : ImageState) : bool :=
  negb (failed st) && negb (String.eqb (src sources st) EmptyString).

(** [onError], and the effect on [src] that follows a change of
    source. *)
Definition onError (sources : list string) (st : ImageState) : ImageState :=
  if Z.of_nat (activeIndex st) <? Z.of_nat (length sources) - 1 then
    let next := {| failed := failed st; activeIndex := S (activeIndex st);
                   loaded := loaded st |} in
    {| failed := failed st;
       activeIndex := S (activeIndex st);
       loaded := if String.eqb (src sources next) (src sources st)
                 then loaded st else false |}
  else {| failed := true; activeIndex := activeIndex st; loaded := loaded st |}.

Definition onLoad (st : ImageState) : ImageState :=
  {| failed := failed st; activeIndex := activeIndex st; loaded := true |}.

End GalleryViewer.

(** ** The print document ([handleSavePdf]) *)
Module PrintDocument.
Import JsString Download GalleryViewer.
Local Open Scope string_scope.
Local Open Scope Z_scope.

(** The double quote that delimits attribute values. *)
Definition quote : string := String (ascii_of_nat 34) EmptyString.

Section Body.
Variable getSourceExtension : string → string.

(** The text given to [escapeForHtml] for the [alt] attribute. *)
Definition alt_text (image : ImageExport.HitomiImageEntry) (index : nat) : string :=
  match ImageExport.alt image with
  | EmptyString => "Page " ++ String_of_int (Z.of_nat index + 1)
  | alt => alt
  end.

(** The markup of one page: the callback of [images.map]. *)
Definition figure (index : nat) (image : ImageExport.HitomiImageEntry) : string :=
  let src := pickPreferredSource getSourceExtension (ImageExport.sources image) in
  let alt := escapeForHtml (alt_text image index) in
  "<figure class=" ++ quote ++ "hitomi-page" ++ quote ++ "><img src=" ++ quote
  ++ src ++ quote ++ " alt=" ++ quote ++ alt ++ quote
  ++ " /><figcaption>Page " ++ String_of_int (Z.of_nat index + 1)
  ++ "</figcaption></figure>".

Definition bodyHtml (images : list ImageExport.HitomiImageEntry) : string :=
  foldr append EmptyString (imap figure images).

End Body.

(** The escaped title of the document. *)
Definition safeTitle (documentLabel : option string) (galleryId : string) : string :=
  escapeForHtml match documentLabel with
                | Some (String c label) => String c label
                | _ => "Hitomi " ++ galleryId
                end.

End PrintDocument.

(** * Vocabulary of the statements *)

(** ** Tile planner *)

(** What every pass of the loop of [resolveTilePlan] keeps: the tile
    sizes are the ceilings for the current counts, and the counts only
    grow, within bounds given by the image size. *)
Definition plan_ok (width height : Z) (limits : ImageExportConfig)
    (p : TilePlanner.TilePlan) : Prop :=
  p = TilePlanner.plan_at width height (TilePlanner.cols p) (TilePlanner.rows p)
  ∧ Z.max 1 (ceil_div width (maxDimension limits)) ≤ TilePlanner.cols p
    ≤ Z.abs width + 1
  ∧ Z.max 1 (ceil_div height (maxDimension limits)) ≤ TilePlanner.rows p
    ≤ Z.abs height + 1.

Definition loop_cond (limits : ImageExportConfig) (p : TilePlanner.TilePlan) : Prop :=
  TilePlanner.tileWidth p * TilePlanner.tileHeight p > maxPixels limits.

Definition plan_measure (width height : Z) (p : TilePlanner.TilePlan) : nat :=
  Z.to_nat ((Z.abs width + 1 - TilePlanner.cols p)
            + (Z.abs height + 1 - TilePlanner.rows p)).

(** A grid is exact for the image when it covers it and its last
    column and last row still start inside it. *)
Definition exact_grid (width height : Z) (plan : TilePlanner.TilePlan) : Prop :=
  0 < TilePlanner.tileWidth plan ∧ 0 < TilePlanner.tileHeight plan
  ∧ (TilePlanner.cols plan - 1) * TilePlanner.tileWidth plan < width
    ≤ TilePlanner.cols plan * TilePlanner.tileWidth plan
  ∧ (TilePlanner.rows plan - 1) * TilePlanner.tileHeight plan < height
    ≤ TilePlanner.rows plan * TilePlanner.tileHeight plan.

(** While the loop runs, a count may be one it is about to pass: the
    last column (or row) may lie outside the image only for the side
    that the next pass will divide again. *)
Definition grid_settling (width height : Z) (limits : ImageExportConfig)
    (p : TilePlanner.TilePlan) : Prop :=
  plan_ok width height limits p
  ∧ ((TilePlanner.cols p - 1) * TilePlanner.tileWidth p < width
     ∨ (loop_cond limits p ∧ TilePlanner.tileHeight p ≤ TilePlanner.tileWidth p))
  ∧ ((TilePlanner.rows p - 1) * TilePlanner.tileHeight p < height
     ∨ (loop_cond limits p ∧ TilePlanner.tileWidth p < TilePlanner.tileHeight p)).

Definition png_config : ImageExportConfig :=
  ImageExport.IMAGE_EXPORT_CONFIG ImageExport.png.

(** ** Server map *)

Definition case_key (m : string * option string) : Z := JsString.Number_digits m.1.
Definition if_key (m : string * string) : Z := JsString.Number_digits m.1.
Definition label (k : string) : string * option string := (k, None).

(** A routing script with one run of three case labels. *)
Definition gg_payload : string :=
  "gg = { m: function(g) { var o = 0; switch (g) { case 1: case 2: case 3: o = 5; break; } return o; }, b: '1700000000/' };".

(** The same script with an [if] override for bucket 2. *)
Definition gg_payload_override : string :=
  "gg = { m: function(g) { var o = 0; switch (g) { case 1: case 2: case 3: o = 5; break; } if (g === 2) o = 9; return o; }, b: '1700000000/' };".

(** A file whose hash ends in the three characters of [tail]. *)
Definition webp_file (tail : string) : Hitomi.HitomiFile :=
  {| Hitomi.name := Some "001.jpg"%string;
     Hitomi.hash := Some ("e3b0c44298fc1c149afbf4c8996fb924" ++ tail)%string;
     Hitomi.haswebp := true; Hitomi.hasavif := false;
     Hitomi.width := None; Hitomi.height := None |}.

(** The URL of [file] under the server map parsed from [payload]. *)
Definition url_under (payload : string) (file : Hitomi.HitomiFile) : option string :=
  serverMap ← Hitomi.parseServerMap payload;
  Hitomi.resolveHitomiImageUrl file serverMap None.

(** ** Composite stitcher *)

Definition sum_heights (l : list Z) : Z := foldr Z.add 0 l.

Definition heights (dimensions : list (ImageExport.Dimensions * bool)) : list Z :=
  (fun e => ImageExport.dim_height e.1) <$> dimensions.

(** An image the drawing loop handles in full: it has no size (it could
    not be retrieved when it was measured) and counts for nothing, or
    it has a size and is at hand, decoded when it was measured or
    retrieved now. *)
Definition drawable (env : ImageExport.Env) (index : nat)
    (e : ImageExport.Dimensions * bool) : Prop :=
  (ImageExport.dim_width e.1 = 0 ∧ ImageExport.dim_height e.1 = 0)
  ∨ (0 < ImageExport.dim_width e.1 ∧ 0 < ImageExport.dim_height e.1
     ∧ (e.2 = true ∨ ∃ w h, ImageExport.retrieve env index = ImageExport.Loaded w h)).

(** The state of the drawing loop when everything so far was drawn at
    integer positions, [y] being the cursor and [T] the total height:
    the open canvas is the chunk that holds row [y] (or ends at it),
    and the canvases flushed so far are the full chunks before it. *)
Definition chunks_ok (L : ImageExport.Layout) (T : Z) (st : ImageExport.Chunks)
    (y : Z) : Prop :=
  ImageExport.yCursor st = inject_Z y
  ∧ 0 ≤ ImageExport.chunkIndex st
  ∧ ImageExport.chunkYStart st = ImageExport.chunkIndex st * ImageExport.chunkHeight L
  ∧ ImageExport.canvas st
    = Z.min (ImageExport.chunkHeight L) (T - ImageExport.chunkYStart st)
  ∧ 1 ≤ ImageExport.canvas st
  ∧ ImageExport.chunkYStart st ≤ y ≤ ImageExport.chunkYStart st + ImageExport.canvas st
  ∧ sum_heights (ImageExport.flushed st) = ImageExport.chunkYStart st
  ∧ Forall (fun h => 0 < h ≤ ImageExport.chunkHeight L) (ImageExport.flushed st).

(** The draw [d] puts the rows [a, b) of the composite, whose chunks
    are [H] high and which is [T] high in all: the rows lie in the
    canvas of chunk [draw_chunk d], at [dest_y d], and are the rows
    [a - start, b - start) of the image drawn, [start] being the row of
    the composite where that image begins ([hs] are the heights of the
    images). *)
Definition piece (hs : list Z) (H T : Z) (d : ImageExport.Draw) (a b : Z) : Prop :=
  let start := sum_heights (take (ImageExport.draw_image_index d) hs) in
  a ≤ b ≤ T
  ∧ 0 ≤ ImageExport.draw_chunk d
  ∧ ImageExport.draw_chunk d * H ≤ a
  ∧ b ≤ ImageExport.draw_chunk d * H + H
  ∧ ImageExport.dest_y d = inject_Z (a - ImageExport.draw_chunk d * H)
  ∧ ImageExport.dest_height d = inject_Z (b - a)
  ∧ start ≤ a
  ∧ (∃ h, hs !! ImageExport.draw_image_index d = Some h ∧ b ≤ start + h)
  ∧ ImageExport.source_y d = inject_Z (a - start)
  ∧ ImageExport.source_height d = inject_Z (b - a).

(** The draws [ds], in order, put the rows [a, b) of the composite, one
    piece after the other. *)
Fixpoint tiled (hs : list Z) (H T : Z) (ds : list ImageExport.Draw) (a b : Z) : Prop :=
  match ds with
  | [] => a = b
  | d :: ds' => ∃ m, piece hs H T d a m ∧ tiled hs H T ds' m b
  end.

(** An environment in which every image decodes to [w] by [h] pixels,
    and canvases and the encoder never fail. *)
Definition all_load (w h : Z) : ImageExport.Env :=
  {| ImageExport.supports := fun _ => true;
     ImageExport.retrieve := fun _ => ImageExport.Loaded w h;
     ImageExport.has_context := fun _ _ => true;
     ImageExport.encodes := fun _ _ => true |}.

(** A gallery page with declared width and height. *)
Definition sized (w h : Z) : ImageExport.HitomiImageEntry :=
  {| ImageExport.sources := []; ImageExport.alt := "page";
     ImageExport.width := Some w; ImageExport.height := Some h |}.

Definition limits_6000 : ImageExportConfig :=
  {| mime := "image/png"; extension := "png";
     maxDimension := 6000; maxPixels := 268435456 |}.

Definition no_output : ImageExport.Session :=
  {| ImageExport.entries := []; ImageExport.downloads := [] |}.

(** The heights of the chunk canvases of a [combine] run that returned. *)
Definition returned_canvases (flow : ImageExport.Flow ImageExport.Chunks)
  : option (list Z) :=
  match flow with
  | ImageExport.Return st => Some (ImageExport.flushed st)
  | _ => None
  end.

(** ** Download handler *)

(** The toasts a session adds when it ends. *)
Definition closing_toasts (images : list ImageExport.HitomiImageEntry) (toastId : nat)
    (flow : ImageExport.Flow ImageExport.Session) : list ImageExport.Toast :=
  match flow with
  | ImageExport.Continue _ =>
      [ImageExport.ToastDismiss toastId;
       ImageExport.ToastSuccess
         ("Successfully downloaded " ++ ImageExport.images_count images
          ++ " images!")%string]
  | ImageExport.Throw _ =>
      [ImageExport.ToastDismiss toastId;
       ImageExport.ToastError "Download failed. Please try again."]
  | _ => []
  end.

(** Five pages of which the third cannot be retrieved. *)
Definition third_fails : ImageExport.Env :=
  {| ImageExport.supports := fun _ => true;
     ImageExport.retrieve :=
       fun index => if (index =? 2)%nat then ImageExport.NoBlob
                    else ImageExport.Loaded 800 1200;
     ImageExport.has_context := fun _ _ => true;
     ImageExport.encodes := fun _ _ => true |}.

(** No page can be retrieved. *)
Definition all_fail : ImageExport.Env :=
  {| ImageExport.supports := fun _ => true;
     ImageExport.retrieve := fun _ => ImageExport.NoBlob;
     ImageExport.has_context := fun _ _ => true;
     ImageExport.encodes := fun _ _ => true |}.

Definition page : ImageExport.HitomiImageEntry :=
  {| ImageExport.sources := []; ImageExport.alt := "page";
     ImageExport.width := None; ImageExport.height := None |}.

Definition idle_viewer : ImageExport.Viewer :=
  {| ImageExport.downloadLock := false; ImageExport.isDownloading := false;
     ImageExport.toasts := []; ImageExport.saved := [] |}.

(** A map whose keys and values are all natural numbers. *)
Definition natural_map (m : gmap Z Z) : Prop :=
  map_Forall (fun k v => 0 ≤ k ∧ 0 ≤ v) m.

(** A run of [n] slashes. *)
Fixpoint slashes (n : nat) : string :=
  match n with
  | O => EmptyString
  | S n' => String "/" (slashes n')
  end.

(** ** Sessions *)

(** A property of the state a stretch of the handler ends in, however
    it ends. *)
Definition ending {S : Type} (P : S → Prop) (flow : ImageExport.Flow S) : Prop :=
  match flow with
  | ImageExport.Continue s | ImageExport.Return s | ImageExport.Throw s => P s
  | ImageExport.Diverge => True
  end.

(** A session with [zip] packaging before the archive is made: nothing
    was handed to [triggerDownload], and the entry names are the keys
    of an object, each once. *)
Definition zip_pending (s : ImageExport.Session) : Prop :=
  ImageExport.downloads s = [] ∧ NoDup (ImageExport.entries s).

(** Nothing, or one archive that is not empty and holds every name once. *)
Definition one_archive (new : list ImageExport.Saved) : Prop :=
  new = []
  ∨ ∃ zipName names,
      new = [ImageExport.SavedZip zipName names] ∧ names ≠ [] ∧ NoDup names.

(** The heights of the canvases flushed so far lie between 1 and [H]. *)
Definition canvases_within (H : Z) (st : ImageExport.Chunks) : Prop :=
  Forall (fun h => 1 ≤ h ≤ H) (ImageExport.flushed st).

(** ** Texts *)

(** Every character of [s] passes the test [f]. *)
Fixpoint every (f : ascii → bool) (s : string) : bool :=
  match s with
  | String c s' => f c && every f s'
  | EmptyString => true
  end.

(** The characters [escapeHtml] replaces. *)
Definition html_special (c : ascii) : bool :=
  Ascii.eqb c "&" || Ascii.eqb c "<" || Ascii.eqb c ">"
  || (JsString.code c =? 34) || (JsString.code c =? 39).

(** The characters that open or close a tag or an attribute value. *)
Definition html_delimiter (c : ascii) : bool :=
  Ascii.eqb c "<" || Ascii.eqb c ">"
  || (JsString.code c =? 34) || (JsString.code c =? 39).

Definition lower_letter (c : ascii) : bool :=
  (97 <=? JsString.code c) && (JsString.code c <=? 122).

(** ** File names *)

Definition not_forbidden (c : ascii) : bool := negb (GalleryViewer.forbidden c).

(** The first character, if any, is no white space. *)
Definition starts_clean (s : string) : bool :=
  match s with
  | String c _ => negb (JsString.is_space c)
  | EmptyString => true
  end.

(** Every white space character is a space that is followed by
    a character ([last] tells whether the end of the text counts as
    one), and that character is no white space. *)
Fixpoint spaced (last : bool) (s : string) : bool :=
  match s with
  | String c s' =>
      (if JsString.is_space c
       then (JsString.code c =? 32)
            && match s' with
               | String _ _ => starts_clean s'
               | EmptyString => last
               end
       else true)
      && spaced last s'
  | EmptyString => true
  end.

(** A tidy file name: none of the forbidden characters, no white space
    at either end, and inside only single spaces. *)
Definition tidy (s : string) : bool :=
  every not_forbidden s && starts_clean s && spaced false s.

(** ** Retrieval *)

(** The blob a request gives to [fetchImageBlob], if it gives one. *)
Definition delivered {Blob} (result : GalleryViewer.FetchResult Blob) : option Blob :=
  match result with
  | GalleryViewer.Responds true (Some blob) => Some blob
  | _ => None
  end.

(** The extensions [pickPreferredSource] looks for, in its order. *)
Definition preference : list string := ["jpg"; "jpeg"; "png"; "webp"; "avif"]%string.

(** No source has the extension [ext]. *)
Definition absent (getSourceExtension : string → string) (sources : list string)
    (ext : string) : Prop :=
  ∀ source, source ∈ sources → getSourceExtension source ≠ ext.

(** What follows the last dot, in lower case: a stand-in for
    [getSourceExtension] on plain file names. *)
Definition name_extension (source : string) : string :=
  JsString.toLowerCase (JsString.split_dot_pop EmptyString source).

(** ** The list of images *)

(** The bucket of a file, when its hash gives one. *)
Definition file_bucket (file : Hitomi.HitomiFile) : option Z :=
  Hitomi.hash file ≫= Hitomi.resolveHashNumber.

(** An entry of the [images] memo as the viewer relies on it: one to
    three sources, all different, each the proxied form of the URL of a
    variant of [file], and declared sizes that are positive. *)
Definition sound_entry (galleryId : string) (serverMap : Hitomi.HitomiServerMap)
    (file : Hitomi.HitomiFile) (entry : ImageExport.HitomiImageEntry) : Prop :=
  (1 ≤ length (ImageExport.sources entry) ≤ 3)%nat
  ∧ NoDup (ImageExport.sources entry)
  ∧ (∀ source, source ∈ ImageExport.sources entry →
       ∃ variant remoteUrl,
         variant ∈ Hitomi.getHitomiImageVariants file
         ∧ Hitomi.resolveHitomiImageUrl file serverMap (Some variant) = Some remoteUrl
         ∧ source = GalleryViewer.proxied galleryId remoteUrl)
  ∧ (∀ w, ImageExport.width entry = Some w → 0 < w)
  ∧ (∀ h, ImageExport.height entry = Some h → 0 < h).

(** ** Pages and groups *)

(** The groups are the images cut into runs of [pagesPerView], the last
    run possibly shorter. *)
Definition groups_of {A} (images : list A) (pagesPerView : nat)
    (groups : list (list A)) : Prop :=
  concat groups = images
  ∧ Forall (fun group => (1 ≤ length group ≤ pagesPerView)%nat) groups
  ∧ (∀ k group, groups !! k = Some group →
       group = take pagesPerView (drop (k * pagesPerView) images))
  ∧ (length images ≤ length groups * pagesPerView < length images + pagesPerView)%nat.

(** The state of a page after [k] load errors in a row. *)
Definition after_errors (sources : list string) (k : nat) : GalleryViewer.ImageState :=
  Nat.iter k (GalleryViewer.onError sources) GalleryViewer.initial_image.

(** ** Names of the exported files *)

(** The suffix of a tile's file name in the split loop. *)
Definition tile_suffix (plan : TilePlanner.TilePlan) (row col : Z) : string :=
  if (TilePlanner.cols plan >? 1) || (TilePlanner.rows plan >? 1)
  then ("-part-" ++ JsString.String_of_int (row + 1) ++ "-"
        ++ JsString.String_of_int (col + 1))%string
  else EmptyString.

(** The file name of the tile at [(row, col)] of [images[index]]. *)
Definition tile_name (baseLabel : string) (indexWidth : nat) (ext : string)
    (plan : TilePlanner.TilePlan) (index : nat) (row col : Z) : string :=
  (baseLabel ++ "-" ++ ImageExport.padIndex indexWidth (Z.of_nat index + 1)
   ++ tile_suffix plan row col ++ "." ++ ext)%string.

(** The file name [flushChunk] gives to chunk [chunkIndex]. *)
Definition chunk_name (baseLabel ext : string) (L : ImageExport.Layout)
    (chunkIndex : Z) : string :=
  (baseLabel ++ "-"
   ++ (if ImageExport.totalChunks L >? 1
       then "combined-part-" ++ JsString.String_of_int (chunkIndex + 1)
       else "combined")
   ++ "." ++ ext)%string.

(** Two images 32768 pixels wide, 5 and 1 pixels high: exported as PNG
    they are scaled by one half, to the heights 5/2 and 1/2. *)
Definition two_wide : ImageExport.Env :=
  {| ImageExport.supports := fun _ => true;
     ImageExport.retrieve :=
       fun index => if (index =? 0)%nat then ImageExport.Loaded 32768 5
                    else ImageExport.Loaded 32768 1;
     ImageExport.has_context := fun _ _ => true;
     ImageExport.encodes := fun _ _ => true |}.

(** ** Host names *)

(** The text is empty or begins with a character that is no digit. *)
Definition starts_clean_digit (s : string) : bool :=
  match s with
  | String c _ => negb (JsString.is_digit c)
  | EmptyString => true
  end.

(** ** Attribute values *)

(** A character that cannot end a double-quoted attribute value or
    open or close a tag. *)
Definition attribute_safe (c : ascii) : bool :=
  negb ((JsString.code c =? 34) || Ascii.eqb c "<" || Ascii.eqb c ">").

(** A character of an encoded query component. *)
Definition query_safe (c : ascii) : bool :=
  GalleryViewer.is_unreserved c || Ascii.eqb c "%".

(** ** The drawing loop in general *)

(** What the drawing loop keeps also when heights are fractions: the
    open canvas is between 1 and [chunkHeight] high, its chunk starts
    where its index says, and the cursor has not passed its bottom. *)
Definition steady (L : ImageExport.Layout) (st : ImageExport.Chunks) : Prop :=
  1 ≤ ImageExport.canvas st ≤ ImageExport.chunkHeight L
  ∧ ImageExport.chunkYStart st = ImageExport.chunkIndex st * ImageExport.chunkHeight L
  ∧ (ImageExport.yCursor st
     <= inject_Z (ImageExport.chunkYStart st + ImageExport.canvas st))%Q.

(** The next pass of the loop will change the chunk. *)
Definition switch_due (st : ImageExport.Chunks) : bool :=
  Qle_bool (inject_Z (ImageExport.chunkYStart st + ImageExport.canvas st))
    (ImageExport.yCursor st + (1 # 2))%Q.

(** The loop has ended, and if it goes on the state is steady. *)
Definition ended (L : ImageExport.Layout) (flow : ImageExport.Flow ImageExport.Chunks)
  : Prop :=
  match flow with
  | ImageExport.Continue st => steady L st
  | ImageExport.Return _ | ImageExport.Throw _ => True
  | ImageExport.Diverge => False
  end.

(** * Properties *)

(** ** Ceiling division *)

Lemma ceil_div_upper a b : 0 < b → a ≤ b * ceil_div a b.
Proof.
  intros Hb. unfold ceil_div.
  pose proof (Z.div_mod (- a) b ltac:(lia)) as Hdm.
  pose proof (Z.mod_pos_bound (- a) b Hb). lia.
Qed.

Lemma ceil_div_lower a b : 0 < b → b * (ceil_div a b - 1) < a.
Proof.
  intros Hb. unfold ceil_div.
  pose proof (Z.div_mod (- a) b ltac:(lia)) as Hdm.
  pose proof (Z.mod_pos_bound (- a) b Hb). lia.
Qed.

Lemma ceil_div_le_iff a b k : 0 < b → ceil_div a b ≤ k ↔ a ≤ b * k.
Proof.
  intros Hb. pose proof (ceil_div_upper a b Hb). pose proof (ceil_div_lower a b Hb).
  split; intros; nia.
Qed.

Lemma ceil_div_pos a b : 0 < b → 0 < a → 0 < ceil_div a b.
Proof. intros Hb Ha. pose proof (ceil_div_upper a b Hb). nia. Qed.

(** The count of the larger tile side can still grow: it has not
    passed the size of the image along that side. *)
Lemma count_below_size w c a b P :
  0 < c → 0 < P → a * b > P → b ≤ a →
  w ≤ c * a → c * (a - 1) < w → c ≤ Z.abs w.
Proof.
  intros Hc HP Hab Hba Hup Hlo.
  destruct (Z.le_gt_cases 1 b) as [Hb|Hb].
  - assert (2 ≤ a) by nia. nia.
  - assert (a < 0) by nia. nia.
Qed.

(** ** Tile planner *)
Section TilePlannerFacts.
Import TilePlanner.

Variables (width height : Z) (limits : ImageExportConfig).
Hypothesis HmaxDimension : 0 < maxDimension limits.
Hypothesis HmaxPixels : 0 < maxPixels limits.

Let c0 := Z.max 1 (ceil_div width (maxDimension limits)).
Let r0 := Z.max 1 (ceil_div height (maxDimension limits)).

Lemma initial_plan_ok : plan_ok width height limits (initial_plan width height limits).
Proof.
  unfold plan_ok, initial_plan; simpl. fold c0 r0. split; [done|].
  pose proof (ceil_div_lower width _ HmaxDimension).
  pose proof (ceil_div_lower height _ HmaxDimension).
  subst c0 r0. split; nia.
Qed.

Lemma tile_step_ok p :
  plan_ok width height limits p → loop_cond limits p →
  plan_ok width height limits (tile_step width height p)
  ∧ (plan_measure width height (tile_step width height p) < plan_measure width height p)%nat.
Proof.
  intros (Hp & Hc & Hr) Hcond. unfold loop_cond in Hcond.
  assert (0 < cols p) as Hcpos by (subst c0; lia).
  assert (0 < rows p) as Hrpos by (subst r0; lia).
  pose proof (ceil_div_upper width _ Hcpos) as Hwu.
  pose proof (ceil_div_lower width _ Hcpos) as Hwl.
  pose proof (ceil_div_upper height _ Hrpos) as Hhu.
  pose proof (ceil_div_lower height _ Hrpos) as Hhl.
  assert (tileWidth p = ceil_div width (cols p)) as Etw by (rewrite Hp at 1; done).
  assert (tileHeight p = ceil_div height (rows p)) as Eth by (rewrite Hp at 1; done).
  rewrite <- Etw in Hwu, Hwl. rewrite <- Eth in Hhu, Hhl.
  unfold tile_step, plan_ok, plan_measure.
  destruct (Z.geb_spec (tileWidth p) (tileHeight p)) as [Hge|Hlt]; simpl.
  - assert (cols p ≤ Z.abs width)
      by (apply (count_below_size _ _ (tileWidth p) (tileHeight p) (maxPixels limits)); lia).
    repeat split; lia.
  - assert (rows p ≤ Z.abs height)
      by (apply (count_below_size _ _ (tileHeight p) (tileWidth p) (maxPixels limits)); lia).
    repeat split; lia.
Qed.

Lemma tile_loop_enough fuel p :
  plan_ok width height limits p → (plan_measure width height p ≤ fuel)%nat →
  ∃ q, tile_loop fuel width height (maxPixels limits) p = Some q.
Proof.
  revert p. induction fuel as [|fuel IH]; intros p Hok Hm; simpl.
  - destruct (Z.gtb_spec (tileWidth p * tileHeight p) (maxPixels limits)) as [Hc|Hc];
      [|eauto].
    destruct (tile_step_ok p Hok) as [_ ?]; [unfold loop_cond|]; lia.
  - destruct (Z.gtb_spec (tileWidth p * tileHeight p) (maxPixels limits)) as [Hc|Hc];
      [|eauto].
    destruct (tile_step_ok p Hok) as [Hok' Hlt]; [unfold loop_cond; lia|].
    apply IH; [done|lia].
Qed.

(** More passes than needed change nothing. *)
Lemma tile_loop_more fuel fuel' p q :
  tile_loop fuel width height (maxPixels limits) p = Some q → (fuel ≤ fuel')%nat →
  tile_loop fuel' width height (maxPixels limits) p = Some q.
Proof.
  revert fuel' p. induction fuel as [|fuel IH]; intros fuel' p; simpl.
  - destruct (_ >? _) eqn:E; [done|]. intros [= <-] _.
    destruct fuel'; simpl; by rewrite E.
  - destruct (_ >? _) eqn:E.
    + intros Hq Hle. destruct fuel' as [|fuel']; [lia|]. simpl. rewrite E.
      apply IH; [done|lia].
    + intros [= <-] _. destruct fuel'; simpl; by rewrite E.
Qed.

(** The loop as an invariant rule: what holds on entry and is kept by
    every pass taken holds on exit, where the loop condition is false. *)
Lemma tile_loop_invariant (I : TilePlan → Prop) fuel p q :
  (∀ p', I p' → loop_cond limits p' → I (tile_step width height p')) →
  I p → tile_loop fuel width height (maxPixels limits) p = Some q →
  I q ∧ tileWidth q * tileHeight q ≤ maxPixels limits.
Proof.
  intros Hstep. revert p. induction fuel as [|fuel IH]; intros p HI; simpl.
  - destruct (Z.gtb_spec (tileWidth p * tileHeight p) (maxPixels limits)); [done|].
    intros [= <-]. split; [done|lia].
  - destruct (Z.gtb_spec (tileWidth p * tileHeight p) (maxPixels limits)) as [Hc|Hc].
    + apply IH, Hstep; [done|]. unfold loop_cond; lia.
    + intros [= <-]. split; [done|lia].
Qed.

Lemma plan_ok_step p : plan_ok width height limits p → loop_cond limits p → plan_ok width height limits (tile_step width height p).
Proof. intros Hok Hc. by destruct (tile_step_ok p Hok Hc). Qed.

Lemma resolveTilePlan_total :
  ∃ plan, resolveTilePlan width height limits = Some plan
          ∧ plan_ok width height limits plan
          ∧ tileWidth plan * tileHeight plan ≤ maxPixels limits.
Proof.
  destruct (tile_loop_enough (tile_fuel width height) _ initial_plan_ok) as [q Hq].
  { unfold plan_measure, tile_fuel, initial_plan; simpl. lia. }
  exists q. split; [done|].
  eapply tile_loop_invariant; [apply plan_ok_step|apply initial_plan_ok|apply Hq].
Qed.

(** Sizes of a plan the loop can be in. *)
Lemma plan_ok_bounds p :
  plan_ok width height limits p →
  0 < cols p ∧ 0 < rows p
  ∧ tileWidth p ≤ maxDimension limits ∧ tileHeight p ≤ maxDimension limits
  ∧ width ≤ cols p * tileWidth p ∧ height ≤ rows p * tileHeight p.
Proof.
  intros (Hp & Hc & Hr).
  assert (0 < cols p) as Hcpos by (subst c0; lia).
  assert (0 < rows p) as Hrpos by (subst r0; lia).
  assert (tileWidth p = ceil_div width (cols p)) as Etw by (rewrite Hp at 1; done).
  assert (tileHeight p = ceil_div height (rows p)) as Eth by (rewrite Hp at 1; done).
  pose proof (ceil_div_upper width _ Hcpos) as Hwu.
  pose proof (ceil_div_upper height _ Hrpos) as Hhu.
  pose proof (ceil_div_upper width _ HmaxDimension) as Hwd.
  pose proof (ceil_div_upper height _ HmaxDimension) as Hhd.
  rewrite <- Etw in Hwu. rewrite <- Eth in Hhu.
  repeat split; try lia.
  - rewrite Etw. apply ceil_div_le_iff; [done|]. subst c0. nia.
  - rewrite Eth. apply ceil_div_le_iff; [done|]. subst r0. nia.
Qed.

End TilePlannerFacts.





(** ** The split loop: crops of one image *)
Section TileCrops.
Import TilePlanner.

Variables (width height : Z).
Hypothesis Hwidth : 0 < width.
Hypothesis Hheight : 0 < height.

Lemma elem_of_upto n z : z ∈ upto n ↔ 0 ≤ z < n.
Proof.
  unfold upto. rewrite list_elem_of_fmap. split.
  - intros (k & -> & Hk). apply elem_of_seq in Hk. lia.
  - intros Hz. exists (Z.to_nat z). split; [lia|]. apply elem_of_seq. lia.
Qed.

Lemma NoDup_upto n : NoDup (upto n).
Proof. unfold upto. apply NoDup_fmap; [apply _|apply NoDup_seq]. Qed.

Lemma elem_of_tile_crops plan row col crop :
  (row, col, crop) ∈ tile_crops width height plan
  ↔ 0 ≤ row < rows plan ∧ 0 ≤ col < cols plan
    ∧ crop = crop_at width height plan row col.
Proof.
  unfold tile_crops. rewrite list_elem_of_bind. split.
  - intros (r & Hin & Hr). apply list_elem_of_bind in Hin as (c & Hin & Hc).
    apply list_elem_of_singleton in Hin as [= -> -> ->].
    apply elem_of_upto in Hr, Hc. done.
  - intros (Hr & Hc & ->). exists row. split; [|by apply elem_of_upto].
    apply list_elem_of_bind. exists col. split; [|by apply elem_of_upto].
    by apply list_elem_of_singleton.
Qed.

Lemma NoDup_tile_crops plan : NoDup (tile_crops width height plan).
Proof.
  unfold tile_crops. apply NoDup_bind; [| |apply NoDup_upto].
  - intros r1 r2 t _ _ H1 H2.
    apply list_elem_of_bind in H1 as (c1 & H1 & _).
    apply list_elem_of_bind in H2 as (c2 & H2 & _).
    apply list_elem_of_singleton in H1, H2. congruence.
  - intros r _. apply NoDup_bind; [| |apply NoDup_upto].
    + intros c1 c2 t _ _ H1 H2.
      apply list_elem_of_singleton in H1, H2. congruence.
    + intros c _. apply NoDup_singleton.
Qed.

(** Every crop of an exact grid is a non-empty rectangle inside the
    image, no larger than a tile. *)
Lemma exact_grid_crop_clipped plan row col :
  exact_grid width height plan → 0 ≤ row < rows plan → 0 ≤ col < cols plan →
  let c := crop_at width height plan row col in
  0 ≤ sx c ∧ 0 ≤ sy c
  ∧ 0 < sw c ≤ tileWidth plan ∧ 0 < sh c ≤ tileHeight plan
  ∧ sx c + sw c ≤ width ∧ sy c + sh c ≤ height.
Proof.
  intros (Htw & Hth & Hc & Hr) Hrow Hcol. simpl. repeat split; try nia.
Qed.

(** In an exact grid the only crop that holds the pixel [(x, y)] is the
    one at row [y / tileHeight] and column [x / tileWidth]. *)
Lemma in_crop_at_iff plan row col x y :
  exact_grid width height plan → 0 ≤ row < rows plan → 0 ≤ col < cols plan →
  in_crop x y (crop_at width height plan row col)
  ↔ (0 ≤ x < width ∧ 0 ≤ y < height)
    ∧ col = x / tileWidth plan ∧ row = y / tileHeight plan.
Proof.
  intros (Htw & Hth & Hc & Hr) Hrow Hcol. unfold in_crop; simpl. split.
  - intros [Hx Hy]. split; [nia|]. split.
    + apply Z.div_unique with (r := x - col * tileWidth plan); lia.
    + apply Z.div_unique with (r := y - row * tileHeight plan); lia.
  - intros [[Hx Hy] [-> ->]].
    assert (tileWidth plan ≠ 0) as Hw0 by lia.
    assert (tileHeight plan ≠ 0) as Hh0 by lia.
    pose proof (Z.div_mod x _ Hw0).
    pose proof (Z.mod_pos_bound x _ Htw).
    pose proof (Z.div_mod y _ Hh0).
    pose proof (Z.mod_pos_bound y _ Hth).
    split; lia.
Qed.

Lemma exact_grid_partition plan :
  exact_grid width height plan →
  (∀ x y, 0 ≤ x < width ∧ 0 ≤ y < height
          ↔ ∃ row col crop, (row, col, crop) ∈ tile_crops width height plan
                            ∧ in_crop x y crop)
  ∧ (∀ t1 t2 x y, t1 ∈ tile_crops width height plan →
                  t2 ∈ tile_crops width height plan →
                  in_crop x y t1.2 → in_crop x y t2.2 → t1 = t2).
Proof.
  intros Hg. split.
  - intros x y. split.
    + intros [Hx Hy]. destruct Hg as (Htw & Hth & Hc & Hr).
      assert (0 ≤ x / tileWidth plan < cols plan) as Hcol.
      { split; [apply Z.div_pos; lia|]. apply Z.div_lt_upper_bound; lia. }
      assert (0 ≤ y / tileHeight plan < rows plan) as Hrow.
      { split; [apply Z.div_pos; lia|]. apply Z.div_lt_upper_bound; lia. }
      exists (y / tileHeight plan), (x / tileWidth plan), (crop_at width height plan
        (y / tileHeight plan) (x / tileWidth plan)).
      split; [by apply elem_of_tile_crops|].
      apply in_crop_at_iff; done.
    + intros (row & col & crop & Hin & Hxy).
      apply elem_of_tile_crops in Hin as (Hrow & Hcol & ->).
      apply in_crop_at_iff in Hxy; [tauto|done..].
  - intros [[r1 c1] k1] [[r2 c2] k2] x y H1 H2 Hx1 Hx2; simpl in *.
    apply elem_of_tile_crops in H1 as (Hr1 & Hc1 & ->).
    apply elem_of_tile_crops in H2 as (Hr2 & Hc2 & ->).
    apply in_crop_at_iff in Hx1 as (_ & -> & ->); [|done..].
    apply in_crop_at_iff in Hx2 as (_ & -> & ->); [|done..].
    done.
Qed.

End TileCrops.

(** ** The planner's grid is exact *)
Section PlannerExact.
Import TilePlanner.

Variables (width height : Z) (limits : ImageExportConfig).
Hypothesis Hwidth : 0 < width.
Hypothesis Hheight : 0 < height.
Hypothesis HmaxDimension : 0 < maxDimension limits.
Hypothesis HmaxPixels : 0 < maxPixels limits.

Lemma plan_ok_tiles_pos p :
  plan_ok width height limits p → 0 < tileWidth p ∧ 0 < tileHeight p.
Proof.
  intros Hok. destruct (plan_ok_bounds _ _ _ HmaxDimension p Hok) as (Hc & Hr & _).
  destruct Hok as (Hp & _). rewrite Hp; simpl.
  split; apply ceil_div_pos; done.
Qed.

Lemma initial_grid_settling : grid_settling width height limits (initial_plan width height limits).
Proof.
  pose proof (initial_plan_ok width height limits HmaxDimension) as Hok.
  destruct (plan_ok_bounds _ _ _ HmaxDimension _ Hok) as (_ & _ & Htw & Hth & _).
  split; [done|]. revert Htw Hth. unfold initial_plan; simpl. intros Htw Hth.
  pose proof (ceil_div_lower width _ HmaxDimension).
  pose proof (ceil_div_lower height _ HmaxDimension).
  split; left; nia.
Qed.

Lemma grid_settling_step p :
  grid_settling width height limits p → loop_cond limits p → grid_settling width height limits (tile_step width height p).
Proof.
  intros (Hok & Hc & Hr) Hcond.
  pose proof (plan_ok_step _ _ _ HmaxPixels p Hok Hcond) as Hok'.
  destruct (plan_ok_tiles_pos p Hok) as [Htw Hth].
  destruct (plan_ok_tiles_pos _ Hok') as [Htw' Hth'].
  destruct (plan_ok_bounds _ _ _ HmaxDimension p Hok) as (Hcpos & Hrpos & _).
  destruct Hok as (Hp & _).
  assert (tileWidth p = ceil_div width (cols p)) as Etw by (rewrite Hp at 1; done).
  assert (tileHeight p = ceil_div height (rows p)) as Eth by (rewrite Hp at 1; done).
  pose proof (ceil_div_lower width _ Hcpos) as Hwl. rewrite <- Etw in Hwl.
  pose proof (ceil_div_lower height _ Hrpos) as Hhl. rewrite <- Eth in Hhl.
  split; [done|]. clear Hok' Hp. revert Htw' Hth'.
  unfold loop_cond in *. unfold tile_step.
  destruct (Z.geb_spec (tileWidth p) (tileHeight p)) as [Hge|Hlt]; simpl;
    rewrite <- ?Etw, <- ?Eth; intros Htw' Hth'.
  - split; [|left; lia].
    destruct (Z.lt_ge_cases (ceil_div width (cols p + 1)) (tileWidth p)); [left|right]; nia.
  - split; [left; lia|].
    destruct (Z.lt_ge_cases (ceil_div height (rows p + 1)) (tileHeight p)); [left|right]; nia.
Qed.

Lemma resolveTilePlan_exact plan :
  resolveTilePlan width height limits = Some plan → exact_grid width height plan.
Proof.
  intros Hplan.
  destruct (tile_loop_invariant width height limits (grid_settling width height limits) _ _ plan
              grid_settling_step initial_grid_settling Hplan) as [(Hok & Hc & Hr) Hexit].
  destruct (plan_ok_tiles_pos _ Hok) as [Htw Hth].
  destruct (plan_ok_bounds _ _ _ HmaxDimension _ Hok) as (_ & _ & _ & _ & Hw & Hh).
  unfold loop_cond in *. unfold exact_grid. repeat split; lia.
Qed.

End PlannerExact.

(** C10 (tile partition exactness): for a loaded image of positive width
    and height, the crops the split loop takes, one per [(row, col)] of
    its plan, each at origin [(col*tileWidth, row*tileHeight)] with size
    [(min(tileWidth, width - col*tileWidth),
      min(tileHeight, height - row*tileHeight))], are non-empty
    rectangles inside the image (clipped at its right and bottom edge,
    never padded), every source pixel lies in one of them, and no pixel
    lies in two. *)
Theorem tile_partition_exact (split : bool) (width height : Z)
    (formatConfig : ImageExportConfig) :
  0 < width → 0 < height →
  0 < maxDimension formatConfig → 0 < maxPixels formatConfig →
  ∃ plan, TilePlanner.split_plan split width height formatConfig = Some plan
    ∧ NoDup (TilePlanner.tile_crops width height plan)
    ∧ (∀ row col crop,
         (row, col, crop) ∈ TilePlanner.tile_crops width height plan →
         crop = TilePlanner.crop_at width height plan row col
         ∧ 0 ≤ TilePlanner.sx crop ∧ 0 ≤ TilePlanner.sy crop
         ∧ 0 < TilePlanner.sw crop ≤ TilePlanner.tileWidth plan
         ∧ 0 < TilePlanner.sh crop ≤ TilePlanner.tileHeight plan
         ∧ TilePlanner.sx crop + TilePlanner.sw crop ≤ width
         ∧ TilePlanner.sy crop + TilePlanner.sh crop ≤ height)
    ∧ (∀ x y, 0 ≤ x < width ∧ 0 ≤ y < height
              ↔ ∃ row col crop,
                  (row, col, crop) ∈ TilePlanner.tile_crops width height plan
                  ∧ TilePlanner.in_crop x y crop)
    ∧ (∀ t1 t2 x y,
         t1 ∈ TilePlanner.tile_crops width height plan →
         t2 ∈ TilePlanner.tile_crops width height plan →
         TilePlanner.in_crop x y t1.2 → TilePlanner.in_crop x y t2.2 → t1 = t2).
Proof.
  intros Hw Hh HD HP.
  assert (∃ plan, TilePlanner.split_plan split width height formatConfig = Some plan
                  ∧ exact_grid width height plan) as (plan & Hplan & Hg).
  { unfold TilePlanner.split_plan.
    destruct (TilePlanner.needsSplit _ _ _ _).
    - destruct (resolveTilePlan_total width height formatConfig HD HP) as (plan & Hplan & _).
      exists plan. split; [done|]. by apply (resolveTilePlan_exact _ _ formatConfig).
    - eexists. split; [done|]. unfold exact_grid; simpl. lia. }
  exists plan. split; [done|]. split; [apply NoDup_tile_crops|].
  split; [|by apply exact_grid_partition].
  intros row col crop Hin.
  apply elem_of_tile_crops in Hin as (Hrow & Hcol & ->).
  split; [done|]. by apply exact_grid_crop_clipped.
Qed.

Lemma tile_partition_exact_witness :
  ∃ plan, TilePlanner.split_plan true 40000 30000 png_config = Some plan
    ∧ NoDup (TilePlanner.tile_crops 40000 30000 plan)
    ∧ (∀ row col crop,
         (row, col, crop) ∈ TilePlanner.tile_crops 40000 30000 plan →
         crop = TilePlanner.crop_at 40000 30000 plan row col
         ∧ 0 ≤ TilePlanner.sx crop ∧ 0 ≤ TilePlanner.sy crop
         ∧ 0 < TilePlanner.sw crop ≤ TilePlanner.tileWidth plan
         ∧ 0 < TilePlanner.sh crop ≤ TilePlanner.tileHeight plan
         ∧ TilePlanner.sx crop + TilePlanner.sw crop ≤ 40000
         ∧ TilePlanner.sy crop + TilePlanner.sh crop ≤ 30000)
    ∧ (∀ x y, 0 ≤ x < 40000 ∧ 0 ≤ y < 30000
              ↔ ∃ row col crop,
                  (row, col, crop) ∈ TilePlanner.tile_crops 40000 30000 plan
                  ∧ TilePlanner.in_crop x y crop)
    ∧ (∀ t1 t2 x y,
         t1 ∈ TilePlanner.tile_crops 40000 30000 plan →
         t2 ∈ TilePlanner.tile_crops 40000 30000 plan →
         TilePlanner.in_crop x y t1.2 → TilePlanner.in_crop x y t2.2 → t1 = t2).
Proof. apply (tile_partition_exact true 40000 30000 png_config); simpl; lia. Defined.

(** ** Bucket derivation *)
Section HashNumber.
Import JsString Hitomi.
Local Open Scope string_scope.

Lemma string_length_app (s t : string) :
  String.length (s ++ t) = (String.length s + String.length t)%nat.
Proof. induction s as [|c s IH]; simpl; [done|by rewrite IH]. Qed.

Lemma substring_app_skip_more (pre t : string) (k n : nat) :
  substring (String.length pre + k) n (pre ++ t) = substring k n t.
Proof. induction pre as [|c pre IH]; simpl; [done|apply IH]. Qed.

(** The code [resolveHashNumber] parses: the last character, then the
    two before it. *)
Lemma hash_code (pre : string) (a b c : ascii) :
  let hash := pre ++ String a (String b (String c EmptyString)) in
  slice hash (-1) None ++ slice hash (-3) (Some (-1))
  = String c (String a (String b EmptyString)).
Proof.
  intros hash. unfold slice, slice_index. subst hash.
  rewrite string_length_app; simpl String.length.
  set (n := String.length pre).
  change (-1 <? 0)%Z with true. change (-3 <? 0)%Z with true. cbv iota.
  replace (Z.to_nat (Z.max (Z.of_nat (n + 3) + -1) 0)) with (n + 2)%nat by lia.
  replace (Z.to_nat (Z.max (Z.of_nat (n + 3) + -3) 0)) with (n + 0)%nat by lia.
  replace (Z.to_nat (Z.max (Z.of_nat (n + 3) - Z.max (Z.of_nat (n + 3) + -1) 0) 0))
    with 1%nat by lia.
  replace (Z.to_nat (Z.max (Z.max (Z.of_nat (n + 3) + -1) 0
                            - Z.max (Z.of_nat (n + 3) + -3) 0) 0))
    with 2%nat by lia.
  subst n. by rewrite !substring_app_skip_more.
Qed.

Lemma hex_digit_plain c v :
  hex_digit c = Some v →
  is_space c = false ∧ Ascii.eqb c "-" = false ∧ Ascii.eqb c "+" = false
  ∧ Ascii.eqb c "x" = false ∧ Ascii.eqb c "X" = false ∧ (0 ≤ v < 16)%Z.
Proof.
  destruct c as [[] [] [] [] [] [] [] []]; vm_compute; intros [= <-];
    repeat split; congruence.
Qed.

Lemma parseInt16_three (a b c : ascii) (va vb vc : Z) :
  hex_digit a = Some va → hex_digit b = Some vb → hex_digit c = Some vc →
  parseInt16 (String c (String a (String b EmptyString)))
  = Some (vc * 256 + va * 16 + vb)%Z.
Proof.
  intros Ha Hb Hc.
  destruct (hex_digit_plain _ _ Ha) as (_ & _ & _ & Hax & HaX & ?).
  destruct (hex_digit_plain _ _ Hb) as (_ & _ & _ & _ & _ & ?).
  destruct (hex_digit_plain _ _ Hc) as (Hcs & Hcm & Hcp & _ & _ & ?).
  unfold parseInt16, skip_ws. simpl drop_while. rewrite Hcs, Hcm, Hcp, Hax, HaX.
  rewrite andb_false_r. simpl. rewrite Hc, Ha, Hb. simpl.
  f_equal. destruct vc, va, vb; lia.
Qed.

End HashNumber.

(** C4 (bucket derivation): for a hash of length at least 3, that is
    [pre ++ a b c], [resolveHashNumber] parses the code made of the last
    character [c] followed by the two characters [a b] before it as a
    base-16 integer; when the three are hexadecimal digits the bucket is
    [c * 256 + a * 16 + b]; for the hash abc123 it is 0x312. *)
Theorem bucket_derivation (pre : string) (a b c : ascii) :
  let hash := (pre ++ String a (String b (String c EmptyString)))%string in
  Hitomi.resolveHashNumber hash
  = JsString.parseInt16 (String c (String a (String b EmptyString)))
  ∧ (∀ va vb vc,
       JsString.hex_digit a = Some va → JsString.hex_digit b = Some vb →
       JsString.hex_digit c = Some vc →
       Hitomi.resolveHashNumber hash = Some (vc * 256 + va * 16 + vb))
  ∧ Hitomi.resolveHashNumber "abc123" = Some 0x312.
Proof.
  intros hash.
  assert (Hitomi.resolveHashNumber hash
          = JsString.parseInt16 (String c (String a (String b EmptyString)))) as Hcode.
  { unfold Hitomi.resolveHashNumber.
    replace (String.length hash <? 3)%nat with false.
    - subst hash. by rewrite hash_code.
    - symmetry. apply Nat.ltb_ge. subst hash. rewrite string_length_app. simpl. lia. }
  split; [done|]. split; [|reflexivity].
  intros va vb vc Ha Hb Hc. rewrite Hcode. by apply parseInt16_three.
Qed.

Lemma bucket_derivation_witness :
  Hitomi.resolveHashNumber "0123456789abcdef" = Some (0xf * 256 + 0xd * 16 + 0xe).
Proof.
  apply (proj1 (proj2 (bucket_derivation "0123456789abc" "d" "e" "f")) 13 14 15);
    reflexivity.
Defined.

(** ** URL resolution *)
Section UrlResolution.
Import JsString Hitomi.
Local Open Scope string_scope.

Lemma toLowerCase_cons_inv s :
  s ≠ EmptyString → ∃ c rest, toLowerCase s = String c rest.
Proof. destruct s as [|c s]; [done|]. intros _. simpl. eauto. Qed.

Lemma resolveHitomiExtension_nonempty file :
  resolveHitomiExtension file ≠ EmptyString.
Proof.
  unfold resolveHitomiExtension.
  destruct (haswebp file); [done|]. destruct (hasavif file); [done|].
  destruct (split_dot_pop _ _) as [|c s]; [done|]. simpl. done.
Qed.

(** The extensions the viewer asks URLs for are never empty. *)
Lemma getHitomiImageVariants_nonempty file ext :
  ext ∈ getHitomiImageVariants file → ext ≠ EmptyString.
Proof.
  unfold getHitomiImageVariants.
  set (variants2 := (_ ++ _)%list).
  assert (∀ e, e ∈ variants2 → e ≠ EmptyString) as H2.
  { subst variants2. intros e He.
    destruct (haswebp file), (hasavif file); simpl in He;
      repeat (apply elem_of_cons in He as [->|He]; [done|]);
      by apply not_elem_of_nil in He. }
  destruct (toLowerCase _) as [|c rest] eqn:E.
  - destruct variants2 as [|v vs] eqn:Ev.
    + intros ->%list_elem_of_singleton. done.
    + apply H2.
  - destruct (decide (_ ∈ variants2)) as [Hin|Hnin].
    + destruct variants2 as [|v vs] eqn:Ev; [by apply not_elem_of_nil in Hin|apply H2].
    + destruct (variants2 ++ [String c rest])%list as [|v vs] eqn:Ev.
      * by destruct variants2.
      * rewrite <- Ev. intros [He| ->%list_elem_of_singleton]%elem_of_app; [by apply H2|done].
Qed.

Lemma resolveHashNumber_nonempty h bucket :
  resolveHashNumber h = Some bucket → h ≠ EmptyString.
Proof. by intros H ->. Qed.

End UrlResolution.



(** ** Parsing the server map *)
Section ServerMapParsing.
Import JsString Hitomi.

Lemma foldl_insert_keys (v : Z) (keys : list Z) (m : gmap Z Z) (key : Z) :
  foldl (fun acc storedKey => <[storedKey := v]> acc) m keys !! key
  = if decide (key ∈ keys) then Some v else m !! key.
Proof.
  revert m. induction keys as [|k keys IH]; intros m; cbn [foldl].
  - rewrite decide_False; [done|apply not_elem_of_nil].
  - rewrite IH. destruct (decide (key ∈ keys)) as [Hin|Hnin].
    + rewrite decide_True; [done|]. apply elem_of_cons. by right.
    + destruct (decide (key = k)) as [->|Hne].
      * rewrite decide_True by (apply elem_of_cons; by left).
        by rewrite lookup_insert_eq.
      * rewrite decide_False; [by rewrite lookup_insert_ne|].
        intros [?|?]%elem_of_cons; done.
Qed.

Lemma case_pass_app ms ms' :
  case_pass (ms ++ ms') = foldl case_step (case_pass ms) ms'.
Proof. unfold case_pass. apply foldl_app. Qed.

(** Labels without an assignment only join the pending keys. *)
Lemma case_labels_pending st (labels : list string) :
  foldl case_step st (label <$> labels)
  = (st.1, st.2 ++ (Number_digits <$> labels)).
Proof.
  revert st. induction labels as [|l labels IH]; intros [m keys]; simpl.
  - by rewrite app_nil_r.
  - rewrite IH. simpl. by rewrite <- app_assoc.
Qed.

(** A match whose key is not [key] leaves [key] as it is, unless [key]
    is pending. *)
Lemma case_step_other st m key :
  key ∉ st.2 → key ≠ case_key m →
  (case_step st m).1 !! key = st.1 !! key ∧ key ∉ (case_step st m).2.
Proof.
  intros Hpend Hne. destruct st as [mp keys], m as [k [v|]]; simpl in *.
  - rewrite foldl_insert_keys. split; [|apply not_elem_of_nil].
    case_decide as Hin; [|done].
    apply elem_of_app in Hin as [?|Hin]; [done|].
    apply list_elem_of_singleton in Hin. done.
  - split; [done|]. intros Hin. apply elem_of_app in Hin as [?|Hin]; [done|].
    apply list_elem_of_singleton in Hin. done.
Qed.

Lemma case_pass_later st ms key :
  key ∉ st.2 → key ∉ (case_key <$> ms) →
  (foldl case_step st ms).1 !! key = st.1 !! key.
Proof.
  revert st. induction ms as [|m ms IH]; intros st Hpend Hkeys; [done|].
  simpl in *. apply not_elem_of_cons in Hkeys as [Hne Hkeys].
  destruct (case_step_other st m key Hpend Hne) as [Heq Hpend'].
  by rewrite IH.
Qed.

(** Fallthrough: a run of labels ended by an assignment gives the
    assigned value to every label of the run, and to the keys that were
    already pending. *)
Lemma case_pass_run ms (labels : list string) (k v : string) ms' (key : Z) :
  key ∈ (case_pass ms).2 ++ (Number_digits <$> labels) ++ [Number_digits k] →
  key ∉ (case_key <$> ms') →
  (case_pass (ms ++ (label <$> labels) ++ (k, Some v) :: ms')).1 !! key
  = Some (Number_digits v).
Proof.
  intros Hin Hlater.
  rewrite case_pass_app, foldl_app, case_labels_pending. simpl foldl.
  rewrite case_pass_later; [| |done].
  - unfold case_step; simpl. rewrite foldl_insert_keys.
    rewrite decide_True; [done|]. by rewrite <- app_assoc.
  - unfold case_step; simpl. apply not_elem_of_nil.
Qed.

(** Overrides: the last [if] match for a bucket decides it; a bucket
    without one keeps what the fallthrough pass gave it. *)
Lemma if_pass_other (base : gmap Z Z) ifs key :
  key ∉ (if_key <$> ifs) → foldl if_step base ifs !! key = base !! key.
Proof.
  revert base. induction ifs as [|m ifs IH]; intros base Hkeys; [done|].
  simpl in *. apply not_elem_of_cons in Hkeys as [Hne Hkeys].
  rewrite IH; [|done]. unfold if_step. by rewrite lookup_insert_ne.
Qed.

Lemma if_pass_last (base : gmap Z Z) ifs (k v : string) ifs' :
  Number_digits k ∉ (if_key <$> ifs') →
  foldl if_step base (ifs ++ (k, v) :: ifs') !! Number_digits k
  = Some (Number_digits v).
Proof.
  intros Hlater. rewrite foldl_app. simpl.
  rewrite if_pass_other; [|done]. unfold if_step at 1. simpl.
  by rewrite lookup_insert_eq.
Qed.

End ServerMapParsing.


(** ** The server map cache *)
Section ServerMapCacheFacts.
Import Hitomi ServerMapCache.

(** With a fulfilled, successful promise in the cache a call changes
    nothing and returns the cached map. *)
Lemma cached_call s p serverMap o :
  serverMapPromise s = Some p →
  promises s !! p = Some (Fulfilled (Some serverMap)) →
  getHitomiServerMap o s = Some (s, Some serverMap).
Proof.
  intros Hc Hp. unfold getHitomiServerMap, call_enter. rewrite Hc.
  unfold settle. rewrite Hp. unfold call_resume. by rewrite Hp.
Qed.

Lemma cached_calls s p serverMap os :
  serverMapPromise s = Some p →
  promises s !! p = Some (Fulfilled (Some serverMap)) →
  calls os s = Some (s, replicate (length os) (Some serverMap)).
Proof.
  intros Hc Hp. induction os as [|o os IH]; [done|].
  simpl. rewrite (cached_call s p serverMap o Hc Hp). simpl. by rewrite IH.
Qed.

(** The state after the first of several callers found the cache empty
    and the fetch ended with [o]. *)
Lemma fresh_promise_settled s o :
  serverMapPromise s = None →
  let s1 := (call_enter s).1 in
  let p := (call_enter s).2 in
  p = length (promises s)
  ∧ serverMapPromise s1 = Some p
  ∧ promises s1 !! p = Some Pending
  ∧ fetches s1 = S (fetches s)
  ∧ serverMapPromise (settle p o s1) = Some p
  ∧ promises (settle p o s1) !! p = Some (Fulfilled (resolve_chain o))
  ∧ fetches (settle p o s1) = S (fetches s).
Proof.
  intros Hc. unfold call_enter. rewrite Hc. simpl.
  assert ((promises s ++ [Pending]) !! length (promises s) = Some Pending) as Hl.
  { rewrite lookup_app_r; [|lia]. by rewrite Nat.sub_diag. }
  unfold settle; simpl. rewrite Hl. simpl.
  repeat split; try done.
  apply list_lookup_insert_eq. rewrite length_app. simpl. lia.
Qed.

Lemma first_call s o :
  serverMapPromise s = None →
  ∃ s', getHitomiServerMap o s = Some (s', resolve_chain o)
        ∧ fetches s' = S (fetches s)
        ∧ match resolve_chain o with
          | Some serverMap =>
              ∃ p, serverMapPromise s' = Some p
                   ∧ promises s' !! p = Some (Fulfilled (Some serverMap))
          | None => serverMapPromise s' = None
          end.
Proof.
  intros Hc.
  destruct (fresh_promise_settled s o Hc) as (_ & _ & _ & _ & Hc' & Hp' & Hf').
  unfold getHitomiServerMap. destruct (call_enter s) as [s1 p] eqn:E. simpl in *.
  unfold call_resume. rewrite Hp'.
  destruct (resolve_chain o) as [serverMap|]; eexists; (split; [done|]); simpl.
  - split; [done|]. eauto.
  - done.
Qed.

End ServerMapCacheFacts.


(** ** Rational arithmetic on integers *)

Lemma Qplus_inject a b : (inject_Z a + inject_Z b)%Q = inject_Z (a + b).
Proof. unfold Qplus, inject_Z; simpl. f_equal. lia. Qed.

Lemma Qminus_inject a b : (inject_Z a - inject_Z b)%Q = inject_Z (a - b).
Proof. unfold Qminus, Qplus, Qopp, inject_Z; simpl. f_equal. lia. Qed.

Lemma Qmult_inject_1 a : (inject_Z a * 1)%Q = inject_Z a.
Proof. unfold Qmult, inject_Z; simpl. f_equal. lia. Qed.

Lemma Qle_bool_inject a b : Qle_bool (inject_Z a) (inject_Z b) = (a <=? b).
Proof. unfold Qle_bool, inject_Z; simpl. by rewrite !Z.mul_1_r. Qed.

Lemma Qle_bool_half a b :
  Qle_bool (inject_Z a) (inject_Z b + (1 # 2))%Q = (a <=? b).
Proof.
  unfold Qle_bool, Qplus, inject_Z; simpl.
  destruct (Z.leb_spec a b); [apply Z.leb_le|apply Z.leb_gt]; lia.
Qed.

Lemma Qmin_inject a b : Qmin (inject_Z a) (inject_Z b) = inject_Z (Z.min a b).
Proof.
  unfold Qmin, GenericMinMax.gmin, Qcompare, inject_Z; simpl. rewrite !Z.mul_1_r.
  unfold Z.min. by destruct (a ?= b).
Qed.

Lemma Qmax_inject a b : Qmax (inject_Z a) (inject_Z b) = inject_Z (Z.max a b).
Proof.
  unfold Qmax, GenericMinMax.gmax, Qcompare, inject_Z; simpl. rewrite !Z.mul_1_r.
  unfold Z.max. by destruct (a ?= b).
Qed.

Lemma Qdiv_inject_1 a : (inject_Z a / 1)%Q = inject_Z a.
Proof. unfold Qdiv, Qmult, Qinv, inject_Z; simpl. f_equal. lia. Qed.

(** ** The composite stitcher without downscaling *)

Lemma sum_heights_app l1 l2 :
  sum_heights (l1 ++ l2) = sum_heights l1 + sum_heights l2.
Proof. induction l1 as [|x l1 IH]; simpl; [done|]. rewrite IH. lia. Qed.

Lemma tiled_app hs H T ds1 ds2 a m b :
  tiled hs H T ds1 a m → tiled hs H T ds2 m b → tiled hs H T (ds1 ++ ds2) a b.
Proof.
  revert a. induction ds1 as [|d ds1 IH]; intros a; simpl.
  - by intros ->.
  - intros (m' & Hp & Ht) H2. exists m'. split; [done|]. by apply IH.
Qed.

Lemma sum_heights_nonneg l : Forall (fun h => 0 ≤ h) l → 0 ≤ sum_heights l.
Proof. induction 1; simpl; lia. Qed.

Lemma sum_heights_bound l :
  Forall (fun h => 0 ≤ h) l → Forall (fun h => h ≤ sum_heights l) l.
Proof.
  induction 1 as [|h l Hh Hl IH]; [done|]. simpl.
  pose proof (sum_heights_nonneg l Hl).
  constructor; [lia|]. eapply Forall_impl; [apply IH|]. simpl. intros. lia.
Qed.

Section StitcherInteger.
Import ImageExport.

Variables (env : Env) (formatConfig : ImageExportConfig)
  (packaging : ImagePackaging) (baseLabel : string) (L : Layout) (hs : list Z).
Hypothesis Hscale : widthScale L = 1%Q.
Hypothesis Htotal : totalHeight L = inject_Z (sum_heights hs).
Hypothesis Hcontext : ∀ w h, has_context env w h = true.

Let T := sum_heights hs.
Let H := chunkHeight L.

Lemma openChunk_integer index :
  openChunk env L index
  = Some (Z.max 1 (Z.min (chunkHeight L) (Z.max 0 (T - index * chunkHeight L)))).
Proof.
  unfold openChunk. rewrite Htotal, Qminus_inject. fold T.
  change 0%Q with (inject_Z 0). rewrite Qmax_inject, Qmin_inject, Qceiling_Z.
  by rewrite Hcontext.
Qed.


Lemma draw_slices_tiled fuel index h r sourceOffsetY st y :
  let start := sum_heights (take index hs) in
  sourceOffsetY = inject_Z (y - start) →
  chunks_ok L T st y →
  hs !! index = Some h →
  0 ≤ r → start ≤ y → y + r ≤ start + h → start + h ≤ T →
  (0 < r → 2 * r - (if y <? chunkYStart st + canvas st then 1 else 0)
           ≤ Z.of_nat fuel) →
  ∃ st' ds,
    draw_slices env formatConfig packaging baseLabel L fuel index
      (inject_Z r) sourceOffsetY st = Continue st'
    ∧ chunks_ok L T st' (y + r)
    ∧ draws st' = draws st ++ ds
    ∧ tiled hs H T ds y (y + r).
Proof.
  intros start. revert r sourceOffsetY st y.
  induction fuel as [|fuel IH]; intros r so st y -> Hok Hh Hr Hstart Hend HT Hfuel.
  - destruct (Z.le_gt_cases r 0) as [Hr0|Hr0].
    + assert (r = 0) as -> by lia. exists st, [].
      cbn [draw_slices]. change 0%Q with (inject_Z 0). rewrite Qle_bool_inject.
      rewrite Z.add_0_r, app_nil_r. done.
    + specialize (Hfuel ltac:(lia)). destruct (y <? _); lia.
  - destruct (Z.le_gt_cases r 0) as [Hr0|Hr0].
    { assert (r = 0) as -> by lia. exists st, [].
      cbn [draw_slices]. change 0%Q with (inject_Z 0). rewrite Qle_bool_inject.
      rewrite Z.add_0_r, app_nil_r. done. }
    specialize (Hfuel ltac:(lia)).
    destruct Hok as (Hy & Hidx & Hcs & Hcanvas & Hcpos & Hrange & Hsum & Hall).
    cbn [draw_slices]. change 0%Q with (inject_Z 0). rewrite Qle_bool_inject.
    replace (r <=? 0) with false by (symmetry; apply Z.leb_gt; lia).
    rewrite Hy, Qle_bool_half.
    set (slice := Z.min r (chunkYStart st + canvas st - y)).
    destruct (Z.leb_spec (chunkYStart st + canvas st) y) as [Hfull|Hroom].
    + replace (y <? chunkYStart st + canvas st) with false in Hfuel
        by (symmetry; apply Z.ltb_ge; lia).
      unfold next_chunk. rewrite openChunk_integer.
      cbn [flushChunk yCursor flushed draws session chunkIndex chunkYStart canvas].
      rewrite Hy, Hscale, Qminus_inject, Qmin_inject, Qdiv_inject_1, Qminus_inject,
        !Qplus_inject.
      fold slice.
      set (st1 := {| chunkIndex := chunkIndex st + 1 |}).
      assert (canvas st = chunkHeight L) as Hfullchunk by (unfold T in *; lia).
      assert (slice = 0) as Hslice by (subst slice; lia).
      destruct (IH (r - slice) (inject_Z (y - start + slice)) st1 (y + slice))
        as (st' & ds & Hrun & Hok' & Hds & Htiled).
      * f_equal. lia.
      * subst st1. unfold chunks_ok; simpl. unfold T in *.
        repeat split; try lia.
        -- rewrite sum_heights_app; simpl. lia.
        -- apply Forall_app. split; [done|]. apply Forall_singleton. lia.
      * done.
      * lia.
      * lia.
      * lia.
      * done.
      * intros _. subst st1; cbn [chunkYStart canvas]. unfold T in *.
        replace (y + slice <? (chunkIndex st + 1) * chunkHeight L
                    + Z.max 1 (Z.min (chunkHeight L)
                                 (Z.max 0 (sum_heights hs
                                           - (chunkIndex st + 1) * chunkHeight L))))
          with true by (symmetry; apply Z.ltb_lt; lia).
        lia.
      * exists st'. eexists. split; [apply Hrun|].
        replace (y + r) with (y + slice + (r - slice)) by lia.
        split; [done|]. split.
        -- rewrite Hds. subst st1. cbn [draws]. by rewrite <- app_assoc.
        -- cbn [tiled app]. exists (y + slice). split; [|done].
           unfold piece. cbn [draw_image_index draw_chunk dest_y dest_height
                                source_y source_height]. fold start. unfold H, T in *.
           repeat split; try lia; rewrite ?Qminus_inject; try (f_equal; lia).
           exists h. split; [done|lia].
    + replace (y <? chunkYStart st + canvas st) with true in Hfuel
        by (symmetry; apply Z.ltb_lt; lia).
      rewrite Hy, Hscale, Qminus_inject, Qmin_inject, Qdiv_inject_1, Qminus_inject,
        !Qplus_inject.
      fold slice.
      set (st1 := {| chunkIndex := chunkIndex st |}).
      destruct (IH (r - slice) (inject_Z (y - start + slice)) st1 (y + slice))
        as (st' & ds & Hrun & Hok' & Hds & Htiled).
      * f_equal. lia.
      * subst st1. unfold chunks_ok; simpl. repeat split; try done; lia.
      * done.
      * lia.
      * lia.
      * lia.
      * done.
      * intros Hpos. subst st1; cbn [chunkYStart canvas]. destruct (_ <? _); lia.
      * exists st'. eexists. split; [apply Hrun|].
        replace (y + r) with (y + slice + (r - slice)) by lia.
        split; [done|]. split.
        -- rewrite Hds. subst st1. cbn [draws]. by rewrite <- app_assoc.
        -- cbn [tiled app]. exists (y + slice). split; [|done].
           unfold piece. cbn [draw_image_index draw_chunk dest_y dest_height
                                source_y source_height]. fold start. unfold H, T in *.
           repeat split; try lia; rewrite ?Qminus_inject; try (f_equal; lia).
           exists h. split; [done|lia].
Qed.

Lemma draw_each_tiled fuel (all : list (Dimensions * bool)) rest index st :
  hs = heights all →
  drop index all = rest →
  (∀ i e, all !! i = Some e → drawable env i e) →
  Forall (fun h => 0 ≤ h ∧ 2 * h ≤ Z.of_nat fuel) hs →
  chunks_ok L T st (sum_heights (take index hs)) →
  ∃ st' ds,
    draw_each env formatConfig packaging baseLabel L fuel index rest st = Continue st'
    ∧ chunks_ok L T st' T
    ∧ draws st' = draws st ++ ds
    ∧ tiled hs H T ds (sum_heights (take index hs)) T.
Proof.
  intros Hhs. revert index st.
  induction rest as [|[dims preloaded] rest IH]; intros index st Hdrop Hdraw Hall Hok.
  - assert (take index hs = hs) as Htake.
    { apply take_ge. rewrite Hhs. unfold heights. rewrite length_fmap.
      apply (f_equal length) in Hdrop. rewrite length_drop in Hdrop. simpl in Hdrop. lia. }
    rewrite Htake in *. exists st, []. rewrite app_nil_r. done.
  - assert (all !! index = Some (dims, preloaded)) as Hlook.
    { rewrite <- (Nat.add_0_r index), <- lookup_drop, Hdrop. done. }
    assert (drop (S index) all = rest) as Hdrop'.
    { rewrite (drop_S _ _ _ Hlook) in Hdrop. by injection Hdrop. }
    assert (hs !! index = Some (dim_height dims)) as Hh.
    { rewrite Hhs. unfold heights. rewrite list_lookup_fmap, Hlook. done. }
    pose proof (take_S_r _ _ _ Hh) as Htake.
    assert (sum_heights (take (S index) hs)
            = sum_heights (take index hs) + dim_height dims) as Hsum.
    { rewrite Htake, sum_heights_app. simpl. lia. }
    assert (sum_heights (take (S index) hs) ≤ T) as HleT.
    { unfold T. rewrite <- (take_drop (S index) hs) at 2. rewrite sum_heights_app.
      assert (0 ≤ sum_heights (drop (S index) hs)); [|lia].
      apply sum_heights_nonneg, Forall_drop. eapply Forall_impl; [apply Hall|].
      simpl. tauto. }
    assert (0 ≤ dim_height dims ∧ 2 * dim_height dims ≤ Z.of_nat fuel) as [Hh0 Hhfuel].
    { by apply (proj1 (Forall_lookup _ _) Hall index). }
    pose proof (Hdraw _ _ Hlook) as He.
    cbn [draw_each].
    destruct He as [[Hw Hhz]|(Hw & Hhp & Hhave)]; cbn [fst snd] in *.
    + rewrite Hw. simpl orb. cbv iota.
      destruct (IH (S index) st Hdrop' Hdraw Hall) as (st' & ds & Hrun & Hok' & Hds & Ht).
      { rewrite Hsum, Hhz, Z.add_0_r. exact Hok. }
      exists st', ds. split; [exact Hrun|]. split; [exact Hok'|]. split; [exact Hds|].
      rewrite Hsum, Hhz, Z.add_0_r in Ht. exact Ht.
    + replace (dim_width dims =? 0) with false by (symmetry; apply Z.eqb_neq; lia).
      replace (dim_height dims =? 0) with false by (symmetry; apply Z.eqb_neq; lia).
      rewrite Hscale, !Qmult_inject_1. change 0%Q with (inject_Z 0).
      rewrite !Qle_bool_inject.
      replace (dim_width dims <=? 0) with false by (symmetry; apply Z.leb_gt; lia).
      replace (dim_height dims <=? 0) with false by (symmetry; apply Z.leb_gt; lia).
      simpl orb. cbv iota.
      assert (∃ w h, (if preloaded then Loaded (dim_width dims) (dim_height dims)
                      else retrieve env index) = Loaded w h) as (w & h & ->).
      { destruct Hhave as [Hp|(w & h & Hr)]; simpl in *.
        - subst preloaded. eauto.
        - destruct preloaded; eauto. }
      destruct (draw_slices_tiled fuel index (dim_height dims) (dim_height dims)
                  (inject_Z 0) st (sum_heights (take index hs)))
        as (st1 & ds1 & Hrun1 & Hok1 & Hds1 & Ht1);
        [by rewrite Z.sub_diag|done|done|lia|lia|lia|lia
        |intros _; destruct (_ <? _); lia|].
      rewrite Hrun1. rewrite <- Hsum in Hok1, Ht1.
      destruct (IH (S index) st1 Hdrop' Hdraw Hall Hok1)
        as (st' & ds & Hrun & Hok' & Hds & Ht).
      exists st', (ds1 ++ ds). split; [done|]. split; [done|]. split.
      * rewrite Hds, Hds1. by rewrite <- app_assoc.
      * by eapply tiled_app.
Qed.

End StitcherInteger.

Section StitcherLayout.
Import ImageExport.

Lemma drawable_nonneg env (dimensions : list (Dimensions * bool)) :
  (∀ i e, dimensions !! i = Some e → drawable env i e) →
  Forall (fun h => 0 ≤ h) (heights dimensions).
Proof.
  intros Hd. apply Forall_lookup. intros i h Hi.
  unfold heights in Hi. rewrite list_lookup_fmap in Hi.
  destruct (dimensions !! i) as [e|] eqn:E; [|done]. injection Hi as <-.
  destruct (Hd i e E) as [[_ ?]|(_ & ? & _)]; lia.
Qed.

Lemma totalHeight_integer (dimensions : list (Dimensions * bool)) a :
  fold_left (fun sum entry => (sum + inject_Z (dim_height entry.1) * 1)%Q)
    dimensions (inject_Z a)
  = inject_Z (a + sum_heights (heights dimensions)).
Proof.
  revert a. induction dimensions as [|e rest IH]; intros a; simpl.
  - by rewrite Z.add_0_r.
  - rewrite Qmult_inject_1, Qplus_inject, IH. f_equal. lia.
Qed.

Lemma layout_integer formatConfig dimensions combinedWidth :
  0 < maxDimension formatConfig → combinedWidth ≤ maxDimension formatConfig →
  let L := layout formatConfig dimensions combinedWidth in
  widthScale L = 1%Q
  ∧ totalHeight L = inject_Z (sum_heights (heights dimensions))
  ∧ 1 ≤ chunkHeight L.
Proof.
  intros HD Hcw. unfold layout. cbn [widthScale totalHeight chunkHeight].
  replace (Z.max 1 (if combinedWidth =? 0 then 1 else combinedWidth)
           >? maxDimension formatConfig) with false.
  - split; [done|]. split; [|lia].
    change 0%Q with (inject_Z 0). by rewrite totalHeight_integer.
  - symmetry. destruct (Z.gtb_spec (Z.max 1 (if combinedWidth =? 0 then 1 else combinedWidth))
                          (maxDimension formatConfig)) as [Hgt|]; [|done].
    destruct (combinedWidth =? 0); lia.
Qed.

End StitcherLayout.




(** ** The download handler *)
Section DownloadLock.
Import ImageExport.

Lemma begin_download_locked images v :
  downloadLock v = true →
  begin_download images v
  = (show (match images with
           | [] => ToastError "No images to download"
           | _ :: _ => ToastInfo "Download already in progress"
           end) v, None).
Proof. intros Hlock. unfold begin_download. destruct images; [done|]. by rewrite Hlock. Qed.

Lemma end_download_releases images toastId flow v v' :
  end_download images toastId flow v = Some v' →
  downloadLock v' = false ∧ isDownloading v' = false.
Proof. destruct flow; simpl; intros [= <-]; done. Qed.

Lemma end_download_effect images toastId flow v v' :
  end_download images toastId flow v = Some v' →
  ∃ s, (flow = Continue s ∨ flow = Return s ∨ flow = Throw s)
       ∧ toasts v' = toasts v ++ closing_toasts images toastId flow
       ∧ saved v' = saved v ++ downloads s.
Proof. destruct flow as [s|s|s|]; simpl; intros [= <-]; exists s; simpl; eauto. Qed.

End DownloadLock.

(** C8 (single in-flight session): a request made while the lock is
    held only shows the notice that a download is already in progress:
    no session starts, the lock stays held and nothing is saved; a
    request on an idle viewer with images takes the lock; the session
    that holds the lock then ends as it would have ended without the
    rejected request, with the same notification and the same files
    saved; and however a session ends, on success, on an early return
    or on an exception, the lock is released.  A print request made
    while the lock is held is rejected with the same notice. *)
Theorem single_in_flight_session :
  (∀ images v,
     images ≠ [] → ImageExport.downloadLock v = true →
     ImageExport.begin_download images v
     = (ImageExport.show (ImageExport.ToastInfo "Download already in progress") v, None))
  ∧ (∀ env fuel format packaging split combine baseLabel images v,
       images ≠ [] → ImageExport.downloadLock v = true →
       ∃ v', ImageExport.handleDownloadImages env fuel format packaging split combine
               baseLabel images v = Some v'
             ∧ ImageExport.downloadLock v' = true
             ∧ ImageExport.saved v' = ImageExport.saved v
             ∧ ImageExport.toasts v'
               = ImageExport.toasts v
                 ++ [ImageExport.ToastInfo "Download already in progress"])
  ∧ (∀ images v,
       images ≠ [] → ImageExport.downloadLock v = false →
       ∃ v1 toastId, ImageExport.begin_download images v = (v1, Some toastId)
                     ∧ ImageExport.downloadLock v1 = true)
  ∧ (∀ images toastId flow v v' images2,
       ImageExport.downloadLock v = true →
       ImageExport.end_download images toastId flow v = Some v' →
       ∃ notice v'',
         ImageExport.begin_download images2 v = (ImageExport.show notice v, None)
         ∧ ImageExport.end_download images toastId flow (ImageExport.show notice v)
           = Some v''
         ∧ ImageExport.downloadLock v'' = false
         ∧ ImageExport.saved v'' = ImageExport.saved v'
         ∧ ImageExport.toasts v'
           = ImageExport.toasts v ++ closing_toasts images toastId flow
         ∧ ImageExport.toasts v''
           = ImageExport.toasts v ++ [notice] ++ closing_toasts images toastId flow)
  ∧ (∀ images toastId s v,
       ∃ v1 v2 v3,
         ImageExport.end_download images toastId (ImageExport.Continue s) v = Some v1
         ∧ ImageExport.end_download images toastId (ImageExport.Return s) v = Some v2
         ∧ ImageExport.end_download images toastId (ImageExport.Throw s) v = Some v3
         ∧ ImageExport.downloadLock v1 = false
         ∧ ImageExport.downloadLock v2 = false
         ∧ ImageExport.downloadLock v3 = false)
  ∧ (∀ env fuel format packaging split combine baseLabel images v v',
       ImageExport.handleDownloadImages env fuel format packaging split combine
         baseLabel images v = Some v' →
       ImageExport.downloadLock v' = ImageExport.downloadLock v)
  ∧ (∀ images v,
       images ≠ [] → ImageExport.downloadLock v = true →
       ImageExport.begin_save_pdf images v
       = (ImageExport.show (ImageExport.ToastInfo "Download already in progress") v,
          false))
  ∧ (∀ v, ImageExport.downloadLock (ImageExport.end_save_pdf v) = false).
Proof.
  split; [|split; [|split; [|split; [|split; [|split; [|split]]]]]].
  - intros images v Hne Hlock. rewrite begin_download_locked by done.
    by destruct images.
  - intros env fuel format packaging split combine baseLabel images v Hne Hlock.
    unfold ImageExport.handleDownloadImages.
    rewrite begin_download_locked by done. destruct images; [done|].
    eexists. split; [done|]. simpl. done.
  - intros images v Hne Hlock. unfold ImageExport.begin_download.
    destruct images; [done|]. rewrite Hlock. eexists _, _. split; done.
  - intros images toastId flow v v' images2 Hlock Hend.
    destruct (end_download_effect _ _ _ _ _ Hend) as (s & Hflow & Htoasts & Hsaved).
    eexists _. rewrite begin_download_locked by done.
    destruct flow as [s'|s'|s'|]; simpl in Hend; [| | |done];
      injection Hend as <-; eexists; (split; [done|]); simpl;
      rewrite <- ?app_assoc; repeat split; done.
  - intros images toastId s v. eexists _, _, _. repeat split; done.
  - intros env fuel format packaging split combine baseLabel images v v'.
    unfold ImageExport.handleDownloadImages, ImageExport.begin_download.
    destruct images as [|e images].
    + by intros [= <-].
    + destruct (ImageExport.downloadLock v) eqn:Hlock.
      * by intros [= <-].
      * intros Hend. by apply end_download_releases in Hend as [-> _].
  - intros images v Hne Hlock. unfold ImageExport.begin_save_pdf.
    destruct images; [done|]. by rewrite Hlock.
  - done.
Qed.

Section SplitBranch.
Import ImageExport.

(** The branch without [combine] has no [return] in it. *)
Lemma export_each_no_return env formatConfig packaging split baseLabel indexWidth
    index images s s' :
  export_each env formatConfig packaging split baseLabel indexWidth index images s
  ≠ Return s'.
Proof.
  revert index s. induction images as [|entry rest IH]; intros index s; simpl; [done|].
  destruct (retrieve env index); [apply IH|done|].
  destruct (TilePlanner.split_plan _ _ _ _); [apply IH|done].
Qed.

(** When it ends, it ends with the success toast for all the images of
    the gallery, or with the error toast of [catch]. *)
Lemma split_branch_toasts env fuel format packaging split baseLabel images v v' :
  images ≠ [] → downloadLock v = false →
  handleDownloadImages env fuel format packaging split false baseLabel images v
  = Some v' →
  ∃ last,
    toasts v'
    = toasts v
      ++ [ToastLoading (length (toasts v))
            ("Preparing to download "
             ++ JsString.String_of_int (Z.of_nat (length images)) ++ " images...")%string;
          ToastDismiss (length (toasts v)); last]
    ∧ (last = ToastSuccess
                ("Successfully downloaded "
                 ++ JsString.String_of_int (Z.of_nat (length images))
                 ++ " images!")%string
       ∨ last = ToastError "Download failed. Please try again.").
Proof.
  intros Hne Hlock. unfold handleDownloadImages, begin_download.
  destruct images as [|e images]; [done|]. rewrite Hlock.
  unfold export_session.
  destruct (export_each _ _ _ _ _ _ _ _ _) as [s|s|s|] eqn:Heach.
  - simpl. intros [= <-]. simpl. eexists. rewrite <- app_assoc. split; [done|]. by left.
  - by apply export_each_no_return in Heach.
  - simpl. intros [= <-]. simpl. eexists. rewrite <- app_assoc. split; [done|]. by right.
  - done.
Qed.

End SplitBranch.

(** C7 (per-image fetch failure isolation), what the code does: with
    the third of five images failing, the other four are exported and
    the batch is not aborted, but the success toast counts the five
    images of the gallery; with all five failing, nothing is saved (no
    archive either) and the same success toast is shown, not an error.
    Without [combine] a request that ends always ends with the success
    toast for the whole gallery or with the error toast of [catch]. *)
Theorem fetch_failure_reported_count :
  ImageExport.handleDownloadImages third_fails 0 ImageExport.png ImageExport.zip
    false false "gallery" [page; page; page; page; page] idle_viewer
  = Some {| ImageExport.downloadLock := false;
            ImageExport.isDownloading := false;
            ImageExport.toasts :=
              [ImageExport.ToastLoading 0 "Preparing to download 5 images...";
               ImageExport.ToastDismiss 0;
               ImageExport.ToastSuccess "Successfully downloaded 5 images!"];
            ImageExport.saved :=
              [ImageExport.SavedZip "gallery-png.zip"
                 ["gallery-1.png"; "gallery-2.png"; "gallery-4.png";
                  "gallery-5.png"]%string] |}
  ∧ ImageExport.handleDownloadImages all_fail 0 ImageExport.png ImageExport.zip
      false false "gallery" [page; page; page; page; page] idle_viewer
    = Some {| ImageExport.downloadLock := false;
              ImageExport.isDownloading := false;
              ImageExport.toasts :=
                [ImageExport.ToastLoading 0 "Preparing to download 5 images...";
                 ImageExport.ToastDismiss 0;
                 ImageExport.ToastSuccess "Successfully downloaded 5 images!"];
              ImageExport.saved := [] |}
  ∧ (∀ env fuel format packaging split baseLabel images v v',
       images ≠ [] → ImageExport.downloadLock v = false →
       ImageExport.handleDownloadImages env fuel format packaging split false
         baseLabel images v = Some v' →
       ∃ last,
         ImageExport.toasts v'
         = ImageExport.toasts v
           ++ [ImageExport.ToastLoading (length (ImageExport.toasts v))
                 ("Preparing to download "
                  ++ JsString.String_of_int (Z.of_nat (length images))
                  ++ " images...")%string;
               ImageExport.ToastDismiss (length (ImageExport.toasts v)); last]
         ∧ (last = ImageExport.ToastSuccess
                     ("Successfully downloaded "
                      ++ JsString.String_of_int (Z.of_nat (length images))
                      ++ " images!")%string
            ∨ last = ImageExport.ToastError "Download failed. Please try again.")).
Proof.
  split; [vm_compute; reflexivity|]. split; [vm_compute; reflexivity|].
  apply split_branch_toasts.
Qed.

(** * Further properties of the code *)

(** ** Extensions and image URLs *)
Section VariantFacts.
Import JsString Hitomi.
Local Open Scope string_scope.

Lemma lower_char_idem c : lower_char (lower_char c) = lower_char c.
Proof. destruct c as [[] [] [] [] [] [] [] []]; vm_compute; reflexivity. Qed.

Lemma toLowerCase_idem s : toLowerCase (toLowerCase s) = toLowerCase s.
Proof. induction s as [|c s IH]; simpl; [done|]. by rewrite lower_char_idem, IH. Qed.

End VariantFacts.

(** X1 ([getHitomiImageVariants]): a file always gets between one and
    three extensions to try, all different, none empty, all in lower
    case. *)
Theorem variants_shape (file : Hitomi.HitomiFile) :
  let variants := Hitomi.getHitomiImageVariants file in
  (1 ≤ length variants ≤ 3)%nat
  ∧ NoDup variants
  ∧ Forall (fun ext => ext ≠ EmptyString ∧ JsString.toLowerCase ext = ext) variants.
Proof.
  unfold Hitomi.getHitomiImageVariants.
  set (e := JsString.toLowerCase _).
  assert (JsString.toLowerCase e = e) as He by apply toLowerCase_idem.
  clearbody e.
  destruct (Hitomi.haswebp file), (Hitomi.hasavif file); cbn [app];
    (destruct e as [|c r]; [|destruct (decide _) as [Hin|Hnin]]); cbn [app length];
    (split; [lia|split; [|repeat constructor; done]]);
    repeat (apply NoDup_cons; split;
              [rewrite ?elem_of_cons, ?elem_of_nil in *; intuition congruence|]);
      apply NoDup_nil_2.
Qed.

(** X2 ([resolveHitomiExtension] and [getHitomiImageVariants]): the
    extension used when no override is given is the first of the
    variants the viewer tries, so the URL without override is the URL
    of the first variant. *)
Theorem default_extension_first (file : Hitomi.HitomiFile)
    (serverMap : Hitomi.HitomiServerMap) :
  head (Hitomi.getHitomiImageVariants file) = Some (Hitomi.resolveHitomiExtension file)
  ∧ Hitomi.resolveHitomiImageUrl file serverMap None
    = Hitomi.resolveHitomiImageUrl file serverMap
        (Some (Hitomi.resolveHitomiExtension file)).
Proof.
  split; [|done].
  unfold Hitomi.getHitomiImageVariants, Hitomi.resolveHitomiExtension.
  destruct (Hitomi.haswebp file), (Hitomi.hasavif file); cbn [app];
    destruct (JsString.split_dot_pop _ _) as [|c r]; cbn [JsString.toLowerCase];
    try done; destruct (decide _) as [Hin|Hnin]; try done.
Qed.

(** X3 ([resolveHitomiImageUrl]): the override extension counts without
    regard to case: it gives the URL of its lower-case form. *)
Theorem override_case_insensitive (file : Hitomi.HitomiFile)
    (serverMap : Hitomi.HitomiServerMap) (ext : string) :
  Hitomi.resolveHitomiImageUrl file serverMap (Some (JsString.toLowerCase ext))
  = Hitomi.resolveHitomiImageUrl file serverMap (Some ext).
Proof.
  unfold Hitomi.resolveHitomiImageUrl. simpl. by rewrite toLowerCase_idem.
Qed.

(** ** The range of buckets *)
Section HashRange.
Import JsString Hitomi.
Local Open Scope string_scope.

Lemma drop_while_length f s :
  (String.length (drop_while f s) ≤ String.length s)%nat.
Proof. induction s as [|c s IH]; simpl; [done|]. destruct (f c); simpl; lia. Qed.

Lemma hex_prefix_value_bound s : ∀ acc seen v,
  0 ≤ acc → hex_prefix_value acc seen s = Some v →
  acc ≤ v < (acc + 1) * 16 ^ Z.of_nat (String.length s).
Proof.
  induction s as [|c s IH]; intros acc seen v Hacc; simpl hex_prefix_value.
  - destruct seen; [|done]. intros [= <-]. simpl. lia.
  - destruct (hex_digit c) as [d|] eqn:Hd.
    + destruct (hex_digit_plain _ _ Hd) as (_ & _ & _ & _ & _ & Hrange).
      intros Hv. apply IH in Hv; [|lia].
      replace (Z.of_nat (String.length (String c s)))
        with (Z.of_nat (String.length s) + 1) by (simpl; lia).
      rewrite Z.pow_add_r by lia.
      assert (0 < 16 ^ Z.of_nat (String.length s)) by (apply Z.pow_pos_nonneg; lia).
      nia.
    + destruct seen; [|done]. intros [= <-].
      assert (0 < 16 ^ Z.of_nat (String.length (String c s)))
        by (apply Z.pow_pos_nonneg; lia).
      nia.
Qed.

Lemma parseInt16_bound s b :
  (String.length s ≤ 3)%nat → parseInt16 s = Some b → -255 ≤ b ≤ 4095.
Proof.
  intros Hlen. unfold parseInt16.
  pose proof (drop_while_length is_space s) as Hskip. fold (skip_ws s) in Hskip.
  set (s1 := skip_ws s) in *.
  assert (∀ sign s2 : Z * string,
            True) as _ by done.
  assert (∀ (sign : Z) (s3 : string) n,
            (String.length s3 ≤ n)%nat → (n ≤ 3)%nat →
            (sign = 1 ∨ (sign = -1 ∧ (n ≤ 2)%nat)) →
            Z.mul sign <$> hex_prefix_value 0 false s3 = Some b → -255 ≤ b ≤ 4095) as Hval.
  { intros sign s3 n H3 Hn Hsign Hb.
    destruct (hex_prefix_value 0 false s3) as [v|] eqn:Hv; [|done].
    injection Hb as <-. apply hex_prefix_value_bound in Hv; [|lia].
    assert (16 ^ Z.of_nat (String.length s3) ≤ 16 ^ Z.of_nat n)
      by (apply Z.pow_le_mono_r; lia).
    destruct Hsign as [->|[-> Hn2]].
    - assert (16 ^ Z.of_nat n ≤ 16 ^ 3) by (apply Z.pow_le_mono_r; lia). lia.
    - assert (16 ^ Z.of_nat n ≤ 16 ^ 2) by (apply Z.pow_le_mono_r; lia). lia. }
  assert (∀ (sign : Z) (s2 : string) n,
            (String.length s2 ≤ n)%nat → (n ≤ 3)%nat →
            (sign = 1 ∨ (sign = -1 ∧ (n ≤ 2)%nat)) →
            Z.mul sign <$> hex_prefix_value 0 false
              match s2 with
              | String c (String x r) =>
                  if Ascii.eqb c "0" && (Ascii.eqb x "x" || Ascii.eqb x "X") then r else s2
              | _ => s2
              end = Some b → -255 ≤ b ≤ 4095) as Hpre.
  { intros sign s2 n H2 Hn Hsign. apply (Hval sign _ n); [|done|done].
    destruct s2 as [|c [|x r]]; [done|done|].
    destruct (_ && _); simpl in *; lia. }
  destruct s1 as [|c r] eqn:E1.
  - lazy beta iota zeta. apply (Hpre 1 EmptyString 3%nat); [simpl; lia|lia|by left].
  - simpl in Hskip.
    destruct (Ascii.eqb c "-"); [|destruct (Ascii.eqb c "+")]; lazy beta iota zeta.
    + apply (Hpre (-1) r 2%nat); [lia|lia|right; split; [done|lia]].
    + apply (Hpre 1 r 2%nat); [lia|lia|by left].
    + apply (Hpre 1 (String c r) 3%nat); [simpl; lia|lia|by left].
Qed.

Lemma string_last_three (h : string) :
  (3 ≤ String.length h)%nat →
  ∃ pre a b c, h = pre ++ String a (String b (String c EmptyString)).
Proof.
  induction h as [|x h IH]; simpl; [lia|]. intros Hlen.
  destruct (decide (3 ≤ String.length h)%nat) as [H3|H3].
  - destruct (IH H3) as (pre & a & b & c & ->). by exists (String x pre), a, b, c.
  - destruct h as [|y [|z [|w h]]]; simpl in *; try lia.
    by exists EmptyString, x, y, z.
Qed.

End HashRange.

(** X4 ([resolveHashNumber]): a bucket exists only for hashes of at
    least three characters and lies between -255 and 4095; the lower
    bound is met by a hash that ends in a minus sign after two
    hexadecimal digits. *)
Theorem bucket_range (hash : string) (bucket : Z) :
  Hitomi.resolveHashNumber hash = Some bucket →
  (3 ≤ String.length hash)%nat ∧ -255 ≤ bucket ≤ 4095.
Proof.
  unfold Hitomi.resolveHashNumber.
  destruct (String.length hash <? 3)%nat eqn:Hlen; [done|].
  apply Nat.ltb_ge in Hlen. intros Hb. split; [done|].
  destruct (string_last_three hash Hlen) as (pre & a & b & c & ->).
  rewrite hash_code in Hb. by apply parseInt16_bound in Hb.
Qed.

Lemma bucket_range_witness :
  (3 ≤ String.length "e3b0c44298ff-")%nat ∧ -255 ≤ -255 ≤ 4095.
Proof. apply (bucket_range "e3b0c44298ff-" (-255)). reflexivity. Defined.

(** ** What a parsed server map holds *)
Section ServerMapRange.
Import JsString Hitomi.
Local Open Scope string_scope.

Lemma matchAll_Forall {A} (P : A → Prop) (m : string → option (A * string)) :
  (∀ s a rest, m s = Some (a, rest) → P a) →
  ∀ s skip, Forall P (matchAll m skip s).
Proof.
  intros Hm. induction s as [|c s IH]; intros skip.
  - destruct skip; simpl; [|done].
    destruct (m EmptyString) as [[a rest]|] eqn:E; [|done].
    constructor; [by eapply Hm|done].
  - destruct skip; simpl; [|apply IH].
    destruct (m (String c s)) as [[a rest]|] eqn:E; [|apply IH].
    constructor; [by eapply Hm|apply IH].
Qed.

Lemma exec_Some {A} (m : string → option (A * string)) s a :
  exec m s = Some a → ∃ s' rest, m s' = Some (a, rest).
Proof.
  induction s as [|c s IH]; simpl.
  - destruct (m EmptyString) as [[a' rest]|] eqn:E; [|done].
    intros [= <-]. eauto.
  - destruct (m (String c s)) as [[a' rest]|] eqn:E; [|done].
    intros [= <-]. eauto.
Qed.

Lemma digit_run_nonneg s acc :
  0 ≤ acc →
  0 ≤ fold_left (fun acc c => 10 * acc + (code c - 48))
        (list_ascii_of_string (take_while is_digit s)) acc.
Proof.
  revert acc. induction s as [|c s IH]; intros acc Hacc; simpl; [done|].
  destruct (is_digit c) eqn:Hc; simpl; [|done].
  apply IH. unfold is_digit in Hc. lia.
Qed.

Lemma digits_plus_nonneg s d rest :
  digits_plus s = Some (d, rest) → 0 ≤ Number_digits d.
Proof.
  unfold digits_plus. destruct (take_while is_digit s) eqn:E; [done|].
  intros [= <- <-]. rewrite <- E. by apply digit_run_nonneg.
Qed.

Lemma assign_match_nonneg s v rest :
  assign_match s = Some (v, rest) → 0 ≤ Number_digits v.
Proof.
  unfold assign_match. intros H.
  apply bind_Some in H as (s1 & _ & H). apply bind_Some in H as (s2 & _ & H).
  by eapply digits_plus_nonneg.
Qed.

Lemma caseRegex_nonneg s k ov rest :
  caseRegex s = Some ((k, ov), rest) →
  0 ≤ Number_digits k ∧ ∀ v, ov = Some v → 0 ≤ Number_digits v.
Proof.
  unfold caseRegex. intros H.
  apply bind_Some in H as (s1 & _ & H). apply bind_Some in H as (s2 & _ & H).
  apply bind_Some in H as ([k' s3] & Hk & H). apply bind_Some in H as (s4 & _ & H).
  destruct (assign_match (skip_ws s4)) as [[v rest']|] eqn:Hv;
    injection H as <- <- <-.
  - split; [by eapply digits_plus_nonneg|]. intros ? [= <-].
    by eapply assign_match_nonneg.
  - split; [by eapply digits_plus_nonneg|done].
Qed.

Lemma ifRegex_nonneg s k v rest :
  ifRegex s = Some ((k, v), rest) → 0 ≤ Number_digits k ∧ 0 ≤ Number_digits v.
Proof.
  unfold ifRegex. intros H.
  apply bind_Some in H as (s1 & _ & H). apply bind_Some in H as (s2 & _ & H).
  apply bind_Some in H as (s3 & _ & H). apply bind_Some in H as (s4 & _ & H).
  apply bind_Some in H as ([k' s6] & Hk & H). apply bind_Some in H as (s7 & _ & H).
  apply bind_Some in H as ([v' rest'] & Hv & H). injection H as <- <- <-.
  split; [by eapply digits_plus_nonneg|by eapply assign_match_nonneg].
Qed.

Lemma defaultRegex_nonneg s v rest :
  defaultRegex s = Some (v, rest) → 0 ≤ Number_digits v.
Proof.
  unfold defaultRegex. intros H. apply bind_Some in H as (s1 & _ & H).
  by eapply assign_match_nonneg.
Qed.

Lemma foldl_insert_natural (v : Z) (keys : list Z) (m : gmap Z Z) :
  0 ≤ v → Forall (fun k => 0 ≤ k) keys → natural_map m →
  natural_map (foldl (fun acc storedKey => <[storedKey := v]> acc) m keys).
Proof.
  intros Hv Hkeys. revert m. induction Hkeys as [|k keys Hk _ IH]; intros m Hm; [done|].
  simpl. apply IH. by apply map_Forall_insert_2.
Qed.

Lemma case_pass_natural ms :
  Forall (fun m : string * option string =>
            0 ≤ Number_digits m.1 ∧ ∀ v, m.2 = Some v → 0 ≤ Number_digits v) ms →
  natural_map (case_pass ms).1.
Proof.
  intros Hms. unfold case_pass.
  assert (∀ st : gmap Z Z * list Z,
            natural_map st.1 → Forall (fun k => 0 ≤ k) st.2 →
            natural_map (foldl case_step st ms).1) as Hgen.
  { induction Hms as [|[k ov] ms [Hk Hv] _ IH]; intros [m keys] Hm Hkeys; [done|].
    simpl in *. apply IH; unfold case_step; simpl; destruct ov as [v|]; simpl.
    - apply foldl_insert_natural; [by apply Hv| |done].
      apply Forall_app. split; [done|by constructor].
    - done.
    - done.
    - apply Forall_app. split; [done|by constructor]. }
  apply Hgen; simpl; [apply map_Forall_empty|done].
Qed.

Lemma if_pass_natural base ifs :
  Forall (fun m : string * string => 0 ≤ Number_digits m.1 ∧ 0 ≤ Number_digits m.2) ifs →
  natural_map base → natural_map (foldl if_step base ifs).
Proof.
  intros Hifs. revert base.
  induction Hifs as [|[k v] ifs [Hk Hv] _ IH]; intros base Hbase; [done|].
  simpl. apply IH. unfold if_step. by apply map_Forall_insert_2.
Qed.

Lemma strip_trailing_slashes_last s r :
  strip_trailing_slashes s ≠ r ++ "/".
Proof.
  revert r. induction s as [|c s IH]; intros r; simpl.
  - by destruct r.
  - destruct (strip_trailing_slashes s) as [|c' s'] eqn:E.
    + destruct (Ascii.eqb_spec c "/") as [->|Hc]; [by destruct r|].
      destruct r as [|x [|y r]]; simpl; [intros [= ->]; done|done|done].
    + destruct r as [|x r]; simpl; [done|]. intros [= <- Hr]. by apply (IH r).
Qed.

Lemma strip_trailing_slashes_first c s' :
  Ascii.eqb c "/" = false →
  ∃ r, strip_trailing_slashes (String c s') = String c r.
Proof.
  intros Hc. simpl. destruct (strip_trailing_slashes s'); rewrite ?Hc; eauto.
Qed.

Lemma strip_slashes_trimmed s r :
  strip_slashes s ≠ "/" ++ r ∧ strip_slashes s ≠ r ++ "/".
Proof.
  split; [|apply strip_trailing_slashes_last].
  unfold strip_slashes. induction s as [|c s IH]; cbn [drop_while]; [done|].
  destruct (Ascii.eqb c "/") eqn:Hc; [done|].
  destruct (strip_trailing_slashes_first c s Hc) as [r' ->].
  simpl. intros [= -> _]. done.
Qed.

End ServerMapRange.

(** X5 ([parseServerMap]): every bucket and every server index of a
    parsed map is a natural number, and so is the default server, so
    the server number put in a URL (the index plus one) is at least 1
    for every bucket. *)
Theorem parsed_servers_natural (payload : string) (serverMap : Hitomi.HitomiServerMap) :
  Hitomi.parseServerMap payload = Some serverMap →
  (∀ bucket v, Hitomi.map serverMap !! bucket = Some v → 0 ≤ bucket ∧ 0 ≤ v)
  ∧ 0 ≤ Hitomi.defaultServer serverMap
  ∧ ∀ bucket,
      1 ≤ default (Hitomi.defaultServer serverMap) (Hitomi.map serverMap !! bucket) + 1.
Proof.
  unfold Hitomi.parseServerMap.
  destruct (JsString.exec Hitomi.baseRegex payload) as [base|]; [|done].
  intros [= <-]. cbn [Hitomi.map Hitomi.defaultServer].
  assert (natural_map
            (foldl Hitomi.if_step
               (Hitomi.case_pass (JsString.matchAll Hitomi.caseRegex 0 payload)).1
               (JsString.matchAll Hitomi.ifRegex 0 payload))) as Hmap.
  { apply if_pass_natural.
    - apply matchAll_Forall. intros s [k v] rest. apply ifRegex_nonneg.
    - apply case_pass_natural, matchAll_Forall.
      intros s [k ov] rest. apply caseRegex_nonneg. }
  assert (0 ≤ from_option JsString.Number_digits 0
                (JsString.exec Hitomi.defaultRegex payload)) as Hdefault.
  { destruct (JsString.exec Hitomi.defaultRegex payload) as [v|] eqn:E; [|done].
    apply exec_Some in E as (s' & rest & E). simpl. by eapply defaultRegex_nonneg. }
  split; [intros bucket v Hv; by apply (Hmap bucket v)|]. split; [done|].
  intros bucket. destruct (_ !! bucket) as [v|] eqn:Hv; simpl; [|lia].
  apply Hmap in Hv. lia.
Qed.

Lemma parsed_servers_natural_witness :
  ∃ serverMap, Hitomi.parseServerMap gg_payload_override = Some serverMap
    ∧ (∀ bucket v, Hitomi.map serverMap !! bucket = Some v → 0 ≤ bucket ∧ 0 ≤ v)
    ∧ 0 ≤ Hitomi.defaultServer serverMap
    ∧ ∀ bucket,
        1 ≤ default (Hitomi.defaultServer serverMap) (Hitomi.map serverMap !! bucket) + 1.
Proof.
  eexists. split; [reflexivity|].
  apply (parsed_servers_natural gg_payload_override). reflexivity.
Defined.

Lemma strip_trailing_slashes_only s :
  ∃ k, s = (Hitomi.strip_trailing_slashes s ++ slashes k)%string.
Proof.
  induction s as [|c s [k IH]]; simpl; [by exists O|].
  destruct (Hitomi.strip_trailing_slashes s) as [|c' s'] eqn:E.
  - simpl in IH. destruct (Ascii.eqb_spec c "/") as [->|Hc].
    + exists (S k). simpl. by rewrite IH at 1.
    + exists k. simpl. by rewrite IH at 1.
  - exists k. simpl. by rewrite IH at 1.
Qed.

Lemma strip_slashes_only s :
  ∃ n k, s = (slashes n ++ Hitomi.strip_slashes s ++ slashes k)%string.
Proof.
  unfold Hitomi.strip_slashes. induction s as [|c s (n & k & IH)].
  - by exists O, O.
  - cbn [JsString.drop_while]. destruct (Ascii.eqb_spec c "/") as [->|Hc].
    + exists (S n), k. simpl. by rewrite IH at 1.
    + destruct (strip_trailing_slashes_only (String c s)) as [k' Hk'].
      by exists O, k'.
Qed.

(** X6 ([parseServerMap]): the base path of a parsed map is the text
    captured between the quotes with only slashes removed, a run at its
    start and a run at its end; it neither begins nor ends with a
    slash. *)
Theorem base_path_trimmed (payload : string) (serverMap : Hitomi.HitomiServerMap)
    (r : string) :
  Hitomi.parseServerMap payload = Some serverMap →
  (∃ base n k,
     JsString.exec Hitomi.baseRegex payload = Some base
     ∧ base = (slashes n ++ Hitomi.basePath serverMap ++ slashes k)%string)
  ∧ Hitomi.basePath serverMap ≠ ("/" ++ r)%string
  ∧ Hitomi.basePath serverMap ≠ (r ++ "/")%string.
Proof.
  unfold Hitomi.parseServerMap.
  destruct (JsString.exec Hitomi.baseRegex payload) as [base|]; [|done].
  intros [= <-]. cbn [Hitomi.basePath]. split; [|apply strip_slashes_trimmed].
  destruct (strip_slashes_only base) as (n & k & Hbase). by exists base, n, k.
Qed.

Lemma base_path_trimmed_witness :
  ∃ serverMap, Hitomi.parseServerMap gg_payload = Some serverMap
    ∧ (∃ base n k,
         JsString.exec Hitomi.baseRegex gg_payload = Some base
         ∧ base = (slashes n ++ Hitomi.basePath serverMap ++ slashes k)%string)
    ∧ Hitomi.basePath serverMap ≠ "/1700000000"%string
    ∧ Hitomi.basePath serverMap ≠ "1700000000/"%string.
Proof.
  eexists. split; [reflexivity|].
  apply (base_path_trimmed gg_payload _ "1700000000"). reflexivity.
Defined.

(** ** Sessions of the download handler *)
Section SessionFacts.
Import ImageExport.

Lemma resolveFormatConfig_limits env format :
  0 < maxDimension (resolveFormatConfig env format)
  ∧ 0 < maxPixels (resolveFormatConfig env format).
Proof. unfold resolveFormatConfig. by destruct (supports env format), format. Qed.

(** With positive limits the split loop always gets a plan. *)
Lemma export_each_ends env formatConfig packaging split baseLabel indexWidth
    index images s :
  0 < maxDimension formatConfig → 0 < maxPixels formatConfig →
  export_each env formatConfig packaging split baseLabel indexWidth index images s
  ≠ Diverge.
Proof.
  intros Hdim Hpix. revert index s.
  induction images as [|entry rest IH]; intros index s; simpl; [done|].
  destruct (retrieve env index) as [| |w h]; [apply IH|done|].
  unfold TilePlanner.split_plan.
  destruct (TilePlanner.needsSplit _ _ _ _); [|apply IH].
  destruct (resolveTilePlan_total w h formatConfig Hdim Hpix) as (plan & -> & _).
  apply IH.
Qed.

Lemma writeOutput_pending fileName s :
  zip_pending s → zip_pending (writeOutput zip fileName s).
Proof.
  intros [Hd Hn]. split; [done|]. simpl.
  destruct (decide (fileName ∈ entries s)) as [Hin|Hnin]; [done|].
  apply NoDup_app. split; [done|]. split; [|apply NoDup_singleton].
  intros x Hx ->%list_elem_of_singleton. done.
Qed.

Lemma export_tile_pending env formatConfig baseLabel indexLabel plan s t :
  zip_pending s →
  zip_pending (export_tile env formatConfig zip baseLabel indexLabel plan s t).
Proof.
  intros Hs. destruct t as [[row col] crop]. unfold export_tile.
  destruct (negb (has_context env _ _)); [done|].
  destruct (negb (encodes env _ _)); [done|]. by apply writeOutput_pending.
Qed.

Lemma export_tiles_pending env formatConfig baseLabel indexLabel plan ts s :
  zip_pending s →
  zip_pending (foldl (export_tile env formatConfig zip baseLabel indexLabel plan) s ts).
Proof.
  revert s. induction ts as [|t ts IH]; intros s Hs; [done|].
  simpl. by apply IH, export_tile_pending.
Qed.

Lemma export_each_pending env formatConfig split baseLabel indexWidth index images s :
  zip_pending s →
  ending zip_pending
    (export_each env formatConfig zip split baseLabel indexWidth index images s).
Proof.
  revert index s. induction images as [|entry rest IH]; intros index s Hs; simpl; [done|].
  destruct (retrieve env index) as [| |w h]; [by apply IH|done|].
  destruct (TilePlanner.split_plan _ _ _ _) as [plan|]; [|done].
  by apply IH, export_tiles_pending.
Qed.

Lemma finalizeZip_one_archive baseLabel formatConfig suffix s :
  zip_pending s → one_archive (downloads (finalizeZip zip baseLabel formatConfig suffix s)).
Proof.
  intros [Hd Hn]. unfold finalizeZip. destruct (entries s) as [|e es] eqn:E.
  - left. exact Hd.
  - right. simpl. rewrite Hd. eexists _, _. split; [done|]. split; [done|exact Hn].
Qed.

Section Chunks.
Variables (env : Env) (formatConfig : ImageExportConfig) (baseLabel : string)
  (L : Layout).

Let pending (st : Chunks) : Prop := zip_pending (session st).

Lemma flushChunk_pending st :
  pending st → pending (flushChunk env formatConfig zip baseLabel L st).
Proof.
  unfold pending, flushChunk. simpl. intros Hs.
  destruct (encodes env _ _); [by apply writeOutput_pending|done].
Qed.

Lemma next_chunk_pending st :
  pending st → ending pending (next_chunk env formatConfig zip baseLabel L st).
Proof.
  intros Hs. apply flushChunk_pending in Hs. unfold next_chunk.
  destruct (openChunk env L _); exact Hs.
Qed.

Lemma draw_slices_pending fuel index : ∀ remainingHeight sourceOffsetY st,
  pending st →
  ending pending
    (draw_slices env formatConfig zip baseLabel L fuel index
       remainingHeight sourceOffsetY st).
Proof.
  induction fuel as [|fuel IH]; intros remainingHeight sourceOffsetY st Hs; simpl.
  - by destruct (Qle_bool remainingHeight 0).
  - destruct (Qle_bool remainingHeight 0); [done|].
    destruct (Qle_bool _ _).
    + pose proof (next_chunk_pending st Hs) as Hnext.
      destruct (next_chunk env formatConfig zip baseLabel L st) as [st1|st1|st1|];
        [|done..]. by apply IH.
    + by apply IH.
Qed.

Lemma draw_each_pending fuel dimensions : ∀ index st,
  pending st →
  ending pending (draw_each env formatConfig zip baseLabel L fuel index dimensions st).
Proof.
  induction dimensions as [|[dims preloaded] rest IH]; intros index st Hs; simpl; [done|].
  destruct (_ || _); [by apply IH|]. destruct (_ || _); [by apply IH|].
  destruct (if preloaded then _ else _); [by apply IH|done|].
  pose proof (draw_slices_pending fuel index
                (inject_Z (dim_height dims) * widthScale L)%Q 0%Q st Hs) as Hslices.
  destruct (draw_slices _ _ _ _ _ _ _ _ _ _) as [st1|st1|st1|]; [|done..].
  by apply IH.
Qed.

End Chunks.

(** In the [combine] branch a session that returns has made at most one
    archive; one that throws has saved nothing. *)
Lemma combine_images_archive env formatConfig baseLabel fuel images s :
  zip_pending s →
  match combine_images env formatConfig zip baseLabel fuel images s with
  | Continue st => False
  | Return st => one_archive (downloads (session st))
  | Throw st => downloads (session st) = []
  | Diverge => True
  end.
Proof.
  intros Hs. unfold combine_images.
  destruct (measure env 0 images 0) as [[dimensions combinedWidth]|]; [|apply Hs].
  destruct (Qle_bool _ 0); [left; apply Hs|].
  destruct (openChunk env _ 0) as [height|]; [|left; apply Hs].
  match goal with
  | |- context [draw_each ?e ?c ?p ?b ?l ?f ?i ?d ?st] =>
      pose proof (draw_each_pending e c b l f d i st Hs) as Heach;
      destruct (draw_each e c p b l f i d st) as [st1|st1|st1|]
  end; cbn [ending session] in *.
  - apply finalizeZip_one_archive.
    by apply (flushChunk_pending env formatConfig baseLabel _ st1).
  - left. apply Heach.
  - apply Heach.
  - done.
Qed.

Lemma combine_images_returns env formatConfig packaging baseLabel fuel images s st :
  combine_images env formatConfig packaging baseLabel fuel images s ≠ Continue st.
Proof.
  unfold combine_images.
  destruct (measure env 0 images 0) as [[dimensions combinedWidth]|]; [|done].
  destruct (Qle_bool _ 0); [done|].
  destruct (openChunk env _ 0) as [height|]; [|done].
  by destruct (draw_each _ _ _ _ _ _ _ _ _).
Qed.

Lemma export_session_archive env fuel format split combine baseLabel images :
  match export_session env fuel format zip split combine baseLabel images with
  | Continue s | Return s => one_archive (downloads s)
  | Throw s => downloads s = []
  | Diverge => True
  end.
Proof.
  assert (zip_pending {| entries := []; downloads := [] |}) as Hinit
    by (split; [done|apply NoDup_nil_2]).
  unfold export_session. destruct combine.
  - pose proof (combine_images_archive env (resolveFormatConfig env format) baseLabel
                  fuel images _ Hinit) as H.
    destruct (combine_images _ _ _ _ _ _ _) as [st|st|st|]; [done|exact H..].
  - pose proof (export_each_pending env (resolveFormatConfig env format) split baseLabel
                  (String.length (images_count images)) 0 images _ Hinit) as H.
    destruct (export_each _ _ _ _ _ _ _ _ _) as [s|s|s|] eqn:E.
    + by apply finalizeZip_one_archive.
    + by apply export_each_no_return in E.
    + apply H.
    + done.
Qed.

End SessionFacts.


(** X8 ([writeOutput] and [finalizeZip] with [zip] packaging): a request
    hands at most one file to [triggerDownload]: an archive that is not
    empty and holds every entry name once.  When the session throws,
    nothing is saved, whatever was encoded before. *)
Theorem zip_one_archive (env : ImageExport.Env) (fuel : nat)
    (format : ImageExport.ImageExportFormat) (split combine : bool)
    (baseLabel : string) (images : list ImageExport.HitomiImageEntry)
    (v v' : ImageExport.Viewer) :
  ImageExport.handleDownloadImages env fuel format ImageExport.zip split combine
    baseLabel images v = Some v' →
  (∃ new, ImageExport.saved v' = ImageExport.saved v ++ new ∧ one_archive new)
  ∧ (∀ s, ImageExport.export_session env fuel format ImageExport.zip split combine
            baseLabel images = ImageExport.Throw s →
          ImageExport.saved v' = ImageExport.saved v).
Proof.
  unfold ImageExport.handleDownloadImages, ImageExport.begin_download.
  destruct images as [|e images].
  { intros [= <-]. simpl. split; [|done]. exists []. split; [by rewrite app_nil_r|by left]. }
  destruct (ImageExport.downloadLock v) eqn:Hlock.
  { intros [= <-]. simpl. split; [|done]. exists []. split; [by rewrite app_nil_r|by left]. }
  pose proof (export_session_archive env fuel format split combine baseLabel
                (e :: images)) as H.
  destruct (ImageExport.export_session _ _ _ _ _ _ _ _) as [s|s|s|];
    simpl; [| | |done]; intros [= <-]; simpl.
  - split; [by exists (ImageExport.downloads s)|done].
  - split; [by exists (ImageExport.downloads s)|done].
  - rewrite H, app_nil_r. split; [|done]. exists []. split; [by rewrite app_nil_r|by left].
Qed.

Lemma zip_one_archive_witness :
  (∃ new,
     [ImageExport.SavedZip "gallery-combined-png.zip" ["gallery-combined.png"%string]]
     = ImageExport.saved idle_viewer ++ new
     ∧ one_archive new)
  ∧ (∀ s, ImageExport.export_session (all_load 800 1200) 10 ImageExport.png
            ImageExport.zip false true "gallery" [page; page] = ImageExport.Throw s →
          [ImageExport.SavedZip "gallery-combined-png.zip" ["gallery-combined.png"%string]]
          = ImageExport.saved idle_viewer).
Proof.
  apply (zip_one_archive (all_load 800 1200) 10 ImageExport.png false true "gallery"
           [page; page] idle_viewer
           {| ImageExport.downloadLock := false;
              ImageExport.isDownloading := false;
              ImageExport.toasts :=
                [ImageExport.ToastLoading 0 "Preparing to download 2 images..."];
              ImageExport.saved :=
                [ImageExport.SavedZip "gallery-combined-png.zip"
                   ["gallery-combined.png"%string]] |}).
  vm_compute. reflexivity.
Defined.

(** X9 (the [combine] branch of [handleDownloadImages]): a request with
    [combine] never shows the success toast.  When it ends without an
    exception it has only added the loading toast, which it leaves in
    place; otherwise it dismisses it and shows the error toast. *)
Theorem combine_never_reports_success (env : ImageExport.Env) (fuel : nat)
    (format : ImageExport.ImageExportFormat) (packaging : ImageExport.ImagePackaging)
    (split : bool) (baseLabel : string) (images : list ImageExport.HitomiImageEntry)
    (v v' : ImageExport.Viewer) :
  images ≠ [] → ImageExport.downloadLock v = false →
  ImageExport.handleDownloadImages env fuel format packaging split true
    baseLabel images v = Some v' →
  let loading :=
    ImageExport.ToastLoading (length (ImageExport.toasts v))
      ("Preparing to download " ++ JsString.String_of_int (Z.of_nat (length images))
       ++ " images...")%string in
  ImageExport.toasts v' = ImageExport.toasts v ++ [loading]
  ∨ ImageExport.toasts v'
    = ImageExport.toasts v
      ++ [loading; ImageExport.ToastDismiss (length (ImageExport.toasts v));
          ImageExport.ToastError "Download failed. Please try again."].
Proof.
  intros Hne Hlock. unfold ImageExport.handleDownloadImages, ImageExport.begin_download.
  destruct images as [|e images]; [done|]. rewrite Hlock.
  unfold ImageExport.export_session.
  destruct (ImageExport.combine_images _ _ _ _ _ _ _) as [st|st|st|] eqn:E.
  - by apply combine_images_returns in E.
  - simpl. intros [= <-]. left. simpl. by rewrite app_nil_r.
  - simpl. intros [= <-]. right. simpl. by rewrite <- app_assoc.
  - done.
Qed.

Lemma combine_never_reports_success_witness :
  [ImageExport.ToastLoading 0 "Preparing to download 2 images..."]
  = ImageExport.toasts idle_viewer
    ++ [ImageExport.ToastLoading (length (ImageExport.toasts idle_viewer))
          ("Preparing to download "
           ++ JsString.String_of_int (Z.of_nat (length [page; page])) ++ " images...")%string]
  ∨ [ImageExport.ToastLoading 0 "Preparing to download 2 images..."]
    = ImageExport.toasts idle_viewer
      ++ [ImageExport.ToastLoading (length (ImageExport.toasts idle_viewer))
            ("Preparing to download "
             ++ JsString.String_of_int (Z.of_nat (length [page; page])) ++ " images...")%string;
          ImageExport.ToastDismiss (length (ImageExport.toasts idle_viewer));
          ImageExport.ToastError "Download failed. Please try again."].
Proof.
  apply (combine_never_reports_success (all_load 800 1200) 10 ImageExport.png
           ImageExport.single false "gallery" [page; page] idle_viewer
           {| ImageExport.downloadLock := false;
              ImageExport.isDownloading := false;
              ImageExport.toasts :=
                [ImageExport.ToastLoading 0 "Preparing to download 2 images..."];
              ImageExport.saved := [ImageExport.SavedFile "gallery-combined.png"] |});
    [discriminate | reflexivity | vm_compute; reflexivity].
Defined.

(** ** The canvases of the composite stitcher *)
Section CanvasLimits.
Import ImageExport.

Lemma Qfloor_inject_half a : Qfloor (inject_Z a + (1 # 2))%Q = a.
Proof.
  unfold Qfloor, Qplus, inject_Z; simpl.
  symmetry. apply (Z.div_unique_pos _ 2 a 1); lia.
Qed.

(** The canvas width is the widest image's width, or [maxDimension]
    when that is smaller. *)
Lemma scaledWidth_value formatConfig dimensions combinedWidth :
  1 ≤ maxDimension formatConfig →
  scaledWidth (layout formatConfig dimensions combinedWidth)
  = Z.min (Z.max 1 (if combinedWidth =? 0 then 1 else combinedWidth))
          (maxDimension formatConfig).
Proof.
  intros HD. unfold layout. cbn [scaledWidth].
  set (W := Z.max 1 (if combinedWidth =? 0 then 1 else combinedWidth)).
  assert (1 ≤ W) by (subst W; lia).
  destruct (Z.gtb_spec W (maxDimension formatConfig)) as [Hgt|Hle].
  - rewrite (Qfloor_comp _ (inject_Z (maxDimension formatConfig) + (1 # 2))%Q).
    + rewrite Qfloor_inject_half. lia.
    + apply Qplus_comp; [|reflexivity]. apply Qmult_div_r.
      unfold Qeq, inject_Z; simpl. lia.
  - rewrite Qmult_inject_1, Qfloor_inject_half. lia.
Qed.

Lemma layout_within_limits formatConfig dimensions combinedWidth :
  1 ≤ maxDimension formatConfig → maxDimension formatConfig ≤ maxPixels formatConfig →
  let L := layout formatConfig dimensions combinedWidth in
  1 ≤ scaledWidth L ≤ maxDimension formatConfig
  ∧ 1 ≤ chunkHeight L ≤ maxDimension formatConfig
  ∧ scaledWidth L * chunkHeight L ≤ maxPixels formatConfig.
Proof.
  intros HD HP L.
  pose proof (scaledWidth_value formatConfig dimensions combinedWidth HD) as Hw.
  fold L in Hw.
  assert (1 ≤ scaledWidth L ≤ maxDimension formatConfig) as Hrange by lia.
  assert (chunkHeight L
          = Z.max 1 (Z.min (maxDimension formatConfig)
                       (maxPixels formatConfig / scaledWidth L))) as Hh by done.
  assert (1 ≤ maxPixels formatConfig / scaledWidth L).
  { apply Z.div_le_lower_bound; lia. }
  assert (scaledWidth L * (maxPixels formatConfig / scaledWidth L)
          ≤ maxPixels formatConfig) by (apply Z.mul_div_le; lia).
  split; [done|]. split; [lia|]. nia.
Qed.

Section Loop.
Variables (env : Env) (formatConfig : ImageExportConfig)
  (packaging : ImagePackaging) (baseLabel : string) (L : Layout).
Hypothesis Hchunk : 1 ≤ chunkHeight L.

Let H := chunkHeight L.
Let open (st : Chunks) : Prop := 1 ≤ canvas st ≤ H ∧ canvases_within H st.
Let within (flow : Flow Chunks) : Prop :=
  match flow with
  | Continue st => open st
  | Return st | Throw st => canvases_within H st
  | Diverge => True
  end.

Lemma openChunk_within index height :
  openChunk env L index = Some height → 1 ≤ height ≤ H.
Proof.
  unfold openChunk. destruct (has_context env _ _); [|done]. intros [= <-].
  split; [lia|]. apply Z.max_lub; [done|].
  etrans; [apply Qceiling_resp_le, Q.le_min_l|]. rewrite Qceiling_Z. unfold H. lia.
Qed.

Lemma flushChunk_within st :
  open st → canvases_within H (flushChunk env formatConfig packaging baseLabel L st).
Proof.
  intros [Hc Hf]. unfold canvases_within, flushChunk. simpl.
  apply Forall_app. split; [done|]. by constructor.
Qed.

Lemma next_chunk_within st :
  open st → within (next_chunk env formatConfig packaging baseLabel L st).
Proof.
  intros Hst. pose proof (flushChunk_within st Hst) as Hflush. unfold next_chunk.
  destruct (openChunk env L _) as [height|] eqn:Hopen; simpl; [|done].
  split; [by eapply openChunk_within|done].
Qed.

Lemma draw_slices_within fuel index : ∀ remainingHeight sourceOffsetY st,
  open st →
  within (draw_slices env formatConfig packaging baseLabel L fuel index
            remainingHeight sourceOffsetY st).
Proof.
  induction fuel as [|fuel IH]; intros remainingHeight sourceOffsetY st Hst; simpl.
  - by destruct (Qle_bool remainingHeight 0).
  - destruct (Qle_bool remainingHeight 0); [done|].
    destruct (Qle_bool _ _).
    + pose proof (next_chunk_within st Hst) as Hnext.
      destruct (next_chunk env formatConfig packaging baseLabel L st)
        as [st1|st1|st1|]; [|done..].
      by apply IH.
    + by apply IH.
Qed.

Lemma draw_each_within fuel dimensions : ∀ index st,
  open st →
  within (draw_each env formatConfig packaging baseLabel L fuel index dimensions st).
Proof.
  induction dimensions as [|[dims preloaded] rest IH]; intros index st Hst; simpl; [done|].
  destruct (_ || _); [by apply IH|]. destruct (_ || _); [by apply IH|].
  destruct (if preloaded then _ else _); [by apply IH|apply Hst|].
  pose proof (draw_slices_within fuel index
                (inject_Z (dim_height dims) * widthScale L)%Q 0%Q st Hst) as Hslices.
  destruct (draw_slices _ _ _ _ _ _ _ _ _ _) as [st1|st1|st1|]; [|done..].
  by apply IH.
Qed.

End Loop.

End CanvasLimits.

(** X10 (the canvases of the [combine] branch): under limits with
    [1 <= maxDimension <= maxPixels], which every format of the table
    has, the canvas width [scaledWidth] and the chunk height are between
    1 and [maxDimension] and their product is at most [maxPixels]; and
    however the branch ends, every canvas it has given to [flushChunk]
    is between 1 and [chunkHeight] pixels high, also when the images
    are scaled down. *)
Theorem composite_canvases_within_limits (formatConfig : ImageExportConfig) :
  1 ≤ maxDimension formatConfig → maxDimension formatConfig ≤ maxPixels formatConfig →
  (∀ dimensions combinedWidth,
     let L := ImageExport.layout formatConfig dimensions combinedWidth in
     1 ≤ ImageExport.scaledWidth L ≤ maxDimension formatConfig
     ∧ 1 ≤ ImageExport.chunkHeight L ≤ maxDimension formatConfig
     ∧ ImageExport.scaledWidth L * ImageExport.chunkHeight L ≤ maxPixels formatConfig)
  ∧ (∀ env packaging baseLabel fuel images s dimensions combinedWidth,
       ImageExport.measure env 0 images 0 = Some (dimensions, combinedWidth) →
       ending (canvases_within
                 (ImageExport.chunkHeight
                    (ImageExport.layout formatConfig dimensions combinedWidth)))
         (ImageExport.combine_images env formatConfig packaging baseLabel fuel images s)).
Proof.
  intros HD HP. split; [intros; by apply layout_within_limits|].
  intros env packaging baseLabel fuel images s dimensions combinedWidth Hmeasure.
  unfold ImageExport.combine_images. rewrite Hmeasure.
  set (L := ImageExport.layout formatConfig dimensions combinedWidth).
  assert (1 ≤ ImageExport.chunkHeight L) as Hchunk
    by apply (layout_within_limits formatConfig dimensions combinedWidth HD HP).
  destruct (Qle_bool _ 0); [by constructor|].
  destruct (ImageExport.openChunk env L 0) as [height|] eqn:Hopen; [|by constructor].
  match goal with
  | |- context [ImageExport.draw_each ?e ?c ?p ?b ?l ?f ?i ?d ?st] =>
      assert (1 ≤ ImageExport.canvas st ≤ ImageExport.chunkHeight L
              ∧ canvases_within (ImageExport.chunkHeight L) st) as Hst
        by (split; [by eapply openChunk_within|by constructor]);
      pose proof (draw_each_within e c p b l Hchunk f d i st Hst) as Heach;
      destruct (ImageExport.draw_each e c p b l f i d st) as [st1|st1|st1|]
  end; cbn [ending] in *; [|done..].
  by apply (flushChunk_within env formatConfig packaging baseLabel L).
Qed.

Lemma composite_canvases_within_limits_witness :
  (∀ dimensions combinedWidth,
     let L := ImageExport.layout png_config dimensions combinedWidth in
     1 ≤ ImageExport.scaledWidth L ≤ maxDimension png_config
     ∧ 1 ≤ ImageExport.chunkHeight L ≤ maxDimension png_config
     ∧ ImageExport.scaledWidth L * ImageExport.chunkHeight L ≤ maxPixels png_config)
  ∧ (∀ env packaging baseLabel fuel images s dimensions combinedWidth,
       ImageExport.measure env 0 images 0 = Some (dimensions, combinedWidth) →
       ending (canvases_within
                 (ImageExport.chunkHeight
                    (ImageExport.layout png_config dimensions combinedWidth)))
         (ImageExport.combine_images env png_config packaging baseLabel fuel images s)).
Proof. apply (composite_canvases_within_limits png_config); vm_compute; discriminate. Defined.

(** ** Escaping for HTML *)
Section EscapeHtml.
Import JsString Text Download.
Local Open Scope string_scope.

Lemma every_app f s t : every f (s ++ t) = every f s && every f t.
Proof. induction s as [|c s IH]; simpl; [done|]. by rewrite IH, andb_assoc. Qed.

Lemma escape_char_safe c : every (fun x => negb (html_delimiter x)) (escape_char c) = true.
Proof. destruct c as [[] [] [] [] [] [] [] []]; vm_compute; reflexivity. Qed.

Lemma escape_char_plain c : html_special c = false → escape_char c = String c EmptyString.
Proof. destruct c as [[] [] [] [] [] [] [] []]; vm_compute; done. Qed.

(** The replacement of a character tells the character: an entity by
    its second character, a plain character by itself. *)
Lemma escape_char_inj c c' s s' :
  escape_char c ++ s = escape_char c' ++ s' → c = c' ∧ s = s'.
Proof.
  destruct (html_special c) eqn:Hc, (html_special c') eqn:Hc'.
  - destruct c as [[] [] [] [] [] [] [] []]; try discriminate Hc;
      destruct c' as [[] [] [] [] [] [] [] []]; try discriminate Hc';
      vm_compute; intros [=]; by subst.
  - rewrite (escape_char_plain c' Hc').
    destruct c as [[] [] [] [] [] [] [] []]; try discriminate Hc;
      simpl; intros [= <-]; discriminate Hc'.
  - rewrite (escape_char_plain c Hc).
    destruct c' as [[] [] [] [] [] [] [] []]; try discriminate Hc';
      simpl; intros [= ->]; discriminate Hc.
  - rewrite (escape_char_plain c Hc), (escape_char_plain c' Hc').
    intros [= -> Hs]. by split.
Qed.

Lemma escape_char_nonempty c : ∃ x r, escape_char c = String x r.
Proof. destruct c as [[] [] [] [] [] [] [] []]; vm_compute; eauto. Qed.

End EscapeHtml.

(** X11 ([escapeHtml]): the escaped text holds no angle bracket and no
    quote of either kind; a text without the five special characters
    is left as it is; and escaping loses nothing: two texts with the
    same escaped form are the same text. *)
Theorem escapeHtml_safe :
  (∀ value, every (fun c => negb (html_delimiter c)) (Download.escapeHtml value) = true)
  ∧ (∀ value, every (fun c => negb (html_special c)) value = true →
              Download.escapeHtml value = value)
  ∧ (∀ value value', Download.escapeHtml value = Download.escapeHtml value' →
                     value = value').
Proof.
  split; [|split].
  - induction value as [|c s IH]; simpl; [done|].
    by rewrite every_app, escape_char_safe, IH.
  - induction value as [|c s IH]; simpl; [done|].
    intros [Hc Hs]%andb_true_iff. apply negb_true_iff in Hc.
    rewrite escape_char_plain by done. simpl. by rewrite IH.
  - induction value as [|c s IH]; intros [|c' s']; simpl.
    + done.
    + by destruct (escape_char_nonempty c') as (x & r & ->).
    + by destruct (escape_char_nonempty c) as (x & r & ->).
    + intros [-> Hs]%escape_char_inj. by rewrite (IH s' Hs).
Qed.

(** ** The image proxy *)
Section ImageProxyFacts.
Import JsString Text ImageProxy.
Local Open Scope string_scope.

Lemma digit_no_space c : is_digit c = true → is_space c = false.
Proof. unfold is_digit, is_space. lia. Qed.

Lemma every_impl (f g : ascii → bool) s :
  (∀ c, f c = true → g c = true) → every f s = true → every g s = true.
Proof.
  intros Hfg. induction s as [|c s IH]; simpl; [done|].
  intros [Hc Hs]%andb_true_iff. by rewrite (Hfg c Hc), IH.
Qed.

Lemma drop_while_every f s : drop_while f s = EmptyString ↔ every f s = true.
Proof.
  induction s as [|c s IH]; simpl; [done|].
  destruct (f c); simpl; [done|]. split; discriminate.
Qed.

Lemma trim_end_fixed s :
  every (fun c => negb (is_space c)) s = true → trim_end s = s.
Proof.
  induction s as [|c s IH]; simpl; [done|].
  intros [Hc Hs]%andb_true_iff. rewrite (IH Hs).
  apply negb_true_iff in Hc. rewrite Hc. by destruct s.
Qed.

Lemma trim_fixed s : every (fun c => negb (is_space c)) s = true → trim s = s.
Proof.
  intros Hs. unfold trim, skip_ws.
  replace (drop_while is_space s) with s; [by apply trim_end_fixed|].
  destruct s as [|c s]; simpl in *; [done|].
  apply andb_true_iff in Hs as [Hc _]. apply negb_true_iff in Hc. by rewrite Hc.
Qed.

Lemma validateGalleryId_digits gid cleaned :
  validateGalleryId gid = Some cleaned →
  every is_digit cleaned = true ∧ (1 ≤ String.length cleaned ≤ 20)%nat.
Proof.
  unfold validateGalleryId. destruct gid as [[|g0 g]|]; [done| |done].
  destruct (trim (String g0 g)) as [|c s] eqn:Htrim; [done|].
  destruct (drop_while is_digit (String c s)) eqn:Hdigits; [|done].
  destruct (20 <? String.length (String c s))%nat eqn:Hlen; [done|].
  intros [= <-]. apply Nat.ltb_ge in Hlen.
  split; [by apply drop_while_every|]. simpl in *. lia.
Qed.

Lemma validateGalleryId_accepts cleaned :
  every is_digit cleaned = true → (1 ≤ String.length cleaned ≤ 20)%nat →
  validateGalleryId (Some cleaned) = Some cleaned.
Proof.
  intros Hdigits Hlen. unfold validateGalleryId.
  destruct cleaned as [|c s]; [simpl in Hlen; lia|].
  rewrite trim_fixed.
  - apply drop_while_every in Hdigits. rewrite Hdigits.
    replace (20 <? String.length (String c s))%nat with false; [done|].
    symmetry. apply Nat.ltb_ge. lia.
  - eapply every_impl; [|done]. intros x Hx. by rewrite (digit_no_space x Hx).
Qed.

Lemma string_app_assoc (s t u : string) : s ++ t ++ u = (s ++ t) ++ u.
Proof.
  induction s as [|c s IH]; [done|].
  change (String c (s ++ t ++ u) = String c ((s ++ t) ++ u)). by f_equal.
Qed.

Lemma endsWith_app suffix p : endsWith suffix (p ++ suffix) = true.
Proof.
  induction p as [|c p IH]; simpl.
  - destruct suffix; simpl; [done|]. by rewrite Ascii.eqb_refl, String.eqb_refl.
  - rewrite IH. apply orb_true_r.
Qed.

Lemma includes_app c s t : includes c (s ++ t) = includes c s || includes c t.
Proof. induction s as [|x s IH]; simpl; [done|]. by rewrite IH, orb_assoc. Qed.

Lemma every_excludes f c s : every f s = true → f c = false → includes c s = false.
Proof.
  intros Hs Hc. induction s as [|x s IH]; simpl in *; [done|].
  apply andb_true_iff in Hs as [Hx Hs]. rewrite (IH Hs), orb_false_r.
  destruct (Ascii.eqb_spec x c) as [->|]; [congruence|done].
Qed.

Lemma string_of_uint_digits d : every is_digit (NilEmpty.string_of_uint d) = true.
Proof. induction d; simpl; done. Qed.

(** [String(n)] is a digit or a minus sign, then digits. *)
Lemma String_of_int_shape n :
  ∃ x r, String_of_int n = String x r
         ∧ (is_digit x || Ascii.eqb x "-") = true ∧ every is_digit r = true.
Proof.
  unfold String_of_int, NilZero.string_of_int.
  assert (∀ d, ∃ x r, NilZero.string_of_uint d = String x r
                      ∧ is_digit x = true ∧ every is_digit r = true) as Huint.
  { intros d. pose proof (string_of_uint_digits d) as Hd.
    destruct d; simpl in *; eauto. }
  destruct (Z.to_int n) as [d|d].
  - destruct (Huint d) as (x & r & -> & Hx & Hr). exists x, r. by rewrite Hx.
  - destruct (Huint d) as (x & r & Hd & Hx & Hr). eexists _, _. split; [done|].
    split; [done|]. rewrite Hd. simpl. by rewrite Hx.
Qed.

Lemma startsWith_first (a b : ascii) p s :
  Ascii.eqb a b = false → startsWith (String a p) (String b s) = false.
Proof. intros H. unfold startsWith. simpl. by rewrite H. Qed.

Lemma startsWith_second (a a' b b' : ascii) p s :
  Ascii.eqb a' b' = false →
  startsWith (String a (String a' p)) (String b (String b' s)) = false.
Proof. intros H. unfold startsWith. simpl. rewrite H. by destruct (Ascii.eqb a b). Qed.

Lemma letter_facts c :
  lower_letter c = true →
  Ascii.eqb "1" c = false ∧ Ascii.eqb ":" c = false ∧ Ascii.eqb c "/" = false
  ∧ c ≠ "1"%char ∧ c ≠ ":"%char.
Proof. destruct c as [[] [] [] [] [] [] [] []]; vm_compute; intros [=]; done. Qed.

Lemma sign_facts x :
  (is_digit x || Ascii.eqb x "-") = true →
  Ascii.eqb "c" x = false ∧ Ascii.eqb "d" x = false ∧ Ascii.eqb x "/" = false
  ∧ x ≠ "o"%char.
Proof. destruct x as [[] [] [] [] [] [] [] []]; vm_compute; intros [=]; done. Qed.

(** A host made of a lower-case letter, an integer, a dot and the image
    domain passes both host checks of the route. *)
Lemma letter_host_passes (c : ascii) (n : Z) :
  lower_letter c = true →
  let host := String c EmptyString ++ String_of_int n ++ "." ++ ALLOWED_HOST in
  includes "/" host = false ∧ isAllowedHost host = true ∧ isPrivateIP host = false.
Proof.
  intros Hc host.
  destruct (letter_facts c Hc) as (Hc1 & Hc2 & Hc3 & Hc4 & Hc5).
  destruct (String_of_int_shape n) as (x & r & Hn & Hx & Hr).
  destruct (sign_facts x Hx) as (Hx1 & Hx2 & Hx3 & Hx4).
  split; [|split].
  - subst host. rewrite Hn. simpl. rewrite Hc3, Hx3. simpl.
    rewrite includes_app. rewrite (every_excludes is_digit "/" r Hr) by done. done.
  - unfold isAllowedHost. subst host.
    rewrite (string_app_assoc (String c EmptyString)).
    rewrite (endsWith_app ("." ++ ALLOWED_HOST)).
    apply orb_true_r.
  - unfold isPrivateIP. subst host. rewrite Hn.
    change (String c EmptyString ++ String x r ++ "." ++ ALLOWED_HOST)
      with (String c (String x (r ++ "." ++ ALLOWED_HOST))).
    replace (String.eqb _ "localhost") with false
      by (symmetry; apply String.eqb_neq; intros [= _ ?]; done).
    replace (String.eqb _ "127.0.0.1") with false
      by (symmetry; apply String.eqb_neq; intros [= ? _]; done).
    replace (String.eqb _ "::") with false
      by (symmetry; apply String.eqb_neq; intros [= ? _]; done).
    rewrite !(startsWith_first "1" c) by done.
    rewrite !(startsWith_first ":" c) by done.
    rewrite (startsWith_second "f" "c" c x), (startsWith_second "f" "d" c x) by done.
    done.
Qed.

End ImageProxyFacts.


(** X13 ([resolveHitomiImageUrl] against [isAllowedHost] and
    [isPrivateIP]): when the extension begins with a lower-case letter,
    the URL is [https://], a host without a slash, a slash and a path,
    and that host passes both host checks of the proxy route: it is
    allowed and it is not taken for a private address. *)
Theorem resolved_host_passes_proxy (file : Hitomi.HitomiFile)
    (serverMap : Hitomi.HitomiServerMap) (overrideExt : option string)
    (url : string) (c : ascii) (rest : string) :
  Hitomi.resolveHitomiImageUrl file serverMap overrideExt = Some url →
  JsString.toLowerCase (default (Hitomi.resolveHitomiExtension file) overrideExt)
  = String c rest →
  lower_letter c = true →
  ∃ host path,
    url = ("https://" ++ host ++ "/" ++ path)%string
    ∧ Text.includes "/" host = false
    ∧ ImageProxy.isAllowedHost host = true
    ∧ ImageProxy.isPrivateIP host = false.
Proof.
  intros Hurl Hext Hc. unfold Hitomi.resolveHitomiImageUrl in Hurl.
  destruct (Hitomi.hash file) as [[|h0 hash]|]; [done| |done].
  destruct (Hitomi.resolveHashNumber (String h0 hash)) as [bucket|]; [|done].
  cbn [mbind option_bind] in Hurl. rewrite Hext in Hurl. injection Hurl as <-.
  set (serverId := default _ _ + 1).
  exists (String c EmptyString ++ JsString.String_of_int serverId ++ "."
          ++ ImageProxy.ALLOWED_HOST)%string.
  exists (Hitomi.basePath serverMap ++ "/" ++ JsString.String_of_int bucket ++ "/"
          ++ String h0 hash ++ "." ++ String c rest)%string.
  split; [|by apply letter_host_passes].
  change Hitomi.HITOMI_IMAGE_DOMAIN with ImageProxy.ALLOWED_HOST.
  by rewrite <- !string_app_assoc.
Qed.

Lemma resolved_host_passes_proxy_witness :
  ∃ host path,
    "https://w6.gold-usergeneratedcontent.net/1700000000/786/abc123.webp"%string
    = ("https://" ++ host ++ "/" ++ path)%string
    ∧ Text.includes "/" host = false
    ∧ ImageProxy.isAllowedHost host = true
    ∧ ImageProxy.isPrivateIP host = false.
Proof.
  apply (resolved_host_passes_proxy
           {| Hitomi.name := Some "001.jpg"%string; Hitomi.hash := Some "abc123"%string;
              Hitomi.haswebp := true; Hitomi.hasavif := false;
              Hitomi.width := None; Hitomi.height := None |}
           {| Hitomi.map := {[ 786 := 5 ]}; Hitomi.basePath := "1700000000";
              Hitomi.defaultServer := 0 |}
           None _ "w" "ebp"); reflexivity.
Defined.

(** ** File names of the export *)
Section FileNames.
Import JsString Text GalleryViewer.
Local Open Scope string_scope.

Lemma single_app (c : ascii) (s : string) : String c EmptyString ++ s = String c s.
Proof. reflexivity. Qed.

Lemma replace_runs_cons f replacement in_run c s :
  replace_runs f replacement in_run (String c s)
  = if f c then (if in_run then EmptyString else replacement)
                ++ replace_runs f replacement true s
    else String c (replace_runs f replacement false s).
Proof. reflexivity. Qed.

Lemma replace_runs_every f g replacement s : ∀ in_run,
  every g replacement = true →
  every (fun c => f c || g c) s = true →
  every g (replace_runs f replacement in_run s) = true.
Proof.
  intros in_run Hr. revert in_run.
  induction s as [|c s IH]; intros in_run Hs; [done|].
  simpl in Hs. apply andb_true_iff in Hs as [Hc Hs].
  rewrite replace_runs_cons. destruct (f c) eqn:Hf.
  - rewrite every_app, (IH true Hs). by destruct in_run; rewrite ?Hr.
  - simpl in *. by rewrite Hc, (IH false Hs).
Qed.

Lemma space_code c : is_space c = true → (code c =? 32)%Z = true → c = " "%char.
Proof. destruct c as [[] [] [] [] [] [] [] []]; vm_compute; done. Qed.

Lemma space_plain : not_forbidden " " = true ∧ not_forbidden "-" = true
                    ∧ is_space " " = true ∧ is_space "-" = false.
Proof. by vm_compute. Qed.

(** After the second replacement white space is single spaces. *)
Lemma replace_spaces_spaced s : ∀ in_run,
  spaced true (replace_runs is_space " " in_run s) = true
  ∧ (in_run = true → starts_clean (replace_runs is_space " " in_run s) = true).
Proof.
  induction s as [|c s IH]; intros in_run; [done|].
  rewrite replace_runs_cons. destruct (is_space c) eqn:Hc.
  - destruct (IH true) as [Hs Hstart]. specialize (Hstart eq_refl).
    destruct in_run.
    + split; [exact Hs|done].
    + split; [|done]. rewrite single_app. simpl.
      rewrite Hs, andb_true_r.
      by destruct (replace_runs is_space " " true s).
  - destruct (IH false) as [Hs _]. split.
    + simpl. by rewrite Hc, Hs.
    + intros _. simpl. by rewrite Hc.
Qed.

Lemma every_drop_while g f s : every g s = true → every g (drop_while f s) = true.
Proof.
  induction s as [|c s IH]; simpl; [done|].
  intros [Hc Hs]%andb_true_iff. destruct (f c); [by apply IH|].
  simpl. by rewrite Hc, Hs.
Qed.

Lemma spaced_drop_while last f s :
  spaced last s = true → spaced last (drop_while f s) = true.
Proof.
  induction s as [|c s IH]; simpl; [done|].
  intros [Hc Hs]%andb_true_iff. destruct (f c); [by apply IH|].
  simpl. by rewrite Hc, Hs.
Qed.

Lemma skip_ws_starts_clean s : starts_clean (skip_ws s) = true.
Proof.
  unfold skip_ws. induction s as [|c s IH]; simpl; [done|].
  destruct (is_space c) eqn:Hc; [done|]. simpl. by rewrite Hc.
Qed.

(** [trim_end] keeps the first character of what it keeps. *)
Lemma trim_end_head s c r : trim_end s = String c r → ∃ s', s = String c s'.
Proof.
  destruct s as [|x s]; simpl; [done|].
  destruct (trim_end s); [destruct (is_space x)|]; intros [= -> _]; eauto.
Qed.

Lemma every_trim_end g s : every g s = true → every g (trim_end s) = true.
Proof.
  induction s as [|c s IH]; simpl; [done|].
  intros [Hc Hs]%andb_true_iff. specialize (IH Hs).
  destruct (trim_end s) as [|x r]; [destruct (is_space c)|]; simpl in *;
    by rewrite ?Hc, ?IH.
Qed.

Lemma starts_clean_trim_end s :
  starts_clean s = true → starts_clean (trim_end s) = true.
Proof.
  destruct s as [|c s]; [done|]. cbn [starts_clean trim_end]. intros Hc.
  destruct (trim_end s); [|exact Hc].
  destruct (is_space c) eqn:Hspace; [done|]. cbn [starts_clean]. by rewrite Hspace.
Qed.

Lemma spaced_trim_end s : spaced true s = true → spaced false (trim_end s) = true.
Proof.
  induction s as [|c s IH]; [done|].
  cbn [spaced]. intros [Hc Hs]%andb_true_iff. specialize (IH Hs).
  cbn [trim_end]. destruct (trim_end s) as [|x r] eqn:Htrim.
  - destruct (is_space c) eqn:Hspace; [done|]. cbn [spaced]. by rewrite Hspace.
  - destruct (trim_end_head s x r Htrim) as [s' ->].
    change (spaced false (String c (String x r)))
      with ((if is_space c then (code c =? 32)%Z && starts_clean (String x r) else true)
            && spaced false (String x r)).
    rewrite IH, andb_true_r. destruct (is_space c); [exact Hc|done].
Qed.

Lemma sanitizeFileName_tidy value : tidy (sanitizeFileName value) = true.
Proof.
  unfold tidy, sanitizeFileName, trim.
  set (dashed := replace_runs forbidden "-" false value).
  set (single := replace_runs is_space " " false dashed).
  destruct space_plain as (Hsp & Hdash & _ & _).
  assert (every not_forbidden dashed = true) as Hdashed.
  { apply replace_runs_every; [by vm_compute|].
    clear. induction value as [|c s IH]; simpl; [done|].
    rewrite IH, andb_true_r. unfold not_forbidden. by destruct (forbidden c). }
  assert (every not_forbidden single = true) as Hsingle.
  { apply replace_runs_every; [by vm_compute|].
    eapply every_impl; [|exact Hdashed]. intros c ->. apply orb_true_r. }
  rewrite every_trim_end by by apply every_drop_while.
  rewrite starts_clean_trim_end by apply skip_ws_starts_clean.
  rewrite spaced_trim_end; [done|].
  apply spaced_drop_while, replace_spaces_spaced.
Qed.

Lemma replace_runs_none f replacement s :
  every (fun c => negb (f c)) s = true → replace_runs f replacement false s = s.
Proof.
  induction s as [|c s IH]; [done|]. simpl every.
  intros [Hc Hs]%andb_true_iff. apply negb_true_iff in Hc.
  by rewrite replace_runs_cons, Hc, IH.
Qed.

Lemma replace_spaces_fixed s : ∀ in_run,
  spaced false s = true → (in_run = true → starts_clean s = true) →
  replace_runs is_space " " in_run s = s.
Proof.
  induction s as [|c s IH]; intros in_run Hs Hstart; [done|].
  simpl in Hs. apply andb_true_iff in Hs as [Hc Hs].
  rewrite replace_runs_cons. destruct (is_space c) eqn:Hspace.
  - apply andb_true_iff in Hc as [H32 Hnext].
    destruct in_run; [by specialize (Hstart eq_refl); simpl in Hstart; rewrite Hspace in Hstart|].
    rewrite (space_code c Hspace H32), single_app. f_equal.
    apply IH; [done|]. intros _. by destruct s.
  - f_equal. by apply IH.
Qed.

Lemma trim_end_spaced s : spaced false s = true → trim_end s = s.
Proof.
  induction s as [|c s IH]; [done|].
  intros Hs. simpl in Hs. apply andb_true_iff in Hs as [Hc Hs].
  simpl. rewrite (IH Hs). destruct s as [|x s]; [|done].
  destruct (is_space c); [|done]. by rewrite andb_false_r in Hc.
Qed.

Lemma sanitizeFileName_fixed s : tidy s = true → sanitizeFileName s = s.
Proof.
  unfold tidy. intros [[Hclean Hstart]%andb_true_iff Hspaced]%andb_true_iff.
  unfold sanitizeFileName.
  rewrite (replace_runs_none forbidden) by exact Hclean.
  rewrite replace_spaces_fixed by done.
  unfold trim, skip_ws.
  replace (drop_while is_space s) with s; [by apply trim_end_spaced|].
  destruct s as [|c s]; [done|]. simpl in *.
  apply negb_true_iff in Hstart. by rewrite Hstart.
Qed.

End FileNames.

(** X14 ([sanitizeFileName] and the base label of the export): a
    sanitized name holds none of the characters the pattern forbids,
    has no white space at either end and only single spaces inside;
    such a name is left as it is, so sanitizing twice changes nothing.
    The base label of the exported files is never empty, and it has
    none of the forbidden characters whenever the gallery id has
    none. *)
Theorem sanitized_names_tidy :
  (∀ value, tidy (GalleryViewer.sanitizeFileName value) = true)
  ∧ (∀ name, tidy name = true → GalleryViewer.sanitizeFileName name = name)
  ∧ (∀ value, GalleryViewer.sanitizeFileName (GalleryViewer.sanitizeFileName value)
              = GalleryViewer.sanitizeFileName value)
  ∧ (∀ documentLabel galleryId,
       GalleryViewer.baseLabel documentLabel galleryId ≠ EmptyString
       ∧ (every not_forbidden galleryId = true →
          every not_forbidden (GalleryViewer.baseLabel documentLabel galleryId) = true)).
Proof.
  split; [apply sanitizeFileName_tidy|]. split; [apply sanitizeFileName_fixed|].
  split; [intros; apply sanitizeFileName_fixed, sanitizeFileName_tidy|].
  intros documentLabel galleryId. unfold GalleryViewer.baseLabel.
  set (raw := match documentLabel with Some (String c label) => _ | _ => _ end).
  pose proof (sanitizeFileName_tidy raw) as Htidy.
  destruct (GalleryViewer.sanitizeFileName raw) as [|c label].
  - split; [done|]. intros Hid. by vm_compute in Hid |- *.
  - split; [done|]. intros _.
    unfold tidy in Htidy. by apply andb_true_iff in Htidy as [[? _]%andb_true_iff _].
Qed.

(** ** Retrieving an image *)
Section Retrieval.
Import GalleryViewer.
Context {Blob : Type}.

Lemma fetchImageBlob_first (fetch : nat → string → FetchResult Blob) sources :
  ∀ attempt,
    match (fetchImageBlob fetch attempt sources).2 with
    | Some blob =>
        ∃ i source,
          sources !! i = Some source
          ∧ delivered (fetch (attempt + i)%nat source) = Some blob
          ∧ (∀ j s, (j < i)%nat → sources !! j = Some s →
                    delivered (fetch (attempt + j)%nat s) = None)
          ∧ (fetchImageBlob fetch attempt sources).1 = take (S i) sources
    | None =>
        (∀ j s, sources !! j = Some s → delivered (fetch (attempt + j)%nat s) = None)
        ∧ (fetchImageBlob fetch attempt sources).1 = sources
    end.
Proof.
  induction sources as [|source rest IH]; intros attempt; simpl.
  - split; [by intros j s Hj|done].
  - destruct (delivered (fetch attempt source)) as [blob|] eqn:Hfirst.
    + assert (fetch attempt source = Responds true (Some blob)) as ->.
      { destruct (fetch attempt source) as [|[] [b|]]; simpl in Hfirst; congruence. }
      simpl. exists 0%nat, source. rewrite Nat.add_0_r.
      split; [done|]. split; [done|]. split; [intros j s Hj; lia|].
      by rewrite take_0.
    + specialize (IH (S attempt)).
      assert (match fetch attempt source with
              | Responds true (Some blob) => ([source], Some blob)
              | _ => let '(requests, blob) := fetchImageBlob fetch (S attempt) rest in
                     (source :: requests, blob)
              end
              = (source :: (fetchImageBlob fetch (S attempt) rest).1,
                 (fetchImageBlob fetch (S attempt) rest).2)) as ->.
      { destruct (fetch attempt source) as [|[] [b|]]; simpl in Hfirst;
          try discriminate; by destruct (fetchImageBlob fetch (S attempt) rest). }
      simpl. destruct ((fetchImageBlob fetch (S attempt) rest).2) as [blob|].
      * destruct IH as (i & s & Hi & Hs & Hbefore & Hreq).
        exists (S i), s. split; [done|].
        split; [by rewrite <- Nat.add_succ_comm|].
        split; [|by rewrite Hreq].
        intros [|j] s' Hj Hs'; simpl in Hs'.
        -- injection Hs' as <-. by rewrite Nat.add_0_r.
        -- rewrite <- Nat.add_succ_comm. apply Hbefore; [lia|done].
      * destruct IH as [Hall Hreq]. split; [|by rewrite Hreq].
        intros [|j] s' Hs'; simpl in Hs'.
        -- injection Hs' as <-. by rewrite Nat.add_0_r.
        -- rewrite <- Nat.add_succ_comm. by apply Hall.
Qed.

End Retrieval.

(** X15 ([fetchImageBlob]): the sources are requested in order, one
    after the other, up to the first request that delivers a blob, and
    that blob is returned; the sources after it are never requested.
    [null] is returned exactly when every source was requested and none
    delivered. *)
Theorem fetch_stops_at_first_blob {Blob : Type}
    (fetch : nat → string → GalleryViewer.FetchResult Blob) (sources : list string) :
  match (GalleryViewer.fetchImageBlob fetch 0 sources).2 with
  | Some blob =>
      ∃ i source,
        sources !! i = Some source
        ∧ delivered (fetch i source) = Some blob
        ∧ (∀ j s, (j < i)%nat → sources !! j = Some s → delivered (fetch j s) = None)
        ∧ (GalleryViewer.fetchImageBlob fetch 0 sources).1 = take (S i) sources
  | None =>
      (∀ j s, sources !! j = Some s → delivered (fetch j s) = None)
      ∧ (GalleryViewer.fetchImageBlob fetch 0 sources).1 = sources
  end.
Proof. apply (fetchImageBlob_first fetch sources 0). Qed.

(** ** The source of the print document *)
Section PreferredSourceFacts.
Import GalleryViewer.
Local Open Scope string_scope.
Variable getSourceExtension : string → string.
Hypothesis Hempty : getSourceExtension EmptyString = EmptyString.

Lemma find_extension_Some ext sources found :
  find_extension getSourceExtension ext sources = Some found →
  found ∈ sources ∧ getSourceExtension found = ext.
Proof.
  unfold find_extension.
  destruct (list_find _ sources) as [[i [|c s]]|] eqn:Hfind; [done| |done].
  intros [= <-]. apply list_find_Some in Hfind as (Hi & Hext & _).
  split; [by eapply list_elem_of_lookup_2|done].
Qed.

Lemma find_extension_None ext sources :
  ext ≠ EmptyString →
  find_extension getSourceExtension ext sources = None →
  absent getSourceExtension sources ext.
Proof.
  intros Hext. unfold find_extension.
  destruct (list_find _ sources) as [[i [|c s]]|] eqn:Hfind; [| done |].
  - apply list_find_Some in Hfind as (_ & Hfound & _). congruence.
  - intros _ source Hin Hsource.
    eapply list_find_None in Hfind. rewrite Forall_forall in Hfind.
    by apply (Hfind source).
Qed.

Lemma first_preferred_Some preferred sources found :
  Forall (fun ext => ext ≠ EmptyString) preferred →
  first_preferred getSourceExtension preferred sources = Some found →
  found ∈ sources
  ∧ ∃ before ext after,
      preferred = (before ++ ext :: after)%list
      ∧ getSourceExtension found = ext
      ∧ Forall (absent getSourceExtension sources) before.
Proof.
  induction 1 as [|ext rest Hext _ IH]; simpl; [done|].
  destruct (find_extension getSourceExtension ext sources) as [f|] eqn:Hfind.
  - intros [= <-]. apply find_extension_Some in Hfind as [Hin Hf].
    split; [done|]. by exists [], ext, rest.
  - intros Hrest. destruct (IH Hrest) as (Hin & before & e & after & -> & He & Hbefore).
    split; [done|]. exists (ext :: before), e, after.
    split; [done|]. split; [done|]. constructor; [by apply find_extension_None|done].
Qed.

Lemma first_preferred_None preferred sources :
  Forall (fun ext => ext ≠ EmptyString) preferred →
  first_preferred getSourceExtension preferred sources = None →
  Forall (absent getSourceExtension sources) preferred.
Proof.
  induction 1 as [|ext rest Hext _ IH]; simpl; [done|].
  destruct (find_extension getSourceExtension ext sources) as [f|] eqn:Hfind; [done|].
  intros Hrest. constructor; [by apply find_extension_None|by apply IH].
Qed.

End PreferredSourceFacts.

(** X16 ([pickPreferredSource]): for every reading of extensions that
    gives the empty source no extension, as [getSourceExtension] does,
    the source picked from a list that is not empty is one of the list;
    it has the first of the extensions jpg, jpeg, png, webp, avif that
    any source has, or, when no source has any of them, it is the last
    source. *)
Theorem preferred_source_is_a_source (getSourceExtension : string → string)
    (sources : list string) :
  getSourceExtension EmptyString = EmptyString →
  sources ≠ [] →
  let picked := GalleryViewer.pickPreferredSource getSourceExtension sources in
  picked ∈ sources
  ∧ ((∃ before ext after,
        preference = before ++ ext :: after
        ∧ getSourceExtension picked = ext
        ∧ Forall (absent getSourceExtension sources) before)
     ∨ (Forall (absent getSourceExtension sources) preference
        ∧ last sources = Some picked)).
Proof.
  intros Hempty Hne picked. subst picked. unfold GalleryViewer.pickPreferredSource.
  destruct sources as [|s0 rest]; [done|].
  assert (Forall (fun ext => ext ≠ EmptyString) preference) as Hpref
    by (repeat constructor; done).
  fold preference.
  destruct (GalleryViewer.first_preferred getSourceExtension preference (s0 :: rest))
    as [found|] eqn:Hfirst.
  - destruct (first_preferred_Some _ Hempty _ _ _ Hpref Hfirst) as [Hin Hext].
    split; [done|]. by left.
  - pose proof (first_preferred_None _ Hempty _ _ Hpref Hfirst) as Hnone.
    destruct (last (s0 :: rest)) as [l|] eqn:Hlast.
    + simpl. split; [|by right].
      apply last_Some in Hlast as [l' ->]. apply elem_of_app. right. by left.
    + by apply last_None in Hlast.
Qed.

Lemma preferred_source_is_a_source_witness :
  "b.jpg"%string ∈ ["a.webp"; "b.jpg"; "c.png"]%string
  ∧ ((∃ before ext after,
        preference = before ++ ext :: after
        ∧ name_extension "b.jpg" = ext
        ∧ Forall (absent name_extension ["a.webp"; "b.jpg"; "c.png"]%string) before)
     ∨ (Forall (absent name_extension ["a.webp"; "b.jpg"; "c.png"]%string) preference
        ∧ last ["a.webp"; "b.jpg"; "c.png"]%string = Some "b.jpg"%string)).
Proof.
  apply (preferred_source_is_a_source name_extension ["a.webp"; "b.jpg"; "c.png"]%string);
    [reflexivity | discriminate].
Defined.

(** ** The list of images *)
Section ImageList.
Import JsString Hitomi GalleryViewer.
Local Open Scope string_scope.

Lemma dedupe_spec l : ∀ seen,
  NoDup (dedupe seen l)
  ∧ (∀ x, x ∈ dedupe seen l ↔ x ∈ l ∧ x ∉ seen)
  ∧ (length (dedupe seen l) ≤ length l)%nat.
Proof.
  induction l as [|y l IH]; intros seen; simpl.
  - split; [apply NoDup_nil_2|]. split; [|done].
    intros x. split; [by intros ?%not_elem_of_nil|by intros [?%not_elem_of_nil _]].
  - destruct (decide (y ∈ seen)) as [Hin|Hnin].
    + destruct (IH seen) as (Hnd & Hmem & Hlen).
      split; [done|]. split; [|lia].
      intros x. rewrite Hmem, elem_of_cons. split; [tauto|].
      intros [[->|Hx] Hseen]; [done|by split].
    + destruct (IH (y :: seen)) as (Hnd & Hmem & Hlen).
      split; [|split; [|simpl; lia]].
      * apply NoDup_cons. split; [|done]. rewrite Hmem, elem_of_cons. tauto.
      * intros x. rewrite !elem_of_cons, Hmem, elem_of_cons.
        destruct (decide (x = y)) as [->|]; tauto.
Qed.

Lemma omap_length_le {A B} (f : A → option B) (l : list A) :
  (length (omap f l) ≤ length l)%nat.
Proof.
  induction l as [|x l IH]; simpl; [done|].
  change (list_omap _ _ f l) with (omap f l). destruct (f x); simpl; lia.
Qed.

Lemma variants_length file :
  (1 ≤ length (getHitomiImageVariants file) ≤ 3)%nat.
Proof.
  unfold getHitomiImageVariants.
  set (e := toLowerCase _). clearbody e.
  destruct (haswebp file), (hasavif file); cbn [app];
    (destruct e as [|c r]; [|destruct (decide _)]); cbn [app]; simpl; lia.
Qed.

(** Whether a URL comes out does not depend on the extension. *)
Lemma resolveHitomiImageUrl_bucket file serverMap overrideExt :
  match file_bucket file with
  | Some _ => ∃ c url, resolveHitomiImageUrl file serverMap overrideExt
                       = Some (String c url)
  | None => resolveHitomiImageUrl file serverMap overrideExt = None
  end.
Proof.
  unfold file_bucket, resolveHitomiImageUrl.
  destruct (hash file) as [[|h0 h]|]; [done| |done].
  simpl. destruct (resolveHashNumber (String h0 h)) as [bucket|]; [|done].
  simpl. eexists _, _. reflexivity.
Qed.

Lemma declared_positive size n : declared size = Some n → 0 < n.
Proof.
  unfold declared. destruct size as [m|]; [|done].
  destruct (Z.ltb_spec 0 m); [|done]. by intros [= <-].
Qed.

Lemma image_entry_sound galleryId documentLabel serverMap index file :
  match image_entry galleryId documentLabel serverMap index file with
  | Some entry => is_Some (file_bucket file) ∧ sound_entry galleryId serverMap file entry
  | None => file_bucket file = None
  end.
Proof.
  unfold image_entry.
  set (remote := omap _ (getHitomiImageVariants file)).
  destruct (dedupe_spec (proxied galleryId <$> remote) []) as (Hnd & Hmem & Hlen).
  pose proof (variants_length file) as Hvariants.
  assert (length remote ≤ length (getHitomiImageVariants file))%nat as Hremote
    by apply omap_length_le.
  destruct (file_bucket file) as [bucket|] eqn:Hbucket.
  - assert (∃ v, v ∈ getHitomiImageVariants file) as [v Hvin].
    { destruct (getHitomiImageVariants file) as [|v vs]; [simpl in *; lia|].
      exists v. by left. }
    pose proof (resolveHitomiImageUrl_bucket file serverMap (Some v)) as Hv.
    rewrite Hbucket in Hv. destruct Hv as (c & url & Hv).
    assert (proxied galleryId (String c url) ∈ dedupe [] (proxied galleryId <$> remote))
      as Hfirst.
    { apply Hmem. split; [|apply not_elem_of_nil].
      apply list_elem_of_fmap_2, list_elem_of_omap. exists v. by rewrite Hv. }
    destruct (dedupe [] (proxied galleryId <$> remote)) as [|s0 ss] eqn:Hsources;
      [by apply not_elem_of_nil in Hfirst|].
    split; [done|]. unfold sound_entry.
    cbn [ImageExport.sources ImageExport.width ImageExport.height].
    split.
    { rewrite length_fmap in Hlen. rewrite length_cons in Hlen |- *.
      clear -Hlen Hvariants Hremote. clearbody remote.
      destruct Hvariants. split; lia. }
    split; [done|]. split; [|split; apply declared_positive].
    intros source [Hin _]%Hmem.
    apply list_elem_of_fmap in Hin as (remoteUrl & -> & Hin).
    subst remote. apply list_elem_of_omap in Hin as (variant & Hvar & Hurl).
    exists variant, remoteUrl. split; [done|]. split; [|done].
    by destruct (resolveHitomiImageUrl file serverMap (Some variant)) as [[|? ?]|].
  - assert (remote = []) as ->.
    { subst remote. clear -Hbucket.
      induction (getHitomiImageVariants file) as [|v vs IH]; [done|].
      simpl. pose proof (resolveHitomiImageUrl_bucket file serverMap (Some v)) as Hv.
      rewrite Hbucket in Hv. rewrite Hv. exact IH. }
    done.
Qed.

End ImageList.

(** X17 (the [images] memo): a file gets an entry exactly when its hash
    gives a bucket; an entry has between one and three sources, all
    different, each the proxied URL of one of the file's variants, and
    its declared width and height, when present, are positive.  Every
    entry of the list is the entry of one of the files. *)
Theorem images_entries_sound (galleryId : string) (documentLabel : option string)
    (serverMap : Hitomi.HitomiServerMap) :
  (∀ index file,
     match GalleryViewer.image_entry galleryId documentLabel serverMap index file with
     | Some entry =>
         is_Some (file_bucket file) ∧ sound_entry galleryId serverMap file entry
     | None => file_bucket file = None
     end)
  ∧ (∀ files entry,
       entry ∈ GalleryViewer.images galleryId documentLabel files (Some serverMap) →
       ∃ index file,
         default [] files !! index = Some file
         ∧ GalleryViewer.image_entry galleryId documentLabel serverMap index file
           = Some entry
         ∧ sound_entry galleryId serverMap file entry)
  ∧ (∀ files,
       length (GalleryViewer.images galleryId documentLabel files (Some serverMap))
       = length (filter (fun file => is_Some (file_bucket file)) (default [] files))).
Proof.
  split; [apply image_entry_sound|]. split.
  - intros files entry Hin. unfold GalleryViewer.images in Hin.
    apply list_elem_of_omap in Hin as (o & Hin & Ho). simpl in Ho. subst o.
    apply list_elem_of_lookup in Hin as [index Hin].
    rewrite list_lookup_imap in Hin.
    destruct (default [] files !! index) as [file|] eqn:Hfile; [|done].
    simpl in Hin. injection Hin as Hin. exists index, file.
    split; [done|]. split; [done|].
    pose proof (image_entry_sound galleryId documentLabel serverMap index file) as H.
    rewrite Hin in H. apply H.
  - intros files. unfold GalleryViewer.images.
    generalize (default [] files). intros l.
    generalize (GalleryViewer.image_entry galleryId documentLabel serverMap)
      (image_entry_sound galleryId documentLabel serverMap).
    induction l as [|file l IH]; intros f Hf; [done|].
    rewrite imap_cons, filter_cons.
    specialize (IH (f ∘ S) (fun i => Hf (S i))).
    pose proof (Hf 0%nat file) as H0.
    destruct (f 0%nat file) as [entry|].
    + destruct H0 as [Hsome _]. rewrite decide_True by done.
      change (omap id (Some entry :: imap (f ∘ S) l))
        with (entry :: omap id (imap (f ∘ S) l)).
      by rewrite !length_cons, IH.
    + rewrite decide_False by (rewrite H0; by intros [? ?]). exact IH.
Qed.

(** ** Groups of pages and the start page *)
Section Groups.
Import GalleryViewer.
Context {A : Type}.

Lemma group_loop_spec (images : list A) (pagesPerView : nat) :
  (1 ≤ pagesPerView)%nat →
  ∀ fuel i, (length images - i ≤ fuel)%nat →
    ∃ groups,
      group_loop fuel i pagesPerView images = Some groups
      ∧ concat groups = drop i images
      ∧ Forall (fun group => (1 ≤ length group ≤ pagesPerView)%nat) groups
      ∧ (∀ k group, groups !! k = Some group →
           group = take pagesPerView (drop (i + k * pagesPerView) images))
      ∧ (length images - i ≤ length groups * pagesPerView
         < length images - i + pagesPerView)%nat.
Proof.
  intros Hppv. induction fuel as [|fuel IH]; intros i Hfuel.
  - exists []. simpl. replace (i <? length images)%nat with false
      by (symmetry; apply Nat.ltb_ge; lia).
    split; [done|]. split; [by rewrite drop_ge by lia|]. split; [done|].
    split; [done|]. simpl. lia.
  - simpl. destruct (Nat.ltb_spec i (length images)) as [Hlt|Hge].
    + destruct (IH (i + pagesPerView)%nat) as (rest & -> & Hconcat & Hall & Hlookup & Hcount);
        [lia|].
      eexists. split; [done|]. split; [|split; [|split]].
      * simpl. rewrite Hconcat, <- drop_drop. apply take_drop.
      * constructor; [|done]. rewrite length_take, length_drop. lia.
      * intros [|k] group; simpl.
        -- intros [= <-]. by rewrite Nat.add_0_r.
        -- intros Hk. rewrite (Hlookup k group Hk). do 2 f_equal. lia.
      * simpl. destruct (decide (length images - i < pagesPerView)%nat); [|lia].
        assert (length rest = 0%nat) as -> by nia. lia.
    + exists []. split; [done|]. split; [by rewrite drop_ge by lia|]. split; [done|].
      split; [done|]. simpl. lia.
Qed.

Lemma imageGroups_spec (images : list A) (pagesPerView : nat) :
  (1 ≤ pagesPerView)%nat →
  ∃ groups, imageGroups images pagesPerView = Some groups
            ∧ groups_of images pagesPerView groups.
Proof.
  intros Hppv. unfold imageGroups.
  destruct (Nat.eqb_spec pagesPerView 1) as [->|Hne].
  - eexists. split; [done|]. unfold groups_of.
    split; [|split; [|split]].
    + induction images as [|x l IH]; [done|].
      rewrite fmap_cons. simpl. f_equal. exact IH.
    + apply Forall_fmap, Forall_true. intros x. simpl. lia.
    + intros k group Hk. rewrite list_lookup_fmap in Hk.
      destruct (images !! k) as [x|] eqn:Hx; [|done]. injection Hk as <-.
      rewrite Nat.mul_1_r. erewrite drop_S by done. simpl. by rewrite take_0.
    + rewrite length_fmap. lia.
  - destruct (group_loop_spec images pagesPerView Hppv (length images) 0)
      as (groups & Hloop & Hconcat & Hall & Hlookup & Hcount); [lia|].
    exists groups. split; [done|]. unfold groups_of.
    rewrite drop_0 in Hconcat. rewrite Nat.sub_0_r in Hcount.
    split; [done|]. split; [done|]. split; [|lia].
    intros k group Hk. by rewrite (Hlookup k group Hk).
Qed.

End Groups.

(** X18 ([imageGroups]): for a positive [pagesPerView] the loop ends
    and the groups are the images cut into runs of [pagesPerView]
    pages, in order: their concatenation is the list of images, no
    group is empty or longer than [pagesPerView], group [k] starts at
    image [k * pagesPerView], and there are as many groups as the
    images need and no more. *)
Theorem image_groups_partition {A : Type} (images : list A) (pagesPerView : nat) :
  (1 ≤ pagesPerView)%nat →
  ∃ groups, GalleryViewer.imageGroups images pagesPerView = Some groups
            ∧ groups_of images pagesPerView groups.
Proof. apply imageGroups_spec. Qed.

Lemma image_groups_partition_witness :
  ∃ groups, GalleryViewer.imageGroups [1; 2; 3; 4; 5] 2 = Some groups
            ∧ groups_of [1; 2; 3; 4; 5] 2 groups.
Proof. apply (image_groups_partition [1; 2; 3; 4; 5] 2). lia. Defined.

(** X19 (the start page and the page buttons): a start page between 1
    and the number of images makes active the group that holds that
    page, and a start page beyond the end the group of the last page;
    [scrollToGroup] never leaves the range of the groups, so the next
    button on the last group and the previous button on the first one
    stay where they are. *)
Theorem start_page_group {A : Type} (images : list A) (pagesPerView : nat)
    (groups : list (list A)) (page : Z) :
  (1 ≤ pagesPerView)%nat → images ≠ [] → 1 ≤ page →
  GalleryViewer.imageGroups images pagesPerView = Some groups →
  let shown := Z.min page (Z.of_nat (length images)) in
  let count := Z.of_nat (length groups) in
  (∃ group image,
     GalleryViewer.start_group (Some page) (Z.of_nat (length images)) count
       (Z.of_nat pagesPerView)
     = Some ((shown - 1) / Z.of_nat pagesPerView)
     ∧ groups !! Z.to_nat ((shown - 1) / Z.of_nat pagesPerView) = Some group
     ∧ images !! Z.to_nat (shown - 1) = Some image
     ∧ group !! Z.to_nat ((shown - 1) mod Z.of_nat pagesPerView) = Some image)
  ∧ (∀ index active,
       GalleryViewer.scrollToGroup count index = Some active → 0 ≤ active < count)
  ∧ GalleryViewer.goToNext count (count - 1) = Some (count - 1)
  ∧ GalleryViewer.goToPrevious count 0 = Some 0.
Proof.
  intros Hppv Hne Hpage Hgroups shown count.
  destruct (imageGroups_spec images pagesPerView Hppv) as (groups' & Hgroups' & Hof).
  rewrite Hgroups in Hgroups'. injection Hgroups' as <-.
  destruct Hof as (Hconcat & Hall & Hlookup & Hcount).
  assert (1 ≤ length images)%nat as Hn by (destruct images; [done|simpl; lia]).
  assert (1 ≤ count) as Hgroups1 by (subst count; nia).
  assert (1 ≤ shown ≤ Z.of_nat (length images)) as Hshown by (subst shown; lia).
  set (p := Z.of_nat pagesPerView) in *.
  assert (1 ≤ p) as Hp by (subst p; lia).
  assert (0 ≤ (shown - 1) / p < count) as Hindex.
  { split; [apply Z.div_pos; lia|]. apply Z.div_lt_upper_bound; [lia|].
    subst p count. nia. }
  assert (GalleryViewer.scrollToGroup count ((shown - 1) / p) = Some ((shown - 1) / p))
    as Hscroll.
  { unfold GalleryViewer.scrollToGroup.
    destruct (Z.eqb_spec count 0); [lia|]. f_equal. lia. }
  split; [|split; [|split]].
  - destruct (lookup_lt_is_Some_2 groups (Z.to_nat ((shown - 1) / p))) as [group Hgroup];
      [subst count; lia|].
    destruct (lookup_lt_is_Some_2 images (Z.to_nat (shown - 1))) as [image Himage]; [lia|].
    exists group, image. split; [|split; [done|split; [done|]]].
    + unfold GalleryViewer.start_group, GalleryViewer.startPage.
      destruct (Z.ltb_spec 0 page); [|lia].
      destruct (Z.eqb_spec count 0); [lia|].
      destruct (Z.eqb_spec (Z.of_nat (length images)) 0); [lia|].
      fold shown. rewrite Z.max_r by lia. exact Hscroll.
    + rewrite (Hlookup _ _ Hgroup).
      pose proof (Z.mod_pos_bound (shown - 1) p ltac:(lia)) as Hmod.
      rewrite lookup_take, decide_True by (subst p; lia). rewrite lookup_drop.
      rewrite <- Himage. f_equal.
      pose proof (Z.div_mod (shown - 1) p ltac:(lia)) as Hdiv.
      apply Nat2Z.inj. rewrite Nat2Z.inj_add, Nat2Z.inj_mul, !Z2Nat.id by lia.
      fold p. lia.
  - intros index active. unfold GalleryViewer.scrollToGroup.
    destruct (Z.eqb_spec count 0); [done|]. intros [= <-]. lia.
  - unfold GalleryViewer.goToNext, GalleryViewer.scrollToGroup.
    destruct (Z.eqb_spec count 0); [lia|]. f_equal. lia.
  - unfold GalleryViewer.goToPrevious, GalleryViewer.scrollToGroup.
    destruct (Z.eqb_spec count 0); [lia|]. f_equal. lia.
Qed.

Lemma start_page_group_witness :
  (∃ group image,
     GalleryViewer.start_group (Some 4) 5 3 2 = Some 1
     ∧ [[10; 20]; [30; 40]; [50]] !! 1%nat = Some group
     ∧ [10; 20; 30; 40; 50] !! 3%nat = Some image
     ∧ group !! 1%nat = Some image)
  ∧ (∀ index active, GalleryViewer.scrollToGroup 3 index = Some active → 0 ≤ active < 3)
  ∧ GalleryViewer.goToNext 3 2 = Some 2
  ∧ GalleryViewer.goToPrevious 3 0 = Some 0.
Proof.
  apply (start_page_group [10; 20; 30; 40; 50] 2 [[10; 20]; [30; 40]; [50]] 4);
    [lia | discriminate | lia | reflexivity].
Defined.

(** ** One page and its sources *)
Section SourceFallback.
Import GalleryViewer.
Local Open Scope string_scope.

Lemma after_errors_S sources k :
  after_errors sources (S k) = onError sources (after_errors sources k).
Proof. reflexivity. Qed.

Lemma after_errors_active sources k :
  (k < length sources)%nat →
  activeIndex (after_errors sources k) = k ∧ failed (after_errors sources k) = false.
Proof.
  induction k as [|k IH]; intros Hk; [done|].
  destruct IH as [Hactive Hfailed]; [lia|].
  rewrite after_errors_S. unfold onError. rewrite Hactive, Hfailed.
  destruct (Z.ltb_spec (Z.of_nat k) (Z.of_nat (length sources) - 1)); [done|lia].
Qed.

Lemma after_errors_failed sources k :
  sources ≠ [] → (length sources ≤ k)%nat →
  failed (after_errors sources k) = true
  ∧ activeIndex (after_errors sources k) = (length sources - 1)%nat.
Proof.
  intros Hne. assert (1 ≤ length sources)%nat as Hn by (destruct sources; [done|simpl; lia]).
  induction k as [|k IH]; intros Hk; [lia|].
  rewrite after_errors_S. unfold onError.
  destruct (decide (length sources ≤ k)%nat) as [Hle|Hgt].
  - destruct (IH Hle) as [Hfailed Hactive]. rewrite Hactive.
    destruct (Z.ltb_spec (Z.of_nat (length sources - 1)) (Z.of_nat (length sources) - 1));
      [lia|done].
  - destruct (after_errors_active sources k) as [Hactive Hfailed]; [lia|].
    rewrite Hactive.
    destruct (Z.ltb_spec (Z.of_nat k) (Z.of_nat (length sources) - 1)); [lia|].
    simpl. split; [done|lia].
Qed.

End SourceFallback.

(** X20 ([HitomiImage]): a page whose sources are all URLs shows its
    first source; after [k] load errors in a row it shows source [k],
    as long as there is one, and only when the last source has failed
    too does it drop the image for the notice that the page cannot be
    loaded.  A page without sources shows the notice at once. *)
Theorem source_fallback_in_order (sources : list string) :
  Forall (fun source => source ≠ EmptyString) sources →
  (∀ k source,
     sources !! k = Some source →
     GalleryViewer.src sources (after_errors sources k) = source
     ∧ GalleryViewer.failed (after_errors sources k) = false
     ∧ GalleryViewer.renders_image sources (after_errors sources k) = true)
  ∧ (∀ k,
       (length sources ≤ k)%nat →
       GalleryViewer.renders_image sources (after_errors sources k) = false)
  ∧ (sources ≠ [] → ∀ k,
       (length sources ≤ k)%nat →
       GalleryViewer.failed (after_errors sources k) = true).
Proof.
  intros Hurls. split; [|split].
  - intros k source Hk.
    destruct (after_errors_active sources k) as [Hactive Hfailed];
      [by eapply lookup_lt_Some|].
    assert (GalleryViewer.src sources (after_errors sources k) = source) as Hsrc
      by (unfold GalleryViewer.src; by rewrite Hactive, Hk).
    split; [done|]. split; [done|].
    unfold GalleryViewer.renders_image. rewrite Hfailed, Hsrc. simpl.
    rewrite Forall_forall in Hurls.
    destruct (String.eqb_spec source EmptyString) as [->|]; [|done].
    exfalso. eapply Hurls; [by eapply list_elem_of_lookup_2|done].
  - intros k Hk. unfold GalleryViewer.renders_image.
    destruct sources as [|s0 rest].
    + unfold GalleryViewer.src. rewrite lookup_nil. simpl. apply andb_false_r.
    + destruct (after_errors_failed (s0 :: rest) k) as [-> _]; done.
  - intros Hne k Hk. by apply after_errors_failed.
Qed.

Lemma source_fallback_in_order_witness :
  (∀ k source,
     ["/a.webp"; "/a.avif"; "/a.jpg"]%string !! k = Some source →
     GalleryViewer.src ["/a.webp"; "/a.avif"; "/a.jpg"]%string
       (after_errors ["/a.webp"; "/a.avif"; "/a.jpg"]%string k) = source
     ∧ GalleryViewer.failed (after_errors ["/a.webp"; "/a.avif"; "/a.jpg"]%string k) = false
     ∧ GalleryViewer.renders_image ["/a.webp"; "/a.avif"; "/a.jpg"]%string
         (after_errors ["/a.webp"; "/a.avif"; "/a.jpg"]%string k) = true)
  ∧ (∀ k,
       (length ["/a.webp"; "/a.avif"; "/a.jpg"]%string ≤ k)%nat →
       GalleryViewer.renders_image ["/a.webp"; "/a.avif"; "/a.jpg"]%string
         (after_errors ["/a.webp"; "/a.avif"; "/a.jpg"]%string k) = false)
  ∧ (["/a.webp"; "/a.avif"; "/a.jpg"]%string ≠ [] → ∀ k,
       (length ["/a.webp"; "/a.avif"; "/a.jpg"]%string ≤ k)%nat →
       GalleryViewer.failed (after_errors ["/a.webp"; "/a.avif"; "/a.jpg"]%string k) = true).
Proof.
  apply (source_fallback_in_order ["/a.webp"; "/a.avif"; "/a.jpg"]%string).
  repeat constructor; discriminate.
Defined.

(** ** The tiles of the split export *)



(** ** Decimal numerals *)
Section Decimals.
Import JsString.
Local Open Scope string_scope.

Lemma String_of_int_inj n m : String_of_int n = String_of_int m → n = m.
Proof.
  unfold String_of_int. intros H.
  assert (∀ z, Z.to_int z ≠ Decimal.Pos Decimal.Nil
               ∧ Z.to_int z ≠ Decimal.Neg Decimal.Nil) as Hnonnil.
  { intros [|p|p]; simpl; split; try discriminate;
      intros [= Hp]; by apply DecimalPos.Unsigned.to_uint_nonnil in Hp. }
  destruct (Hnonnil n) as [Hn1 Hn2]. destruct (Hnonnil m) as [Hm1 Hm2].
  pose proof (NilZero.isi _ Hn1 Hn2) as Hn. rewrite H in Hn.
  rewrite (NilZero.isi _ Hm1 Hm2) in Hn. injection Hn as Hn.
  by apply DecimalZ.to_int_inj.
Qed.

Lemma nzhead_head d :
  match Decimal.nzhead d with Decimal.D0 _ => False | _ => True end.
Proof. induction d; simpl; done. Qed.

(** The numeral of a positive number begins with a digit from 1 to 9
    and goes on with digits. *)
Lemma String_of_int_positive n :
  0 < n →
  ∃ x r, String_of_int n = String x r
         ∧ is_digit x = true ∧ Ascii.eqb x "0" = false ∧ every is_digit r = true.
Proof.
  intros Hn. destruct n as [|p|p]; [lia| |lia].
  unfold String_of_int. simpl.
  pose proof (DecimalPos.Unsigned.to_of (Pos.to_uint p)) as Hnorm.
  rewrite DecimalPos.Unsigned.of_to in Hnorm. simpl in Hnorm.
  pose proof (DecimalPos.Unsigned.to_uint_nonzero p) as Hnonzero.
  pose proof (nzhead_head (Pos.to_uint p)) as Hhead.
  pose proof (string_of_uint_digits (Pos.to_uint p)) as Hdigits.
  unfold Decimal.unorm in Hnorm.
  destruct (Decimal.nzhead (Pos.to_uint p)) eqn:Hnz; try done;
    rewrite Hnorm in Hdigits |- *; simpl in Hdigits |- *; eauto 10.
Qed.

Lemma zeros_stripped k s c r :
  s = String c r → Ascii.eqb c "0" = false →
  drop_while (fun x => Ascii.eqb x "0") (ImageExport.zeros k ++ s) = s.
Proof.
  intros -> Hc. induction k as [|k IH]; simpl; [by rewrite Hc|exact IH].
Qed.

Lemma padIndex_inj w w' v v' :
  0 < v → 0 < v' → ImageExport.padIndex w v = ImageExport.padIndex w' v' → v = v'.
Proof.
  intros Hv Hv' H. unfold ImageExport.padIndex in H.
  destruct (String_of_int_positive v Hv) as (x & r & Hs & _ & Hx & _).
  destruct (String_of_int_positive v' Hv') as (x' & r' & Hs' & _ & Hx' & _).
  apply (f_equal (drop_while (fun x => Ascii.eqb x "0"))) in H.
  rewrite (zeros_stripped _ _ x r Hs Hx), (zeros_stripped _ _ x' r' Hs' Hx') in H.
  by apply String_of_int_inj.
Qed.

Lemma every_zeros k : every is_digit (ImageExport.zeros k) = true.
Proof. induction k as [|k IH]; simpl; done. Qed.

Lemma padIndex_digits w v : 0 < v → every is_digit (ImageExport.padIndex w v) = true.
Proof.
  intros Hv. unfold ImageExport.padIndex.
  destruct (String_of_int_positive v Hv) as (x & r & -> & Hx & _ & Hr).
  rewrite every_app, every_zeros. simpl. by rewrite Hx, Hr.
Qed.

Lemma String_of_int_digits v : 0 < v → every is_digit (String_of_int v) = true.
Proof.
  intros Hv. destruct (String_of_int_positive v Hv) as (x & r & -> & Hx & _ & Hr).
  simpl. by rewrite Hx, Hr.
Qed.

(** A run of digits followed by a character that is no digit splits a
    text in one way only. *)
Lemma digits_split d : ∀ d' c r c' r',
  every is_digit d = true → every is_digit d' = true →
  is_digit c = false → is_digit c' = false →
  d ++ String c r = d' ++ String c' r' → d = d' ∧ String c r = String c' r'.
Proof.
  induction d as [|x d IH]; intros [|x' d'] c r c' r' Hd Hd' Hc Hc'.
  - done.
  - intros [= -> _]. simpl in Hd'. apply andb_true_iff in Hd' as [? _]. congruence.
  - intros [= <- _]. simpl in Hd. apply andb_true_iff in Hd as [? _]. congruence.
  - simpl in Hd, Hd'. apply andb_true_iff in Hd as [_ Hd].
    apply andb_true_iff in Hd' as [_ Hd'].
    change (String x (d ++ String c r) = String x' (d' ++ String c' r')
            → String x d = String x' d' ∧ String c r = String c' r').
    intros [= -> H]. by destruct (IH d' c r c' r' Hd Hd' Hc Hc' H) as [-> ->].
Qed.

Lemma string_app_inv_head (p s t : string) : p ++ s = p ++ t → s = t.
Proof.
  induction p as [|c p IH]; [done|].
  change (String c (p ++ s) = String c (p ++ t) → s = t). intros [= H]. by apply IH.
Qed.

End Decimals.

(** ** Names of the exported files *)
Section FileNameFacts.
Import JsString ImageExport.
Local Open Scope string_scope.

Lemma tile_suffix_shape plan row col ext :
  ∃ c r, tile_suffix plan row col ++ "." ++ ext = String c r ∧ is_digit c = false.
Proof.
  unfold tile_suffix. destruct (_ || _); [by exists "-"%char; eexists|].
  by exists "."%char; eexists.
Qed.

Lemma tile_name_inj baseLabel indexWidth ext plan plan' index index' row col row' col' :
  0 ≤ row → 0 ≤ col → 0 ≤ row' → 0 ≤ col' →
  tile_name baseLabel indexWidth ext plan index row col
  = tile_name baseLabel indexWidth ext plan' index' row' col' →
  index = index'
  ∧ (((TilePlanner.cols plan >? 1) || (TilePlanner.rows plan >? 1)) = true →
     ((TilePlanner.cols plan' >? 1) || (TilePlanner.rows plan' >? 1)) = true →
     row = row' ∧ col = col').
Proof.
  intros Hrow Hcol Hrow' Hcol'. unfold tile_name. intros H.
  apply string_app_inv_head in H.
  change ("-" ++ ?s) with (String "-" s) in H. injection H as H.
  destruct (tile_suffix_shape plan row col ext) as (c & r & Hs & Hc).
  destruct (tile_suffix_shape plan' row' col' ext) as (c' & r' & Hs' & Hc').
  rewrite Hs, Hs' in H.
  apply digits_split in H as [Hindex Hrest];
    [|apply padIndex_digits; lia|apply padIndex_digits; lia|done|done].
  apply padIndex_inj in Hindex; [|lia|lia].
  split; [lia|]. intros Hmulti Hmulti'.
  rewrite <- Hs, <- Hs' in Hrest. unfold tile_suffix in Hrest.
  rewrite Hmulti, Hmulti' in Hrest.
  rewrite <- !string_app_assoc in Hrest.
  apply (string_app_inv_head "-part-") in Hrest.
  apply digits_split in Hrest as [Hr Hrest];
    [|apply String_of_int_digits; lia|apply String_of_int_digits; lia|done|done].
  apply String_of_int_inj in Hr.
  change ("-" ++ ?s) with (String "-" s) in Hrest. injection Hrest as Hrest.
  change ("." ++ ext) with (String "." ext) in Hrest.
  apply digits_split in Hrest as [Hc2 _];
    [|apply String_of_int_digits; lia|apply String_of_int_digits; lia|done|done].
  apply String_of_int_inj in Hc2. lia.
Qed.

End FileNameFacts.

(** X22 (the file names of the split loop): the name written for a tile
    is [baseLabel-index(-part-row-col).ext]; for a fixed label, width
    of the index and extension, equal names mean the same image and,
    between plans with more than one tile, the same row and column; so
    the tiles of one image all get different names, and no entry of a
    [zip] archive is written twice. *)
Theorem tile_names_distinct :
  (∀ env formatConfig packaging baseLabel indexWidth plan index s row col crop,
     ImageExport.export_tile env formatConfig packaging baseLabel
       (ImageExport.padIndex indexWidth (Z.of_nat index + 1)) plan s (row, col, crop)
     = if negb (ImageExport.has_context env (TilePlanner.sw crop) (TilePlanner.sh crop))
          || negb (ImageExport.encodes env (TilePlanner.sw crop) (TilePlanner.sh crop))
       then s
       else ImageExport.writeOutput packaging
              (tile_name baseLabel indexWidth (extension formatConfig) plan index row col) s)
  ∧ (∀ baseLabel indexWidth ext plan plan' index index' row col row' col',
       0 ≤ row → 0 ≤ col → 0 ≤ row' → 0 ≤ col' →
       tile_name baseLabel indexWidth ext plan index row col
       = tile_name baseLabel indexWidth ext plan' index' row' col' →
       index = index'
       ∧ (((TilePlanner.cols plan >? 1) || (TilePlanner.rows plan >? 1)) = true →
          ((TilePlanner.cols plan' >? 1) || (TilePlanner.rows plan' >? 1)) = true →
          row = row' ∧ col = col'))
  ∧ (∀ baseLabel indexWidth ext width height plan index,
       NoDup ((fun t : Z * Z * TilePlanner.Crop =>
                 tile_name baseLabel indexWidth ext plan index t.1.1 t.1.2)
              <$> TilePlanner.tile_crops width height plan)).
Proof.
  split; [|split].
  - intros. unfold ImageExport.export_tile, tile_name, tile_suffix.
    destruct (ImageExport.has_context env _ _); [|done].
    by destruct (ImageExport.encodes env _ _).
  - apply tile_name_inj.
  - intros baseLabel indexWidth ext width height plan index.
    apply NoDup_fmap_2_strong; [|apply NoDup_tile_crops].
    intros [[row col] crop] [[row' col'] crop'] Hin Hin' Hname. simpl in Hname.
    apply elem_of_tile_crops in Hin as (Hrow & Hcol & ->).
    apply elem_of_tile_crops in Hin' as (Hrow' & Hcol' & ->).
    apply tile_name_inj in Hname as [_ Hname]; [|lia..].
    destruct ((TilePlanner.cols plan >? 1) || (TilePlanner.rows plan >? 1)) eqn:Hmulti.
    + by destruct (Hname eq_refl eq_refl) as [-> ->].
    + apply orb_false_iff in Hmulti as [Hc Hr].
      assert (row = row') as -> by lia. assert (col = col') as -> by lia. done.
Qed.

(** X23 (the file names of [flushChunk]): the name of a chunk tells its
    index only when [totalChunks] is above one; otherwise every chunk
    is written under the one name [baseLabel-combined.ext].  The
    drawing loop can flush more than one chunk in that case: two images
    32768 pixels wide and 5 and 1 pixels high, exported as PNG, are
    scaled to the heights 5/2 and 1/2, [totalChunks] is 1, and two
    canvases, 3 and 1 pixels high, are flushed under the same name: a
    [zip] archive keeps one entry for them, and with [single] packaging
    the same file name is saved twice. *)
Theorem chunk_names_collide :
  (∀ env formatConfig packaging baseLabel L st,
     ImageExport.session (ImageExport.flushChunk env formatConfig packaging baseLabel L st)
     = if ImageExport.encodes env (ImageExport.scaledWidth L) (ImageExport.canvas st)
       then ImageExport.writeOutput packaging
              (chunk_name baseLabel (extension formatConfig) L (ImageExport.chunkIndex st))
              (ImageExport.session st)
       else ImageExport.session st)
  ∧ (∀ baseLabel ext L i j,
       1 < ImageExport.totalChunks L → 0 ≤ i → 0 ≤ j →
       chunk_name baseLabel ext L i = chunk_name baseLabel ext L j → i = j)
  ∧ (∀ baseLabel ext L i j,
       ImageExport.totalChunks L ≤ 1 →
       chunk_name baseLabel ext L i = chunk_name baseLabel ext L j)
  ∧ (fun m => ImageExport.totalChunks (ImageExport.layout png_config m.1 m.2))
    <$> ImageExport.measure two_wide 0 [page; page] 0 = Some 1
  ∧ returned_canvases
      (ImageExport.combine_images two_wide png_config ImageExport.zip "gallery" 10
         [page; page] no_output) = Some [3; 1]
  ∧ ImageExport.saved
    <$> ImageExport.handleDownloadImages two_wide 10 ImageExport.png ImageExport.zip
          false true "gallery" [page; page] idle_viewer
    = Some [ImageExport.SavedZip "gallery-combined-png.zip"
              ["gallery-combined.png"%string]]
  ∧ ImageExport.saved
    <$> ImageExport.handleDownloadImages two_wide 10 ImageExport.png ImageExport.single
          false true "gallery" [page; page] idle_viewer
    = Some [ImageExport.SavedFile "gallery-combined.png";
            ImageExport.SavedFile "gallery-combined.png"].
Proof.
  split; [done|]. split; [|split].
  - intros baseLabel ext L i j Htotal Hi Hj. unfold chunk_name.
    replace (ImageExport.totalChunks L >? 1) with true by (symmetry; lia).
    intros H. apply string_app_inv_head in H.
    change ("-" ++ ?s)%string with (String "-" s) in H. injection H as H.
    rewrite <- !string_app_assoc in H.
    apply (string_app_inv_head "") in H.
    change ("." ++ ext)%string with (String "." ext) in H.
    apply digits_split in H as [H _];
      [|apply String_of_int_digits; lia|apply String_of_int_digits; lia|done|done].
    apply String_of_int_inj in H. lia.
  - intros baseLabel ext L i j Htotal. unfold chunk_name.
    by replace (ImageExport.totalChunks L >? 1) with false by (symmetry; lia).
  - repeat split; vm_compute; reflexivity.
Qed.

(** ** Reading numerals back *)
Section NumeralValue.
Import JsString.
Local Open Scope string_scope.

Lemma uint_value_acc d : ∀ a,
  fold_left (fun acc c => 10 * acc + (code c - 48))
    (list_ascii_of_string (NilEmpty.string_of_uint d)) (Z.pos a)
  = Z.pos (Pos.of_uint_acc d a).
Proof.
  induction d; intros a; simpl; [done|..];
    (etrans; [|apply IHd]); f_equal; vm_compute code; lia.
Qed.

Lemma uint_value d :
  fold_left (fun acc c => 10 * acc + (code c - 48))
    (list_ascii_of_string (NilEmpty.string_of_uint d)) 0
  = Z.of_N (Pos.of_uint d).
Proof.
  induction d; simpl; [done|exact IHd|..]; apply uint_value_acc.
Qed.

(** [Number(String(n))] is [n]. *)
Lemma Number_digits_String_of_int n : 0 ≤ n → Number_digits (String_of_int n) = n.
Proof.
  intros Hn. destruct n as [|p|p]; [done| |lia].
  unfold Number_digits, String_of_int. simpl.
  pose proof (DecimalPos.Unsigned.to_uint_nonnil p) as Hnonnil.
  replace (NilZero.string_of_uint (Pos.to_uint p))
    with (NilEmpty.string_of_uint (Pos.to_uint p))
    by (by destruct (Pos.to_uint p)).
  by rewrite uint_value, DecimalPos.Unsigned.of_to.
Qed.

Lemma digit_run_bound s : ∀ acc,
  0 ≤ acc → every is_digit s = true →
  acc * 10 ^ Z.of_nat (String.length s)
  ≤ fold_left (fun acc c => 10 * acc + (code c - 48)) (list_ascii_of_string s) acc
  < (acc + 1) * 10 ^ Z.of_nat (String.length s).
Proof.
  induction s as [|c s IH]; intros acc Hacc Hs; [simpl; lia|].
  simpl in Hs. apply andb_true_iff in Hs as [Hc Hs].
  assert (0 ≤ code c - 48 ≤ 9) as Hdigit by (unfold is_digit in Hc; lia).
  specialize (IH (10 * acc + (code c - 48)) ltac:(lia) Hs).
  replace (Z.of_nat (String.length (String c s)))
    with (Z.of_nat (String.length s) + 1) by (simpl; lia).
  rewrite Z.pow_add_r by lia.
  assert (0 < 10 ^ Z.of_nat (String.length s)) by (apply Z.pow_pos_nonneg; lia).
  simpl. nia.
Qed.

(** The numeral of a positive number with [k] digits lies between
    [10^(k-1)] and [10^k]. *)
Lemma String_of_int_length v :
  0 < v →
  10 ^ (Z.of_nat (String.length (String_of_int v)) - 1) ≤ v
  < 10 ^ Z.of_nat (String.length (String_of_int v)).
Proof.
  intros Hv. pose proof (Number_digits_String_of_int v ltac:(lia)) as Hvalue.
  destruct (String_of_int_positive v Hv) as (x & r & Hs & Hx & Hx0 & Hr).
  rewrite Hs in Hvalue |- *. unfold Number_digits in Hvalue. simpl in Hvalue.
  assert (1 ≤ code x - 48 ≤ 9) as Hdigit.
  { clear -Hx Hx0. destruct x as [[] [] [] [] [] [] [] []]; vm_compute in Hx, Hx0 |- *;
      try discriminate; split; discriminate. }
  pose proof (digit_run_bound r (code x - 48) ltac:(lia) Hr) as Hbound.
  rewrite Z.mul_0_r, Z.add_0_l in Hvalue. rewrite Hvalue in Hbound.
  replace (Z.of_nat (String.length (String x r)) - 1)
    with (Z.of_nat (String.length r)) by (simpl; lia).
  replace (Z.of_nat (String.length (String x r)))
    with (Z.of_nat (String.length r) + 1) by (simpl; lia).
  rewrite Z.pow_add_r by lia.
  assert (0 < 10 ^ Z.of_nat (String.length r)) by (apply Z.pow_pos_nonneg; lia).
  nia.
Qed.

Lemma String_of_int_length_mono v n :
  0 < v → v ≤ n →
  (String.length (String_of_int v) ≤ String.length (String_of_int n))%nat.
Proof.
  intros Hv Hn.
  pose proof (String_of_int_length v Hv) as [Hlow _].
  pose proof (String_of_int_length n ltac:(lia)) as [_ Hhigh].
  destruct (decide (String.length (String_of_int v) ≤ String.length (String_of_int n))%nat)
    as [|Hgt]; [done|].
  assert (10 ^ Z.of_nat (String.length (String_of_int n))
          ≤ 10 ^ (Z.of_nat (String.length (String_of_int v)) - 1))
    by (apply Z.pow_le_mono_r; lia).
  lia.
Qed.

Lemma zeros_length k : String.length (ImageExport.zeros k) = k.
Proof. induction k as [|k IH]; simpl; [done|by rewrite IH]. Qed.

End NumeralValue.

(** X24 ([padIndex] of [handleDownloadImages]): with [indexWidth] the
    number of digits of [images.length], the label of every page, from
    1 to [images.length], is made of digits and is exactly [indexWidth]
    characters long, zeros first; labels of different pages differ. *)
Theorem index_labels_fixed_width (images : list ImageExport.HitomiImageEntry)
    (index : nat) :
  (index < length images)%nat →
  let indexWidth := String.length (ImageExport.images_count images) in
  let label := ImageExport.padIndex indexWidth (Z.of_nat index + 1) in
  String.length label = indexWidth
  ∧ every JsString.is_digit label = true
  ∧ JsString.Number_digits label = Z.of_nat index + 1
  ∧ ∀ index', ImageExport.padIndex indexWidth (Z.of_nat index' + 1) = label →
              index' = index.
Proof.
  intros Hindex indexWidth label.
  assert (String.length (JsString.String_of_int (Z.of_nat index + 1)) ≤ indexWidth)%nat
    as Hlen by (apply String_of_int_length_mono; lia).
  split; [|split; [|split]].
  - subst label. unfold ImageExport.padIndex.
    rewrite string_length_app, zeros_length. lia.
  - apply padIndex_digits. lia.
  - subst label. unfold ImageExport.padIndex.
    set (k := (indexWidth - _)%nat). clearbody k.
    rewrite <- (Number_digits_String_of_int (Z.of_nat index + 1)) at 2 by lia.
    unfold JsString.Number_digits. induction k as [|k IH]; [done|exact IH].
  - intros index' H. apply padIndex_inj in H; lia.
Qed.

Lemma index_labels_fixed_width_witness :
  String.length "03" = 2%nat
  ∧ every JsString.is_digit "03" = true
  ∧ JsString.Number_digits "03" = 3
  ∧ ∀ index', ImageExport.padIndex 2 (Z.of_nat index' + 1) = "03"%string → index' = 2%nat.
Proof.
  apply (index_labels_fixed_width
           [page; page; page; page; page; page; page; page; page; page; page; page] 2).
  simpl. lia.
Defined.

(** ** The private range 172.16.0.0/12 *)
Section PrivateRange.
Import JsString Text ImageProxy.
Local Open Scope string_scope.

Lemma String_of_int_natural n :
  0 ≤ n →
  ∃ x r, String_of_int n = String x r ∧ is_digit x = true ∧ every is_digit r = true.
Proof.
  intros Hn. destruct (decide (n = 0)) as [->|Hne].
  - by exists "0"%char, EmptyString.
  - destruct (String_of_int_positive n ltac:(lia)) as (x & r & Hs & Hx & _ & Hr).
    by exists x, r.
Qed.

Lemma digit_facts x :
  is_digit x = true →
  is_space x = false ∧ Ascii.eqb x "." = false ∧ Ascii.eqb x "-" = false
  ∧ Ascii.eqb x "+" = false.
Proof. destruct x as [[] [] [] [] [] [] [] []]; vm_compute; intros [=]; done. Qed.

(** The first part of [s.split(".")]. *)
Lemma split_on_first cur s :
  split_on "." cur s !! 0%nat
  = Some (cur ++ take_while (fun c => negb (Ascii.eqb c ".")) s).
Proof.
  revert cur. induction s as [|c s IH]; intros cur; simpl.
  - f_equal. induction cur as [|x cur IHcur]; [done|].
    change (String x cur = String x (cur ++ "")). by f_equal.
  - destruct (Ascii.eqb c "."); simpl.
    + f_equal. induction cur as [|x cur IHcur]; [done|].
      change (String x cur = String x (cur ++ "")). by f_equal.
    + rewrite IH. f_equal. by rewrite <- string_app_assoc.
Qed.

Lemma take_while_digits_app d tail f :
  (∀ c, is_digit c = true → f c = true) →
  every is_digit d = true →
  take_while f (d ++ tail) = d ++ take_while f tail.
Proof.
  intros Hf. induction d as [|x d IH]; [done|]. simpl every.
  intros [Hx Hd]%andb_true_iff.
  change (take_while f (String x (d ++ tail)) = String x (d ++ take_while f tail)).
  simpl. by rewrite (Hf x Hx), (IH Hd).
Qed.

Lemma parseInt10_numeral n segment :
  0 ≤ n → starts_clean_digit segment = true →
  parseInt10 (String_of_int n ++ segment) = Some n.
Proof.
  intros Hn Hsegment.
  destruct (String_of_int_natural n Hn) as (x & r & Hs & Hx & Hr).
  destruct (digit_facts x Hx) as (Hspace & _ & Hminus & Hplus).
  assert (every is_digit (String_of_int n) = true) as Hdigits
    by (rewrite Hs; simpl; by rewrite Hx, Hr).
  assert (take_while is_digit (String_of_int n ++ segment) = String_of_int n) as Htake.
  { rewrite take_while_digits_app by done.
    replace (take_while is_digit segment) with EmptyString.
    - clear. induction (String_of_int n) as [|c s IH]; [done|].
      change (String c (s ++ "") = String c s). by f_equal.
    - destruct segment as [|c segment]; [done|]. simpl in *.
      apply negb_true_iff in Hsegment. by rewrite Hsegment. }
  unfold parseInt10, skip_ws. rewrite Hs in Htake |- *.
  change (String x r ++ segment) with (String x (r ++ segment)) in Htake |- *.
  simpl drop_while. rewrite Hspace, Hminus, Hplus. cbv zeta beta iota.
  rewrite Htake. rewrite <- Hs, Number_digits_String_of_int by done.
  f_equal. lia.
Qed.

End PrivateRange.

Section PrivateRangeCheck.
Import JsString Text ImageProxy.
Local Open Scope string_scope.

Lemma second_part n tail :
  0 ≤ n →
  default EmptyString (split_on "." "" ("172." ++ String_of_int n ++ tail) !! 1%nat)
  = String_of_int n ++ take_while (fun c => negb (Ascii.eqb c ".")) tail.
Proof.
  intros Hn.
  change (split_on "." "" ("172." ++ String_of_int n ++ tail))
    with ("172" :: split_on "." "" (String_of_int n ++ tail)).
  change (("172" :: split_on "." "" (String_of_int n ++ tail)) !! 1%nat)
    with (split_on "." "" (String_of_int n ++ tail) !! 0%nat).
  rewrite split_on_first. simpl default.
  change ("" ++ ?s) with s.
  apply take_while_digits_app.
  - intros c Hc. by destruct (digit_facts c Hc) as (_ & -> & _).
  - destruct (String_of_int_natural n Hn) as (x & r & -> & Hx & Hr).
    simpl. by rewrite Hx, Hr.
Qed.

Lemma private_172 n tail :
  0 ≤ n → starts_clean_digit tail = true →
  isPrivateIP ("172." ++ String_of_int n ++ tail) = ((16 <=? n)%Z && (n <=? 31)%Z).
Proof.
  intros Hn Htail. unfold isPrivateIP. rewrite second_part by done.
  set (segment := take_while _ tail).
  assert (starts_clean_digit segment = true) as Hsegment.
  { subst segment. destruct tail as [|c tail]; [done|]. simpl in *.
    destruct (Ascii.eqb c "."); [done|]. simpl. exact Htail. }
  destruct (String_of_int_natural n Hn) as (x & r & Hs & Hx & Hr).
  assert (match String_of_int n ++ segment with
          | EmptyString => "0"
          | part => part
          end = String_of_int n ++ segment) as ->
    by (rewrite Hs; reflexivity).
  rewrite parseInt10_numeral by done.
  set (host := "172." ++ String_of_int n ++ tail).
  change host with (String "1" (String "7" (String "2" (String "." (String_of_int n ++ tail))))).
  replace (String.eqb _ "localhost") with false
    by (symmetry; apply String.eqb_neq; discriminate).
  replace (String.eqb _ "127.0.0.1") with false
    by (symmetry; apply String.eqb_neq; discriminate).
  replace (String.eqb _ "::") with false
    by (symmetry; apply String.eqb_neq; discriminate).
  rewrite (startsWith_second "1" "9" "1" "7"), (startsWith_second "1" "0" "1" "7"),
    (startsWith_second "1" "6" "1" "7") by done.
  rewrite (startsWith_first ":" "1"), (startsWith_first "f" "1") by done.
  rewrite (startsWith_first "f" "1") by done.
  change (startsWith "172." _) with true.
  cbv beta iota. simpl orb. simpl andb.
  by destruct ((16 <=? n)%Z && (n <=? 31)%Z).
Qed.

End PrivateRangeCheck.

(** X25 ([isPrivateIP]): a host name that begins with [172.], a natural
    number [n] and then the end or a character that is no digit is
    taken for a private address exactly when [n] lies between 16 and
    31. *)
Theorem private_range_172 (n : Z) (tail : string) :
  0 ≤ n → starts_clean_digit tail = true →
  ImageProxy.isPrivateIP ("172." ++ JsString.String_of_int n ++ tail)%string
  = (16 <=? n) && (n <=? 31).
Proof. apply private_172. Qed.

Lemma private_range_172_witness :
  ImageProxy.isPrivateIP "172.31.255.255" = true
  ∧ ImageProxy.isPrivateIP "172.32.0.1" = false.
Proof.
  split.
  - apply (private_range_172 31 ".255.255"); [lia|reflexivity].
  - apply (private_range_172 32 ".0.1"); [lia|reflexivity].
Defined.

(** ** File names with an extension *)
Section EnsureExtension.
Import JsString Text Download.
Local Open Scope string_scope.

Lemma trim_end_idem s : trim_end (trim_end s) = trim_end s.
Proof.
  induction s as [|c s IH]; [done|]. cbn [trim_end].
  destruct (trim_end s) as [|x r] eqn:Hs.
  - destruct (is_space c) eqn:Hc; [done|]. cbn [trim_end]. by rewrite Hc.
  - cbn [trim_end] in IH |- *. by rewrite IH.
Qed.

Lemma skip_ws_clean s : starts_clean s = true → skip_ws s = s.
Proof.
  destruct s as [|c s]; [done|]. unfold skip_ws. cbn [drop_while starts_clean].
  intros Hc. apply negb_true_iff in Hc. by rewrite Hc.
Qed.

Lemma trim_idem s : trim (trim s) = trim s.
Proof.
  unfold trim at 1.
  rewrite skip_ws_clean by apply starts_clean_trim_end, skip_ws_starts_clean.
  apply trim_end_idem.
Qed.

Lemma trim_starts_clean s : starts_clean (trim s) = true.
Proof. apply starts_clean_trim_end, skip_ws_starts_clean. Qed.

(** White space is trimmed from the end of the second part, when that
    has more than white space. *)
Lemma trim_end_app a b :
  trim_end b ≠ EmptyString → trim_end (a ++ b) = a ++ trim_end b.
Proof.
  intros Hb. induction a as [|c a IH]; [done|].
  change (trim_end (String c (a ++ b)) = String c (a ++ trim_end b)).
  cbn [trim_end]. rewrite IH.
  destruct (a ++ trim_end b) as [|x r] eqn:Hab; [|done].
  destruct a; [done|discriminate].
Qed.

Lemma trim_app_fixed a b :
  a ≠ EmptyString → starts_clean a = true → trim_end b = b → b ≠ EmptyString →
  trim (a ++ b) = a ++ b.
Proof.
  intros Ha Hstart Hb Hne. unfold trim. rewrite skip_ws_clean.
  - rewrite trim_end_app by congruence. by rewrite Hb.
  - destruct a as [|c a]; [done|]. exact Hstart.
Qed.

Lemma dot_extension_fixed extension :
  trim_end extension = extension →
  trim_end ("." ++ extension) = "." ++ extension ∧ "." ++ extension ≠ EmptyString.
Proof.
  intros Hext. split; [|done].
  change (trim_end (String "." extension) = String "." extension).
  cbn [trim_end]. rewrite Hext. by destruct extension.
Qed.

Lemma includes_lower s : includes "." (toLowerCase s) = includes "." s.
Proof.
  induction s as [|c s IH]; [done|]. simpl. rewrite IH. f_equal.
  clear. destruct c as [[] [] [] [] [] [] [] []]; vm_compute; reflexivity.
Qed.

Lemma endsWith_includes extension s :
  endsWith ("." ++ extension) s = true → includes "." s = true.
Proof.
  change ("." ++ extension) with (String "." extension).
  induction s as [|c s IH]; cbn [endsWith includes]; [done|].
  intros [Heq|Hrest]%orb_true_iff.
  - simpl in Heq. destruct (Ascii.eqb c "."); [done|discriminate].
  - rewrite (IH Hrest). apply orb_true_r.
Qed.

Lemma ensureExtension_dot name extension :
  includes "." (ensureExtension name extension) = true.
Proof.
  unfold ensureExtension. destruct (trim name) as [|c s] eqn:Htrim.
  - by change (includes "." (String "d" ("ocument." ++ extension)) = true).
  - destruct (endsWith _ _) eqn:Hends.
    + apply endsWith_includes in Hends. by rewrite includes_lower in Hends.
    + destruct (includes "." (String c s)) eqn:Hdot; [done|].
      rewrite includes_app, Hdot. simpl.
      by change (includes "." (String "." extension) = true).
Qed.

Lemma ensureExtension_trimmed name extension :
  trim_end extension = extension →
  trim (ensureExtension name extension) = ensureExtension name extension.
Proof.
  intros Hext. destruct (dot_extension_fixed extension Hext) as [Hdot Hne].
  unfold ensureExtension.
  pose proof (trim_idem name) as Hidem. pose proof (trim_starts_clean name) as Hstart.
  destruct (trim name) as [|c s] eqn:Htrim.
  - change ("document." ++ extension) with ("document" ++ ("." ++ extension)).
    by apply trim_app_fixed.
  - destruct (endsWith _ _); [done|]. destruct (includes "." (String c s)); [done|].
    by apply trim_app_fixed.
Qed.

End EnsureExtension.



(** ** The print document *)
Section PrintDocumentFacts.
Import JsString Download GalleryViewer PrintDocument.
Local Open Scope string_scope.

Lemma encode_unit_safe c : every query_safe (encode_unit c) = true.
Proof. destruct c as [[] [] [] [] [] [] [] []]; vm_compute; reflexivity. Qed.

Lemma encodeURIComponent_safe s : every query_safe (encodeURIComponent s) = true.
Proof.
  induction s as [|c s IH]; simpl; [done|]. by rewrite every_app, encode_unit_safe, IH.
Qed.

Lemma query_safe_attribute c : query_safe c = true → attribute_safe c = true.
Proof. destruct c as [[] [] [] [] [] [] [] []]; vm_compute; done. Qed.

Lemma proxied_safe galleryId remoteUrl :
  every attribute_safe (proxied galleryId remoteUrl) = true.
Proof.
  assert (∀ s, every attribute_safe (encodeURIComponent s) = true) as Hsafe.
  { intros s. eapply every_impl; [apply query_safe_attribute|].
    apply encodeURIComponent_safe. }
  unfold proxied. rewrite !every_app, !Hsafe. by vm_compute.
Qed.

Lemma pickPreferredSource_elem getSourceExtension sources :
  sources ≠ [] → pickPreferredSource getSourceExtension sources ∈ sources.
Proof.
  intros Hne. unfold pickPreferredSource. destruct sources as [|s0 rest]; [done|].
  generalize ["jpg"; "jpeg"; "png"; "webp"; "avif"]. intros preferred.
  destruct (first_preferred getSourceExtension preferred (s0 :: rest)) as [found|] eqn:Hfirst.
  - induction preferred as [|ext preferred IH]; [done|]. simpl in Hfirst.
    destruct (find_extension getSourceExtension ext (s0 :: rest)) as [f|] eqn:Hfind;
      [|by apply IH].
    injection Hfirst as <-. by apply find_extension_Some in Hfind as [? _].
  - destruct (last (s0 :: rest)) as [l|] eqn:Hlast; [|by apply last_None in Hlast].
    by apply last_Some_elem_of.
Qed.

Lemma escapeHtml_attribute_safe value :
  every attribute_safe (escapeHtml value) = true.
Proof.
  induction value as [|c s IH]; simpl; [done|]. rewrite every_app, IH, andb_true_r.
  clear. destruct c as [[] [] [] [] [] [] [] []]; vm_compute; reflexivity.
Qed.

End PrintDocumentFacts.

(** X27 ([handleSavePdf] over the [images] memo): the markup of a page
    is the fixed text around three inserted values; the [src] value is
    one of the sources of the image, and for an image of the [images]
    memo it holds no double quote and no angle bracket, although it is
    inserted without escaping; the [alt] value and the title, which are
    escaped, hold none either.  So no inserted value can end its
    attribute or open a tag. *)
Theorem print_values_quote_free (getSourceExtension : string → string)
    (galleryId : string) (documentLabel : option string)
    (serverMap : Hitomi.HitomiServerMap) (files : option (list Hitomi.HitomiFile)) :
  (∀ index image,
     image ∈ GalleryViewer.images galleryId documentLabel files (Some serverMap) →
     let src := GalleryViewer.pickPreferredSource getSourceExtension
                  (ImageExport.sources image) in
     let alt := Download.escapeForHtml (PrintDocument.alt_text image index) in
     PrintDocument.figure getSourceExtension index image
     = ("<figure class=" ++ PrintDocument.quote ++ "hitomi-page" ++ PrintDocument.quote
        ++ "><img src=" ++ PrintDocument.quote ++ src ++ PrintDocument.quote
        ++ " alt=" ++ PrintDocument.quote ++ alt ++ PrintDocument.quote
        ++ " /><figcaption>Page " ++ JsString.String_of_int (Z.of_nat index + 1)
        ++ "</figcaption></figure>")%string
     ∧ src ∈ ImageExport.sources image
     ∧ every attribute_safe src = true
     ∧ every attribute_safe alt = true)
  ∧ every attribute_safe (PrintDocument.safeTitle documentLabel galleryId) = true.
Proof.
  split; [|apply escapeHtml_attribute_safe].
  intros index image Hin. split; [done|].
  unfold GalleryViewer.images in Hin.
  apply list_elem_of_omap in Hin as (o & Hin & Ho). simpl in Ho. subst o.
  apply elem_of_lookup_imap_1 in Hin as (i & file & Hentry & Hfile).
  pose proof (image_entry_sound galleryId documentLabel serverMap i file) as Hsound.
  rewrite <- Hentry in Hsound. destruct Hsound as (_ & Hcount & _ & Hsources & _).
  assert (GalleryViewer.pickPreferredSource getSourceExtension (ImageExport.sources image)
          ∈ ImageExport.sources image) as Hpick.
  { apply pickPreferredSource_elem. intros Hnil. rewrite Hnil in Hcount. simpl in Hcount. lia. }
  split; [done|]. split; [|apply escapeHtml_attribute_safe].
  destruct (Hsources _ Hpick) as (variant & remoteUrl & _ & _ & ->).
  apply proxied_safe.
Qed.

(** ** The drawing loop ends *)
Section DrawingEnds.
Import ImageExport.
Variables (env : Env) (formatConfig : ImageExportConfig)
  (packaging : ImagePackaging) (baseLabel : string) (L : Layout).
Hypothesis Hchunk : 1 ≤ chunkHeight L.

Lemma Qle_bool_false x y : Qle_bool x y = false → (y < x)%Q.
Proof.
  intros H. apply Qnot_le_lt. intros Hle. apply Qle_bool_iff in Hle. congruence.
Qed.

Lemma Qmin_cases x y :
  ((Qmin x y <= x ∧ Qmin x y <= y) ∧ (x <= Qmin x y ∨ y <= Qmin x y))%Q.
Proof.
  split; [split; [apply Q.le_min_l|apply Q.le_min_r]|].
  destruct (Q.min_spec x y) as [[_ H]|[_ H]]; rewrite H; [left|right]; apply Qle_refl.
Qed.

Lemma next_chunk_steady st :
  steady L st →
  match next_chunk env formatConfig packaging baseLabel L st with
  | Continue st1 =>
      steady L st1 ∧ yCursor st1 = yCursor st
      ∧ chunkYStart st + canvas st ≤ chunkYStart st1
  | Return _ => True
  | _ => False
  end.
Proof.
  intros (Hcanvas & Hstart & Hcursor). unfold next_chunk.
  destruct (openChunk env L (chunkIndex st + 1)) as [height|] eqn:Hopen; [|done].
  apply (openChunk_within env L Hchunk) in Hopen.
  unfold steady. cbn [canvas chunkYStart chunkIndex yCursor flushChunk].
  split; [|split; [done|nia]].
  split; [done|]. split; [done|].
  eapply Qle_trans; [exact Hcursor|]. rewrite <- Zle_Qle. nia.
Qed.

Lemma draw_slices_ends fuel index : ∀ remainingHeight sourceOffsetY st k,
  steady L st →
  (2 * remainingHeight <= inject_Z k)%Q →
  2 * k + (if switch_due st then 1 else 0) ≤ Z.of_nat fuel →
  ended L (draw_slices env formatConfig packaging baseLabel L fuel index
             remainingHeight sourceOffsetY st).
Proof.
  induction fuel as [|fuel IH]; intros rem off st k Hsteady Hrem Hfuel.
  - simpl. replace (Qle_bool rem 0) with true; [done|].
    symmetry. apply Qle_bool_iff.
    assert (inject_Z k <= 0)%Q by (change 0%Q with (inject_Z 0); rewrite <- Zle_Qle;
                                    destruct (switch_due st); lia).
    lra.
  - cbn [draw_slices]. destruct (Qle_bool rem 0) eqn:Hdone; [done|].
    apply Qle_bool_false in Hdone.
    assert (1 ≤ k) as Hk.
    { assert (0 < inject_Z k)%Q as H0 by lra.
      change 0%Q with (inject_Z 0) in H0. rewrite <- Zlt_Qlt in H0. lia. }
    destruct Hsteady as (Hcanvas & Hstart & Hcursor).
    fold (switch_due st). destruct (switch_due st) eqn:Hdue.
    + unfold switch_due in Hdue. apply Qle_bool_iff in Hdue.
      pose proof (next_chunk_steady st (conj Hcanvas (conj Hstart Hcursor))) as Hnext.
      destruct (next_chunk env formatConfig packaging baseLabel L st)
        as [st1|st1|st1|]; [|done..].
      destruct Hnext as ((Hcanvas1 & Hstart1 & Hcursor1) & Hy & Hbottom).
      rewrite Hy in *.
      destruct (Qmin_cases rem (inject_Z (chunkYStart st + canvas st) - yCursor st))
        as [[Hle1 Hle2] Hmin].
      assert (inject_Z (chunkYStart st + canvas st) <= inject_Z (chunkYStart st1))%Q
        as Hbottom' by (by rewrite <- Zle_Qle).
      assert (inject_Z (chunkYStart st1) + 1 <= inject_Z (chunkYStart st1 + canvas st1))%Q
        as Hnew.
      { change 1%Q with (inject_Z 1). rewrite <- inject_Z_plus, <- Zle_Qle. lia. }
      apply (IH _ _ _ k).
      * unfold steady. cbn [canvas chunkYStart chunkIndex yCursor].
        split; [done|]. split; [done|]. lra.
      * destruct Hmin; lra.
      * replace (switch_due _) with false; [lia|].
        symmetry. unfold switch_due. cbn [canvas chunkYStart yCursor].
        destruct (Qle_bool _ _) eqn:Hb; [|done].
        apply Qle_bool_iff in Hb. lra.
    + unfold switch_due in Hdue. apply Qle_bool_false in Hdue.
      set (available := (inject_Z (chunkYStart st + canvas st) - yCursor st)%Q) in *.
      destruct (Qmin_cases rem available) as [[Hle1 Hle2] Hmin].
      assert ((1 # 2) < available)%Q as Havailable by (unfold available; lra).
      assert (yCursor st + available <= inject_Z (chunkYStart st + canvas st))%Q
        as Hfit by (unfold available; lra).
      clearbody available.
      destruct Hmin as [Hall|Hpart].
      * apply (IH _ _ _ 0).
        -- unfold steady. cbn [canvas chunkYStart chunkIndex yCursor].
           split; [done|]. split; [done|]. lra.
        -- change (inject_Z 0) with 0%Q. lra.
        -- destruct (switch_due _); lia.
      * apply (IH _ _ _ (k - 1)).
        -- unfold steady. cbn [canvas chunkYStart chunkIndex yCursor].
           split; [done|]. split; [done|]. lra.
        -- unfold Z.sub. rewrite inject_Z_plus, inject_Z_opp. change (inject_Z 1) with 1%Q. lra.
        -- destruct (switch_due _); lia.
Qed.

Lemma draw_each_ends fuel dimensions k : ∀ index st,
  steady L st →
  Forall (fun e : Dimensions * bool =>
            (2 * (inject_Z (dim_height e.1) * widthScale L) <= inject_Z k)%Q) dimensions →
  2 * k + 1 ≤ Z.of_nat fuel →
  ended L (draw_each env formatConfig packaging baseLabel L fuel index dimensions st).
Proof.
  induction dimensions as [|[dims preloaded] rest IH]; intros index st Hsteady Hall Hfuel;
    [done|].
  apply Forall_cons in Hall as [Hfirst Hrest]. simpl in Hfirst. cbn [draw_each].
  destruct (_ || _); [by apply IH|]. destruct (_ || _); [by apply IH|].
  destruct (if preloaded then _ else _); [by apply IH|done|].
  pose proof (draw_slices_ends fuel index
                (inject_Z (dim_height dims) * widthScale L)%Q 0%Q st k Hsteady Hfirst)
    as Hslices.
  destruct (draw_slices _ _ _ _ _ _ _ _ _ _) as [st1|st1|st1|].
  - apply IH; [|done..]. apply Hslices. destruct (switch_due st); lia.
  - done.
  - done.
  - apply Hslices. destruct (switch_due st); lia.
Qed.

End DrawingEnds.

Section CombineEnds.
Import ImageExport.

Lemma heights_bounded (scale : Q) (dimensions : list (Dimensions * bool)) :
  ∃ k, Forall (fun e : Dimensions * bool =>
                 (2 * (inject_Z (dim_height e.1) * scale) <= inject_Z k)%Q) dimensions.
Proof.
  induction dimensions as [|e rest [k IH]]; [by exists 0|].
  exists (Z.max k (Qceiling (2 * (inject_Z (dim_height e.1) * scale)))).
  constructor.
  - eapply Qle_trans; [apply Qle_ceiling|]. rewrite <- Zle_Qle. lia.
  - eapply Forall_impl; [exact IH|]. intros e' He'. simpl in *.
    eapply Qle_trans; [exact He'|]. rewrite <- Zle_Qle. lia.
Qed.

Lemma chunkHeight_positive formatConfig dimensions combinedWidth :
  1 ≤ chunkHeight (layout formatConfig dimensions combinedWidth).
Proof. unfold layout. cbn [chunkHeight]. apply Z.le_max_l. Qed.

Lemma combine_images_ends env formatConfig packaging baseLabel images s :
  ∃ enough : nat, ∀ fuel, (enough ≤ fuel)%nat →
    combine_images env formatConfig packaging baseLabel fuel images s ≠ Diverge.
Proof.
  unfold combine_images.
  destruct (measure env 0 images 0) as [[dimensions combinedWidth]|]; [|by exists 0%nat].
  set (L := layout formatConfig dimensions combinedWidth).
  pose proof (chunkHeight_positive formatConfig dimensions combinedWidth) as Hchunk.
  fold L in Hchunk.
  destruct (heights_bounded (widthScale L) dimensions) as [k Hk].
  exists (Z.to_nat (2 * k + 1)). intros fuel Hfuel.
  destruct (Qle_bool (totalHeight L) 0); [done|].
  destruct (openChunk env L 0) as [height|] eqn:Hopen; [|done].
  apply (openChunk_within env L Hchunk) in Hopen.
  match goal with
  | |- context [draw_each ?e ?c ?p ?b ?l ?f ?i ?d ?st] =>
      assert (steady L st) as Hst
        by (unfold steady; cbn [canvas chunkYStart chunkIndex yCursor];
            split; [done|]; split; [lia|];
            change 0%Q with (inject_Z 0); rewrite <- Zle_Qle; lia);
      pose proof (draw_each_ends e c p b l Hchunk f d k i st Hst Hk ltac:(lia)) as Heach;
      destruct (draw_each e c p b l f i d st) as [st1|st1|st1|]
  end; done.
Qed.

End CombineEnds.

